(** * Fluid-jusdnce: the generation service and the preview director

    A shallow embedding of [services/gemini.ts] (the version with the
    [flourish] role and style-reference chaining) and of the
    [Step4Preview] component, with the properties of the specification
    stated and settled against it.

    Conventions of the embedding:
    - a JavaScript [number] is an exact rational ([Q]); [Math.floor] is
      [Qfloor]; pixel sizes of decoded images are integers ([Z]); the size
      of the slicer's canvas is also computed in double precision and
      compared with the rational one;
    - a promise is represented by the way it ends: [Resolved], [Rejected]
      or [Pending] (never settled);
    - the browser (image decoding, canvas, JPEG encoder, [Math.random]) and
      the remote image service are explicit parameters. *)

From Stdlib Require Import ZArith QArith Qround Lqa Lia List String Ascii Bool DecimalString.
From Stdlib Require Import Floats Uint63.
From stdpp Require Import gmap strings.
Import ListNotations.

Local Open Scope string_scope.

(** ** JavaScript strings *)

Module JS.

(** [s.includes(sub)] *)
Fixpoint includes (s sub : string) : bool :=
  match s with
  | EmptyString => String.prefix sub EmptyString
  | String _ rest => String.prefix sub s || includes rest sub
  end.

(** [s.split(sep)] for a one-character separator *)
Fixpoint split_aux (sep : ascii) (acc s : string) : list string :=
  match s with
  | EmptyString => [acc]
  | String c rest =>
      if Ascii.eqb c sep then acc :: split_aux sep EmptyString rest
      else split_aux sep (acc ++ String c EmptyString) rest
  end.

Definition split (sep : ascii) (s : string) : list string :=
  split_aux sep EmptyString s.

(** [s.split(',')[1]]: [undefined] is [None] *)
Definition split_comma_1 (s : string) : option string :=
  nth_error (split "," s) 1.

(** The first [n] characters have been skipped. *)
Fixpoint drop (n : nat) (s : string) : string :=
  match n, s with
  | O, _ => s
  | S n', String _ rest => drop n' rest
  | S _, EmptyString => EmptyString
  end.

(** [s.replace(/left|right/, by)]: the leftmost match is replaced, and at
    one position the alternative [left] is tried before [right]. *)
Fixpoint replace_left_right (s by_ : string) : string :=
  match s with
  | EmptyString => EmptyString
  | String c rest =>
      if String.prefix "left" s then by_ ++ drop 4 s
      else if String.prefix "right" s then by_ ++ drop 5 s
      else String c (replace_left_right rest by_)
  end.

Definition lower_ascii (c : ascii) : ascii :=
  let n := nat_of_ascii c in
  if (65 <=? n)%nat && (n <=? 90)%nat then ascii_of_nat (n + 32) else c.

(** [s.toLowerCase()] on the ASCII range *)
Fixpoint toLowerCase (s : string) : string :=
  match s with
  | EmptyString => EmptyString
  | String c rest => String (lower_ascii c) (toLowerCase rest)
  end.

(** Template-literal rendering of an array index. *)
Definition of_nat (n : nat) : string :=
  NilZero.string_of_uint (Nat.to_uint n).

(** Truthiness of an optional string: [undefined] and the empty string are
    falsy. *)
Definition truthy (o : option string) : bool :=
  match o with
  | Some s => negb (String.eqb s EmptyString)
  | None => false
  end.

(** How a promise ends. [Pending] is a promise that nothing ever settles. *)
Inductive Promise (A : Type) : Type :=
| Resolved (a : A)
| Rejected (reason : string)
| Pending.

Arguments Resolved {A} a.
Arguments Rejected {A} reason.
Arguments Pending {A}.

(** [await p; k]: the continuation runs on fulfilment only. *)
Definition await {A B : Type} (p : Promise A) (k : A -> Promise B) : Promise B :=
  match p with
  | Resolved a => k a
  | Rejected e => Rejected e
  | Pending => Pending
  end.

(** [try { body } catch (e) { handler }] around an async body: a rejection is
    handled, a body that never settles stays unsettled. *)
Definition try_catch {A : Type} (body : Promise A) (handler : string -> Promise A) : Promise A :=
  match body with
  | Rejected e => handler e
  | other => other
  end.

(** [Promise.all]: rejects as soon as one member rejects, resolves when all
    have resolved, and is otherwise never settled. *)
Fixpoint all {A : Type} (ps : list (Promise A)) : Promise (list A) :=
  match ps with
  | [] => Resolved []
  | p :: rest =>
      match p, all rest with
      | Rejected e, _ => Rejected e
      | _, Rejected e => Rejected e
      | Pending, _ => Pending
      | _, Pending => Pending
      | Resolved a, Resolved r => Resolved (a :: r)
      end
  end.

(** [array.map((x, i) => f(x, i))] *)
Fixpoint mapi_from {A B : Type} (i : nat) (f : A -> nat -> B) (l : list A) : list B :=
  match l with
  | [] => []
  | x :: rest => f x i :: mapi_from (S i) f rest
  end.

Definition mapi {A B : Type} (f : A -> nat -> B) (l : list A) : list B :=
  mapi_from 0 f l.

End JS.

Import JS.

(** ** Domain data model ([types.ts]) *)

Inductive EnergyLevel := low | mid | high.
Inductive FrameType := body | closeup.
Inductive SheetRole := base | alt | flourish.
Inductive SubjectCategory := CHARACTER | TEXT | SYMBOL.

(** The preview also builds a frame without a role (its synthetic
    ["base"] frame), so the role is optional here. *)
Record GeneratedFrame := {
  url : string;
  pose : string;
  energy : EnergyLevel;
  type : FrameType;
  role : option SheetRole
}.

Definition role_name (r : SheetRole) : string :=
  match r with
  | base => "base"
  | alt => "alt"
  | flourish => "flourish"
  end.

#[global] Instance EnergyLevel_eq_dec : EqDecision EnergyLevel.
Proof. solve_decision. Defined.
#[global] Instance FrameType_eq_dec : EqDecision FrameType.
Proof. solve_decision. Defined.
#[global] Instance SheetRole_eq_dec : EqDecision SheetRole.
Proof. solve_decision. Defined.
#[global] Instance SubjectCategory_eq_dec : EqDecision SubjectCategory.
Proof. solve_decision. Defined.

(** ** The browser *)

(** A decoded [HTMLImageElement]. *)
Record Image := {
  src : string;
  width : Z;
  height : Z
}.

(** What has been painted on a canvas by the two routines that paint:
    one cell of a sheet, or a mirrored copy. *)
Inductive Painting :=
| Cell (img : Image) (sx sy sw sh : Q)
| Mirrored (img : Image).

Record Canvas := {
  canvas_width : Z;
  canvas_height : Z;
  painted : Painting
}.

Record Browser := {
  (** setting [img.src]: [Some] fires [onload] with the decoded image,
      [None] fires [onerror] *)
  load : string -> option Image;
  (** does [canvas.getContext('2d')] return a context *)
  getContext2d : bool;
  (** the JPEG encoder behind [toDataURL], for a canvas that has pixels *)
  encode : Canvas -> Q -> string;
  (** the value [Math.random()] returns while frame [i] of the sheet of a
      role is processed *)
  random : SheetRole -> nat -> Q
}.

(** [canvas.toDataURL('image/jpeg', quality)]. A canvas without pixels
    (zero width or height) serialises to the string [data:,]. *)
Definition toDataURL (b : Browser) (c : Canvas) (quality : Q) : string :=
  if (canvas_width c <=? 0)%Z || (canvas_height c <=? 0)%Z then "data:,"
  else encode b c quality.

(** ** Prompt engineering *)

(** The character written [\n] in the source. *)
Definition newline : string := String (ascii_of_nat 10) EmptyString.

Definition arch : string :=
  "
    ROLE: Professional 2D Game Asset Artist.
    TASK: Generate a 4x4 SPRITE SHEET (16 distinct frames) on a seamless WHITE background.

    [VISUAL STRUCTURE DIAGRAM]
    _______________________________________________________
    |             |             |             |             |
    |   [ P1 ]    |   [ P2 ]    |   [ P3 ]    |   [ P4 ]    |  <-- ROW 1: IDLE
    |_____________|_____________|_____________|_____________|
    |             |             |             |             |
    |   [ P5 ]    |   [ P6 ]    |   [ P7 ]    |   [ P8 ]    |  <-- ROW 2: LEFT
    |_____________|_____________|_____________|_____________|
    |             |             |             |             |
    |   [ P9 ]    |   [ P10 ]   |   [ P11 ]   |   [ P12 ]   |  <-- ROW 3: RIGHT
    |_____________|_____________|_____________|_____________|
    |             |             |             |             |
    |   [ P13 ]   |   [ P14 ]   |   [ P15 ]   |   [ P16 ]   |  <-- ROW 4: ACTION
    |_____________|_____________|_____________|_____________|

    STRICT GENERATION RULES:
    1. NO GRID LINES: The final output must be 16 characters floating on a pure white background. NO DRAWN BORDERS.
    2. SAFETY MARGIN: The subject must be centered in its invisible cell with at least 20% padding.
    3. NO CLIPPING: Hands/feet/hair must NEVER touch the edge of the imaginary grid cell.
    4. CONSISTENCY: Keep the character size and proportions identical across all 16 frames.
    ".

Definition choreography (category : SubjectCategory) : string :=
  match category with
  | CHARACTER =>
      "
        CHOREOGRAPHY PLAN:
        ROW 1 (Frames 1-4): IDLE & BREATHING. Front-facing, subtle movement.
        ROW 2 (Frames 5-8): MOVING LEFT. Stepping or leaning Left.
        ROW 3 (Frames 9-12): MOVING RIGHT. Stepping or leaning Right.
        ROW 4 (Frames 13-16): HIGH ENERGY / JUMP. Power pose or Jump.
        "
  | TEXT =>
      "
        KINETIC TYPE PLAN:
        ROW 1: Base Legible. ROW 2: Skew Left (Blur). ROW 3: Skew Right (Blur). ROW 4: Distortion/Glitch.
        "
  | SYMBOL =>
      "
        ANIMATION PLAN:
        ROW 1: Pulse. ROW 2: Rotate Left. ROW 3: Rotate Right. ROW 4: Burst/Glow.
        "
  end.

Definition style (stylePrompt motionPrompt : string) : string :=
  "
    VISUAL STYLE: " ++ stylePrompt ++ ".
    CONTEXT: " ++ motionPrompt ++ ".
    IMPORTANT: Flat, clear lighting. Production-ready asset.
    ".

Definition roleInstruction (role : SheetRole) : string :=
  match role with
  | flourish =>
      "
VARIATION MODE: FLOURISH. Generate EXAGGERATED, HIGH-ENERGY versions of the moves. More dynamic action lines."
  | alt =>
      "
VARIATION MODE: ALTERNATE. Generate different angles or timing for the same moves."
  | base => EmptyString
  end.

Definition constructDynamicPrompt (category : SubjectCategory) (role : SheetRole)
    (stylePrompt motionPrompt : string) : string :=
  arch ++ newline ++ choreography category ++ newline ++ style stylePrompt motionPrompt
    ++ newline ++ roleInstruction role.

(** The consistency instruction appended when a style reference is given. *)
Definition consistencyInstruction (role : SheetRole) : string :=
  "
        

[STYLE CONSISTENCY ENFORCEMENT]
        You have been provided with TWO images.
        Image 1: The Source Identity.
        Image 2: A 'Reference Sprite Sheet' (STYLE TARGET).
        TASK: Generate a NEW sprite sheet (Role: " ++ role_name role ++ ") that matches the STYLE of Image 2.
        - Same pixel art/brush style.
        - Same color palette and lighting.
        - CONSISTENCY IS CRITICAL.
        ".


(** ** Deterministic slicer *)

Local Open Scope Q_scope.

Definition insetFactor : Q := 0.08.

(** The canvas after the body of the two loops has run for row [r] and
    column [c]: it was cleared and the cell drawn over all of it. *)
Definition sliceCell (img : Image) (rows cols r c : nat) : Canvas :=
  let size := inject_Z (Z.min (width img) (height img)) in
  let startX := (inject_Z (width img) - size) / 2 in
  let startY := (inject_Z (height img) - size) / 2 in
  let rawCellW := size / inject_Z (Z.of_nat cols) in
  let rawCellH := size / inject_Z (Z.of_nat rows) in
  let insetX := rawCellW * insetFactor in
  let insetY := rawCellH * insetFactor in
  let drawW := rawCellW * (1 - 2 * insetFactor) in
  let drawH := rawCellH * (1 - 2 * insetFactor) in
  let sx := startX + (inject_Z (Z.of_nat c) * rawCellW) + insetX in
  let sy := startY + (inject_Z (Z.of_nat r) * rawCellH) + insetY in
  {| canvas_width := Qfloor drawW;
     canvas_height := Qfloor drawH;
     painted := Cell img sx sy drawW drawH |}.

(** [for r < rows: for c < cols: frames.push(...)] *)
Definition sliceCells (img : Image) (rows cols : nat) : list Canvas :=
  flat_map (fun r => map (fun c => sliceCell img rows cols r c) (seq 0%nat cols)) (seq 0%nat rows).

Definition sliceSpriteSheet (b : Browser) (base64Image : string) (rows cols : nat)
    : Promise (list string) :=
  match load b base64Image with
  | None => Rejected "error"
  | Some img =>
      if getContext2d b
      then Resolved (map (fun c => toDataURL b c 0.95) (sliceCells img rows cols))
      else Rejected "Canvas context failed"
  end.

Local Close Scope Q_scope.

(** [Math.floor] of a double that is not negative. *)
Definition floor_double (f : float) : Z :=
  match Prim2SF f with
  | S754_finite false m e =>
      if (0 <=? e)%Z then (Zpos m * 2 ^ e)%Z else Z.shiftr (Zpos m) (- e)
  | _ => 0%Z
  end.

(** The width and height of the canvas as the browser computes them, in
    double precision: [Math.floor(size / cols * (1 - 2 * insetFactor))]. *)
#[warnings="-inexact-float"]
Definition canvasSize_double (size cols : Z) : Z :=
  floor_double (PrimFloat.of_uint63 (Uint63.of_Z size) / PrimFloat.of_uint63 (Uint63.of_Z cols)
                * (1 - 2 * 0.08))%float.

(** [Math.floor] of a double between 0 and 2^53, computed on machine
    integers from the mantissa and the exponent of the double. *)
Definition floor_uint63 (f : float) : int :=
  let (m, e) := PrimFloat.frshiftexp f in
  if (e <=? 2101)%uint63 then 0%uint63
  else (PrimFloat.normfr_mantissa m >> (2154 - e))%uint63.

(** A positive finite double below 2^53 (and not tiny). *)
Definition ordinary (f : float) : bool :=
  negb (PrimFloat.is_nan f) && negb (PrimFloat.is_zero f) && negb (PrimFloat.is_infinity f)
  && negb (PrimFloat.get_sign f)
  && (let (m, e) := PrimFloat.frshiftexp f in
      (4503599627370496 <=? PrimFloat.normfr_mantissa m)%uint63
      && (PrimFloat.normfr_mantissa m <? 9007199254740992)%uint63
      && (1100 <=? e)%uint63 && (e <? 2154)%uint63).

(** ** Mirror utility *)

(** The promise is given [resolve] only, and the image an [onload] handler
    only: when the image does not load nothing settles the promise. *)
Definition mirrorFrame (b : Browser) (dataUrl : string) : Promise string :=
  match load b dataUrl with
  | None => Pending
  | Some img =>
      if getContext2d b
      then Resolved (toDataURL b {| canvas_width := width img;
                                    canvas_height := height img;
                                    painted := Mirrored img |} 0.8%Q)
      else Resolved dataUrl
  end.

(** ** The remote image service *)

Record InlineData := {
  mimeType : string;
  data : option string
}.

Inductive Part :=
| Text (text : string)
| Inline (inlineData : InlineData).

Record Content := { parts : option (list Part) }.
Record Candidate := { content : option Content }.
Record GenerateContentResponse := { candidates : option (list Candidate) }.

(** One user message and the image configuration. *)
Record GenerateContentRequest := {
  model : string;
  user_parts : list Part;
  aspectRatio : string
}.

(** The client library settles every call: with a response, or with an
    error. *)
Inductive Reply :=
| Answer (response : GenerateContentResponse)
| Failure (error : string).

Definition GoogleGenAI := GenerateContentRequest -> Reply.

Definition generateContent (ai : GoogleGenAI) (request : GenerateContentRequest)
    : Promise GenerateContentResponse :=
  match ai request with
  | Answer response => Resolved response
  | Failure e => Rejected e
  end.

Definition part_data (p : Part) : option string :=
  match p with
  | Inline d => data d
  | Text _ => None
  end.

(** ** Generation unit *)

Record SheetResult := {
  frames : list GeneratedFrame;
  sheetBase64 : option string
}.

Definition Qgtb (x y : Q) : bool := negb (Qle_bool x y).
Definition Qltb (x y : Q) : bool := negb (Qle_bool y x).

Definition is_CHARACTER (category : SubjectCategory) : bool :=
  match category with
  | CHARACTER => true
  | _ => false
  end.

Definition is_body (t : FrameType) : bool :=
  match t with
  | body => true
  | closeup => false
  end.

(** The callback of [rawFrames.map] in [generateSingleSheet]. *)
Definition processFrame (b : Browser) (role_ : SheetRole) (category : SubjectCategory)
    (cols : nat) (frameData : string) (i : nat) : Promise (list GeneratedFrame) :=
  let row := (i / cols)%nat in
  let energy_ :=
    if (row =? 0)%nat then low
    else if (row =? 1)%nat then mid
    else if (row =? 2)%nat then mid
    else if (row =? 3)%nat then high
    else mid in
  let type_ :=
    if (row =? 3)%nat && (is_CHARACTER category && Qgtb (random b role_ i) 0.6%Q)
    then closeup else body in
  let poseName0 := role_name role_ ++ "_" ++ of_nat i in
  let poseName1 :=
    if is_CHARACTER category && (row =? 1)%nat then poseName0 ++ "_left" else poseName0 in
  let poseName :=
    if is_CHARACTER category && (row =? 2)%nat then poseName1 ++ "_right" else poseName1 in
  let frame := {| url := frameData; pose := poseName; energy := energy_;
                  type := type_; role := Some role_ |} in
  if is_CHARACTER category && is_body type_ && ((row =? 1)%nat || (row =? 2)%nat)
  then
    await (mirrorFrame b frameData) (fun mirrored =>
      let mirrorSuffix := if includes poseName "left" then "right_mirror" else "left_mirror" in
      Resolved [frame;
                {| url := mirrored;
                   pose := replace_left_right poseName mirrorSuffix;
                   energy := energy_; type := type_; role := Some role_ |}])
  else Resolved [frame].

Definition first_image (ps : list Part) : option string :=
  match find (fun p => truthy (part_data p)) ps with
  | Some p => part_data p
  | None => None
  end.

(** The request [generateSingleSheet] sends. *)
Definition sheetRequest (role_ : SheetRole) (imageBase64 stylePrompt motionPrompt : string)
    (category : SubjectCategory) (styleReferenceBase64 : option string)
    : GenerateContentRequest :=
  let systemPrompt :=
    constructDynamicPrompt category role_ stylePrompt motionPrompt
    ++ (if truthy styleReferenceBase64 then consistencyInstruction role_ else EmptyString) in
  let reference :=
    match styleReferenceBase64 with
    | Some ref =>
        if truthy styleReferenceBase64
        then [Inline {| mimeType := "image/jpeg";
                        data := if includes ref "," then split_comma_1 ref else Some ref |}]
        else []
    | None => []
    end in
  {| model := "gemini-2.5-flash-image";
     user_parts := [Text systemPrompt;
                    Inline {| mimeType := "image/jpeg"; data := split_comma_1 imageBase64 |}]
                   ++ reference;
     aspectRatio := "1:1" |}.

(** The first component lists the requests the call has sent, the second is
    the promise it returns. *)
Definition generateSingleSheet (b : Browser) (ai : GoogleGenAI) (role_ : SheetRole)
    (imageBase64 stylePrompt motionPrompt : string) (category : SubjectCategory)
    (styleReferenceBase64 : option string)
    : list GenerateContentRequest * Promise SheetResult :=
  let rows := 4%nat in
  let cols := 4%nat in
  let request :=
    sheetRequest role_ imageBase64 stylePrompt motionPrompt category styleReferenceBase64 in
  ([request],
   try_catch
     (await (generateContent ai request) (fun response =>
        let candidate :=
          match candidates response with
          | Some (c :: _) => Some c
          | _ => None
          end in
        match candidate with
        | Some {| content := Some {| parts := Some ps |} |} =>
            match first_image ps with
            | Some spriteSheetBase64 =>
                if truthy (Some spriteSheetBase64) then
                  await (sliceSpriteSheet b ("data:image/jpeg;base64," ++ spriteSheetBase64)
                           rows cols) (fun rawFrames =>
                  await (JS.all (mapi (processFrame b role_ category cols) rawFrames))
                    (fun nestedFrames =>
                       Resolved {| frames := concat nestedFrames;
                                   sheetBase64 := Some spriteSheetBase64 |}))
                else Rejected "No image data in response"
            | None => Rejected "No image data in response"
            end
        | _ => Rejected "No content returned"
        end))
     (fun _ => Resolved {| frames := []; sheetBase64 := None |})).

(** ** Multi-sheet orchestration *)

(** What [generateDanceFrames] does that is visible from outside, in the
    order it does it: a request leaves for the remote service when
    [generateSingleSheet] is called, and the caller resumes behind an
    [await] once the sheets it waits for have settled. *)
Inductive Event :=
| Issued (role_ : SheetRole) (request : GenerateContentRequest)
| Awaited (roles : list SheetRole).

Definition resolveCategory (motionPrompt : string) (explicitCategory : option SubjectCategory)
    : SubjectCategory :=
  match explicitCategory with
  | Some c => c
  | None =>
      let low_ := toLowerCase motionPrompt in
      if includes low_ "text" || includes low_ "font" then TEXT
      else if includes low_ "logo" || includes low_ "icon" then SYMBOL
      else CHARACTER
  end.

(** [results.forEach(res => { if (res.frames.length > 0) allFrames = [...allFrames, ...res.frames] })] *)
Definition appendExpansion (allFrames : list GeneratedFrame) (results : list SheetResult)
    : list GeneratedFrame :=
  fold_left
    (fun acc res => if (0 <? length (frames res))%nat then (acc ++ frames res)%list else acc)
    results allFrames.

Definition returnFrames (allFrames : list GeneratedFrame) (category : SubjectCategory)
    : Promise (list GeneratedFrame * SubjectCategory) :=
  if (length allFrames =? 0)%nat
  then Rejected "Generation produced no valid frames."
  else Resolved (allFrames, category).

(** The guard behind the first [await]: the base sheet has frames and a
    sheet image. *)
Definition baseSucceeded (baseResult : SheetResult) : bool :=
  negb ((length (frames baseResult) =? 0)%nat || negb (truthy (sheetBase64 baseResult))).

(** The data URL of the base sheet, the style reference of the expansion. *)
Definition baseRef (baseResult : SheetResult) : string :=
  "data:image/jpeg;base64," ++ default EmptyString (sheetBase64 baseResult).

Definition generateDanceFrames (b : Browser) (ai : GoogleGenAI)
    (imageBase64 stylePrompt motionPrompt : string) (useTurbo superMode : bool)
    (explicitCategory : option SubjectCategory)
    : list Event * Promise (list GeneratedFrame * SubjectCategory) :=
  let category := resolveCategory motionPrompt explicitCategory in
  let sheet role_ ref :=
    generateSingleSheet b ai role_ imageBase64 stylePrompt motionPrompt category ref in
  let baseCall := sheet base None in
  let t1 := map (Issued base) (fst baseCall) in
  match snd baseCall with
  | Pending => (t1, Pending)
  | Rejected e => (t1, Rejected e)
  | Resolved baseResult =>
      let t2 := (t1 ++ [Awaited [base]])%list in
      let allFrames := frames baseResult in
      if negb (baseSucceeded baseResult)
      then (t2, Rejected "Base generation failed.")
      else
        let ref := Some (baseRef baseResult) in
        let expansion :=
          if superMode then [(alt, sheet alt ref); (flourish, sheet flourish ref)]
          else if negb useTurbo then [(alt, sheet alt ref)]
          else [] in
        let t3 :=
          (t2 ++ flat_map (fun call => map (Issued (fst call)) (fst (snd call))) expansion)%list in
        if (0 <? length expansion)%nat then
          match JS.all (map (fun call => snd (snd call)) expansion) with
          | Pending => (t3, Pending)
          | Rejected e => (t3, Rejected e)
          | Resolved results =>
              ((t3 ++ [Awaited (map fst expansion)])%list,
               returnFrames (appendExpansion allFrames results) category)
          end
        else (t3, returnFrames allFrames category)
  end.

(** The requests of a trace, in the order they were issued. *)
Definition requests (t : list Event) : list (SheetRole * GenerateContentRequest) :=
  flat_map (fun e => match e with
                     | Issued r q => [(r, q)]
                     | Awaited _ => []
                     end) t.

(** The reference image a request carries: the data of its third part. *)
Definition reference (q : GenerateContentRequest) : option string :=
  match nth_error (user_parts q) 2 with
  | Some p => part_data p
  | None => None
  end.

(** ** A browser and a service to run the definitions on *)

Module Sample.

Definition picture (s : string) : option Image :=
  if String.eqb s "data:image/jpeg;base64,SHEET1024" then
    Some {| src := s; width := 1024; height := 1024 |}
  else if String.eqb s "data:image/jpeg;base64,SHEET4" then
    Some {| src := s; width := 4; height := 4 |}
  else if String.eqb s "data:image/jpeg;base64,WIDE" then
    Some {| src := s; width := 1000; height := 600 |}
  else if String.prefix "jpeg:" s then
    Some {| src := s; width := 215; height := 215 |}
  else None.

Definition stamp (c : Canvas) (quality : Q) : string :=
  match painted c with
  | Cell img sx sy _ _ =>
      "jpeg:cell@" ++ of_nat (Z.to_nat (Qfloor sx)) ++ "," ++ of_nat (Z.to_nat (Qfloor sy))
  | Mirrored img => "jpeg:mirror(" ++ src img ++ ")"
  end.

Definition browser : Browser :=
  {| load := picture; getContext2d := true; encode := stamp;
     random := fun _ _ => 0%Q |}.

Definition browser_without_context : Browser :=
  {| load := picture; getContext2d := false; encode := stamp;
     random := fun _ _ => 0%Q |}.

Definition reply_with (payload : string) : Reply :=
  Answer {| candidates :=
    Some [ {| content := Some {| parts :=
      Some [Text "ok"; Inline {| mimeType := "image/jpeg"; data := Some payload |}] |} |} ] |}.

Definition has_reference (q : GenerateContentRequest) : bool :=
  (2 <? length (user_parts q))%nat.

(** every request is answered with a 1024x1024 sheet *)
Definition ai_ok : GoogleGenAI := fun _ => reply_with "SHEET1024".

(** the service is unreachable *)
Definition ai_down : GoogleGenAI := fun _ => Failure "503".

(** the first sheet is fine, a sheet asked for with a style reference comes
    back 4x4 pixels large *)
Definition ai_tiny_expansion : GoogleGenAI :=
  fun q => if has_reference q then reply_with "SHEET4" else reply_with "SHEET1024".

End Sample.

(** ** The preview ([Step4Preview]) *)

Module Step4Preview.

Local Open Scope Q_scope.

(** *** Frame pools *)

(** [Record<EnergyLevel, string[]>] *)
Definition Pools := EnergyLevel -> list string.

Definition noPools : Pools := fun _ => [].

(** [sorted[e].push(p)] *)
Definition push (sorted : Pools) (e : EnergyLevel) (p : string) : Pools :=
  fun e' => if decide (e' = e) then (sorted e' ++ [p])%list else sorted e'.

(** [sorted[e] = l] *)
Definition assign (sorted : Pools) (e : EnergyLevel) (l : list string) : Pools :=
  fun e' => if decide (e' = e) then l else sorted e'.

Definition framesToLoad (generatedFrames : list GeneratedFrame)
    (imagePreviewUrl : option string) : list GeneratedFrame :=
  if (0 <? length generatedFrames)%nat then generatedFrames
  else if truthy imagePreviewUrl
       then [ {| url := default EmptyString imagePreviewUrl; pose := "base";
                 energy := low; type := body; role := None |} ]
       else [].

(** The [forEach] that distributes the poses. *)
Definition distribute (toLoad : list GeneratedFrame) : Pools * list string :=
  fold_left
    (fun acc f =>
       match type f with
       | closeup => (fst acc, (snd acc ++ [pose f])%list)
       | body => (push (fst acc) (energy f) (pose f), snd acc)
       end)
    toLoad (noPools, []).

(** The three fallback statements that follow it. *)
Definition fallbacks (toLoad : list GeneratedFrame) (sorted : Pools) : Pools :=
  let sorted1 :=
    match toLoad with
    | f0 :: _ =>
        if (length (sorted low) =? 0)%nat && is_body (type f0)
        then push sorted low (pose f0) else sorted
    | [] => sorted
    end in
  let sorted2 :=
    if (length (sorted1 mid) =? 0)%nat then assign sorted1 mid (sorted1 low) else sorted1 in
  if (length (sorted2 high) =? 0)%nat then assign sorted2 high (sorted2 mid) else sorted2.

(** [framesByEnergy] and [closeupFrames] as the effect sets them. *)
Definition sortFrames (toLoad : list GeneratedFrame) : Pools * list string :=
  let d := distribute toLoad in
  (fallbacks toLoad (fst d), snd d).

(** *** Audio engine *)

(** The state the audio handlers read and write; a ref is [true] when it
    holds an object. *)
Record Audio := {
  isPlaying : bool;
  isMicActive : bool;
  audioPreviewUrl : option string;
  audioCtxRef : bool;
  analyserRef : bool;
  audioRef : bool;
  micStreamRef : bool
}.

Definition mounted (audioPreviewUrl0 : option string) : Audio :=
  {| isPlaying := false; isMicActive := false; audioPreviewUrl := audioPreviewUrl0;
     audioCtxRef := false; analyserRef := false; audioRef := false;
     micStreamRef := false |}.

Definition initAudioContext (a : Audio) : Audio :=
  if audioCtxRef a then a
  else {| isPlaying := isPlaying a; isMicActive := isMicActive a;
          audioPreviewUrl := audioPreviewUrl a;
          audioCtxRef := true; analyserRef := true;
          audioRef := audioRef a; micStreamRef := micStreamRef a |}.

Definition setIsPlaying (v : bool) (a : Audio) : Audio :=
  {| isPlaying := v; isMicActive := isMicActive a;
     audioPreviewUrl := audioPreviewUrl a;
     audioCtxRef := audioCtxRef a; analyserRef := analyserRef a;
     audioRef := audioRef a; micStreamRef := micStreamRef a |}.

Definition togglePlay (a0 : Audio) : Audio :=
  let a := initAudioContext a0 in
  if isMicActive a then setIsPlaying (negb (isPlaying a)) a
  else if truthy (audioPreviewUrl a)
       then setIsPlaying (negb (isPlaying a))
              {| isPlaying := isPlaying a; isMicActive := isMicActive a;
                 audioPreviewUrl := audioPreviewUrl a;
                 audioCtxRef := audioCtxRef a; analyserRef := analyserRef a;
                 audioRef := true; micStreamRef := micStreamRef a |}
       else setIsPlaying (negb (isPlaying a)) a.

(** [granted]: does [getUserMedia] resolve with a stream. *)
Definition toggleMic (granted : bool) (a0 : Audio) : Audio :=
  let a := initAudioContext a0 in
  if isMicActive a
  then {| isPlaying := isPlaying a; isMicActive := false;
          audioPreviewUrl := audioPreviewUrl a;
          audioCtxRef := audioCtxRef a; analyserRef := analyserRef a;
          audioRef := audioRef a; micStreamRef := false |}
  else if granted
       then {| isPlaying := true; isMicActive := true;
               audioPreviewUrl := audioPreviewUrl a;
               audioCtxRef := audioCtxRef a; analyserRef := analyserRef a;
               audioRef := audioRef a; micStreamRef := true |}
       else a.

(** The effect on [state.audioPreviewUrl], run when the soundtrack changes. *)
Definition audioChanged (url_ : option string) (a : Audio) : Audio :=
  {| isPlaying := false; isMicActive := isMicActive a;
     audioPreviewUrl := url_;
     audioCtxRef := audioCtxRef a; analyserRef := analyserRef a;
     audioRef := false; micStreamRef := micStreamRef a |}.

Inductive Action :=
| TogglePlay
| ToggleMic (granted : bool)
| AudioChanged (url_ : option string).

Definition act (a : Audio) (x : Action) : Audio :=
  match x with
  | TogglePlay => togglePlay a
  | ToggleMic granted => toggleMic granted a
  | AudioChanged u => audioChanged u a
  end.

(** The states the handlers can bring the component into. *)
Inductive reachable : Audio -> Prop :=
| reachable_mounted u : reachable (mounted u)
| reachable_act a x : reachable a -> reachable (act a x).

Record Bands := {
  bass : Q;
  mids : Q;
  highs : Q
}.

(** [dataArray.slice(from, to)] *)
Definition slice (from to : nat) (dataArray : list Z) : list Z :=
  firstn (to - from) (skipn from dataArray).

(** [.reduce((a, b) => a + b, 0)] *)
Definition sum (l : list Z) : Z := fold_left Z.add l 0%Z.

Definition analyserBands (dataArray : list Z) : Bands :=
  {| bass := inject_Z (sum (slice 0 8 dataArray)) / 8 / 255;
     mids := inject_Z (sum (slice 15 60 dataArray)) / 45 / 255;
     highs := inject_Z (sum (slice 100 200 dataArray)) / 100 / 255 |}.

(** [x % y] for a non-negative [x] and a positive [y] *)
Definition Qmod (x y : Q) : Q := x - y * inject_Z (Qfloor (x / y)).

(** [Math.max(x, y)] *)
Definition max (x y : Q) : Q := if Qle_bool x y then y else x.

(** The fallback clock; [rnd] is the value of [Math.random()]. *)
Definition fallbackClock (time rnd : Q) : Bands :=
  let bpm := 124 in
  let beatDur := 60 / bpm in
  let now := time / 1000 in
  let beatPos := Qmod now beatDur / beatDur in
  {| bass := Qpower (max 0 (1 - beatPos * 4)) 3%Z;
     mids := if Qgtb (Qmod now (beatDur * 2)) beatDur && Qltb beatPos 0.2 then 0.6 else 0;
     highs := rnd * 0.1 |}.

(** Step 1 of [animate]: the bands of one tick. *)
Definition audioAnalysis (a : Audio) (time : Q) (dataArray : list Z) (rnd : Q) : Bands :=
  if isPlaying a && analyserRef a then analyserBands dataArray
  else if isPlaying a && negb (truthy (audioPreviewUrl a)) && negb (isMicActive a)
       then fallbackClock time rnd
       else {| bass := 0; mids := 0; highs := 0 |}.

(** *** Choreography brain *)

Inductive TransitionMode := CUT | FLOW.
Inductive Direction := left | right.

Definition direction_name (d : Direction) : string :=
  match d with
  | left => "left"
  | right => "right"
  end.

Record BrainState := {
  intention : string;
  nextDir : string;
  confidence : Z;
  activePoseName : string
}.

(** The refs of the component, grouped by what they are about. *)
Record Rhythm := {
  lastSwitchTimeRef : Q;
  lastBeatTimeRef : Q;
  lastSnareTimeRef : Q;
  beatCounterRef : Z;
  burstModeUntilRef : Q
}.

Record Transition := {
  targetPoseRef : string;
  previousPoseRef : string;
  transitionStartRef : Q;
  transitionDurationRef : Q;
  transitionModeRef : TransitionMode;
  lastMoveDirectionRef : Direction
}.

Record Camera := {
  camZoomRef : Q;
  camShakeXRef : Q;
  camShakeYRef : Q;
  camPanXRef : Q;
  moireAmountRef : Q;
  tearAmountRef : Q;
  flashIntensityRef : Q
}.

Record Director := {
  rhythm : Rhythm;
  transition : Transition;
  camera : Camera;
  brainState : BrainState
}.

Definition director0 : Director :=
  {| rhythm := {| lastSwitchTimeRef := 0; lastBeatTimeRef := 0; lastSnareTimeRef := 0;
                  beatCounterRef := 0; burstModeUntilRef := 0 |};
     transition := {| targetPoseRef := "base"; previousPoseRef := "base";
                      transitionStartRef := 0; transitionDurationRef := 100;
                      transitionModeRef := CUT; lastMoveDirectionRef := right |};
     camera := {| camZoomRef := 1; camShakeXRef := 0; camShakeYRef := 0; camPanXRef := 0;
                  moireAmountRef := 0; tearAmountRef := 0; flashIntensityRef := 0 |};
     brainState := {| intention := "IDLE"; nextDir := "LEFT"; confidence := 0;
                      activePoseName := "BASE" |} |}.

(** What [animate] closes over. *)
Record Settings := {
  playing : bool;
  framesByEnergy : Pools;
  closeupFrames : list string;
  stutterChance : Q;
  superCamActive : bool
}.

(** The values of the calls of [Math.random()] a tick can make in its
    choreography step, by the place of the call. *)
Record Dice := {
  rnd_repeat : Q;
  rnd_closeup : Q;
  rnd_pose : Q;
  rnd_shakeX : Q;
  rnd_shakeY : Q;
  rnd_idle : Q;
  rnd_stutter : Q;
  rnd_burst : Q
}.

Record Tick := {
  time : Q;
  bands : Bands;
  dice : Dice
}.

(** [pool[Math.floor(Math.random() * pool.length)]]; [Math.random()] is in
    [0, 1), which keeps the index inside the pool. *)
Definition pick (pool : list string) (rnd : Q) : string :=
  nth (Z.to_nat (Qfloor (rnd * inject_Z (Z.of_nat (length pool))))) pool "undefined".

(** [Math.round] *)
Definition round (x : Q) : Z := Qfloor (x + 0.5).

Definition isBurst (t : Tick) (d : Director) : bool :=
  Qltb (time t) (burstModeUntilRef (rhythm d)).

Definition poseLockTime (t : Tick) (d : Director) : Q :=
  if isBurst t d then 60 else 150.

Definition canSwitch (t : Tick) (d : Director) : bool :=
  Qgtb (time t - lastSwitchTimeRef (rhythm d)) (poseLockTime t d).

Definition isBeatHit (t : Tick) (d : Director) : bool :=
  Qgtb (bass (bands t)) 0.35 && canSwitch t d.

Definition isSnare (t : Tick) : bool := Qgtb (mids (bands t)) 0.6.

Definition isIdle (t : Tick) (d : Director) : bool :=
  Qgtb (time t - lastBeatTimeRef (rhythm d)) 1500 && canSwitch t d
  && Qgtb (time t - lastSwitchTimeRef (rhythm d)) 1000.

Definition nonempty (l : list string) : bool := (0 <? length l)%nat.

(** A. Standard beat hit *)
Definition beatHit (s : Settings) (t : Tick) (d : Director) : Director :=
  let now := time t in
  let r := rhythm d in
  let tr := transition d in
  let beatCounter := ((beatCounterRef r + 1) mod 4)%Z in
  let isPatternCut := (beatCounter <? 2)%Z in
  let isHardHit := Qgtb (bass (bands t)) 0.8 in
  let nextDir_ :=
    if Qltb (rnd_repeat (dice t)) 0.3 then lastMoveDirectionRef tr
    else match lastMoveDirectionRef tr with
         | left => right
         | right => left
         end in
  let pool :=
    if (Qgtb (mids (bands t)) 0.6 || Qgtb (highs (bands t)) 0.6)
       && nonempty (closeupFrames s) && Qgtb (rnd_closeup (dice t)) 0.5
    then closeupFrames s
    else if isHardHit
         then (if nonempty (framesByEnergy s high) then framesByEnergy s high
               else framesByEnergy s mid)
         else (if nonempty (framesByEnergy s mid) then framesByEnergy s mid
               else framesByEnergy s low) in
  let dirPool :=
    List.filter (fun p => includes (toLowerCase p) (direction_name nextDir_)) pool in
  let finalPool := if nonempty dirPool then dirPool else pool in
  let nextPose := pick finalPool (rnd_pose (dice t)) in
  let newPose := nonempty finalPool && negb (String.eqb (targetPoseRef tr) nextPose) in
  let tr' :=
    if newPose
    then {| targetPoseRef := nextPose; previousPoseRef := targetPoseRef tr;
            transitionStartRef := now;
            transitionDurationRef := if isHardHit || isPatternCut then 0 else 240;
            transitionModeRef := if isHardHit || isPatternCut then CUT else FLOW;
            lastMoveDirectionRef := nextDir_ |}
    else tr in
  let brain' :=
    if newPose
    then {| intention := match transitionModeRef tr' with
                         | CUT => "IMPACT (CUT)"
                         | FLOW => "GLIDE (FLOW)"
                         end;
            nextDir := match nextDir_ with
                       | left => "RIGHT"
                       | right => "LEFT"
                       end;
            confidence := round (bass (bands t) * 100);
            activePoseName := nextPose |}
    else brainState d in
  let cam := camera d in
  let cam' :=
    if superCamActive s
    then
      let shakeAmt := if isHardHit then 15 else 5 in
      {| camZoomRef := match transitionModeRef tr' with
                       | CUT => if isHardHit then 1.15 else 1.05
                       | FLOW => camZoomRef cam
                       end;
         camShakeXRef := match transitionModeRef tr' with
                         | CUT => (rnd_shakeX (dice t) - 0.5) * shakeAmt
                         | FLOW => camShakeXRef cam
                         end;
         camShakeYRef := match transitionModeRef tr' with
                         | CUT => (rnd_shakeY (dice t) - 0.5) * shakeAmt
                         | FLOW => camShakeYRef cam
                         end;
         camPanXRef := match transitionModeRef tr' with
                       | CUT => camPanXRef cam
                       | FLOW => camPanXRef cam + match nextDir_ with
                                                  | left => -20
                                                  | right => 20
                                                  end
                       end;
         moireAmountRef := moireAmountRef cam;
         tearAmountRef := tearAmountRef cam;
         flashIntensityRef := if isHardHit then 0.8 else flashIntensityRef cam |}
    else cam in
  {| rhythm := {| lastSwitchTimeRef := now; lastBeatTimeRef := now;
                  lastSnareTimeRef := lastSnareTimeRef r;
                  beatCounterRef := beatCounter;
                  burstModeUntilRef := burstModeUntilRef r |};
     transition := tr'; camera := cam'; brainState := brain' |}.

(** B. Ambient / idle fallback *)
Definition idleFallback (s : Settings) (t : Tick) (d : Director) : Director :=
  let now := time t in
  let r := rhythm d in
  let tr := transition d in
  let pool := framesByEnergy s low in
  let nextPose := pick pool (rnd_idle (dice t)) in
  {| rhythm := {| lastSwitchTimeRef := now; lastBeatTimeRef := lastBeatTimeRef r;
                  lastSnareTimeRef := lastSnareTimeRef r;
                  beatCounterRef := beatCounterRef r;
                  burstModeUntilRef := burstModeUntilRef r |};
     transition :=
       if nonempty pool && negb (String.eqb (targetPoseRef tr) nextPose)
       then {| targetPoseRef := nextPose; previousPoseRef := targetPoseRef tr;
               transitionStartRef := now; transitionDurationRef := 800;
               transitionModeRef := FLOW;
               lastMoveDirectionRef := lastMoveDirectionRef tr |}
       else tr;
     camera := camera d; brainState := brainState d |}.

(** C. Snare logic *)
Definition snare (s : Settings) (t : Tick) (d : Director) : Director :=
  let now := time t in
  let r := rhythm d in
  let cam := camera d in
  {| rhythm := {| lastSwitchTimeRef := lastSwitchTimeRef r;
                  lastBeatTimeRef := lastBeatTimeRef r;
                  lastSnareTimeRef := now;
                  beatCounterRef := beatCounterRef r;
                  burstModeUntilRef :=
                    if Qltb (rnd_stutter (dice t) * 100) (stutterChance s)
                    then now + 400 else burstModeUntilRef r |};
     transition := transition d;
     camera := {| camZoomRef := camZoomRef cam; camShakeXRef := camShakeXRef cam;
                  camShakeYRef := camShakeYRef cam; camPanXRef := camPanXRef cam;
                  moireAmountRef := 1.2; tearAmountRef := tearAmountRef cam;
                  flashIntensityRef := flashIntensityRef cam |};
     brainState := brainState d |}.

(** The forced cut of burst mode. *)
Definition burstCut (s : Settings) (t : Tick) (d : Director) : Director :=
  let now := time t in
  let r := rhythm d in
  let tr := transition d in
  let pool :=
    if nonempty (framesByEnergy s high) then framesByEnergy s high
    else framesByEnergy s mid in
  {| rhythm := {| lastSwitchTimeRef := now; lastBeatTimeRef := lastBeatTimeRef r;
                  lastSnareTimeRef := lastSnareTimeRef r;
                  beatCounterRef := beatCounterRef r;
                  burstModeUntilRef := burstModeUntilRef r |};
     transition :=
       if nonempty pool
       then {| targetPoseRef := pick pool (rnd_burst (dice t));
               previousPoseRef := pick pool (rnd_burst (dice t));
               transitionStartRef := transitionStartRef tr;
               transitionDurationRef := 0; transitionModeRef := CUT;
               lastMoveDirectionRef := lastMoveDirectionRef tr |}
       else tr;
     camera := camera d; brainState := brainState d |}.

(** Step 2 of [animate]. The gate values [isBurst], [canSwitch],
    [isBeatHit] and [isSnare] are computed once, from the state the tick
    starts in. *)
Definition brain (s : Settings) (t : Tick) (d : Director) : Director :=
  if playing s then
    let d1 :=
      if isBeatHit t d then beatHit s t d
      else if isIdle t d then idleFallback s t d
      else d in
    let d2 :=
      if isSnare t && Qgtb (time t - lastSnareTimeRef (rhythm d1)) 800
      then snare s t d1 else d1 in
    if isBurst t d && canSwitch t d then burstCut s t d2 else d2
  else d.

(** The kinds of pose switch. *)
Inductive Switch := BeatSwitch | IdleSwitch | BurstSwitch.

(** The switches a tick performs, in the order it performs them. *)
Definition switches (s : Settings) (t : Tick) (d : Director) : list Switch :=
  if playing s then
    ((if isBeatHit t d then [BeatSwitch]
      else if isIdle t d then [IdleSwitch] else [])
     ++ (if isBurst t d && canSwitch t d then [BurstSwitch] else []))%list
  else [].

(** The director over a sequence of ticks: the state after them ... *)
Definition run (s : Settings) (ticks : list Tick) (d : Director) : Director :=
  fold_left (fun d t => brain s t d) ticks d.

(** ... and for every tick its time, whether burst mode was active in it,
    and the switches it performed. *)
Fixpoint switchLog (s : Settings) (ticks : list Tick) (d : Director)
    : list (Q * bool * list Switch) :=
  match ticks with
  | [] => []
  | t :: rest =>
      (time t, isBurst t d, switches s t d) :: switchLog s rest (brain s t d)
  end.

(** Every switch of a run by itself, in the order the switches are performed:
    the time of its tick, whether burst mode is active in the tick, and its
    kind. *)
Definition switchEvents (s : Settings) (ticks : list Tick) (d : Director)
    : list (Q * bool * Switch) :=
  flat_map (fun entry => map (fun kind => (fst entry, kind)) (snd entry))
    (switchLog s ticks d).

(** The animation callback is called with timestamps that do not decrease. *)
Fixpoint ascending (from : Q) (ticks : list Tick) : Prop :=
  match ticks with
  | [] => True
  | t :: rest => from <= time t /\ ascending (time t) rest
  end.

(** *** Assets *)

(** The pose map once every image has reported: a frame whose image loaded
    is stored under its pose, a frame whose image failed is not. (Images
    report in any order; the order matters only between frames that share a
    pose, and is taken to be the order of the list.) *)
Definition loadPoseImages (b : Browser) (toLoad : list GeneratedFrame) : gmap string Image :=
  fold_left
    (fun newMap f =>
       match load b (url f) with
       | Some img => <[pose f := img]> newMap
       | None => newMap
       end)
    toLoad ∅.

(** *** Rendering *)

Inductive Layer :=
| RedGhost
| BlueGhost
| Scanlines
| Main
| Slice (i : nat)
| Glow.

(** The calls on the drawing context that put pixels on the canvas, with the
    [globalAlpha] in force; placement and size are left out. *)
Inductive DrawOp :=
| drawImage (img : Image) (layer : Layer) (alpha : Q)
| fillRect (fillStyle : string) (alpha : Q).

(** [poseImagesRef.current[pose] || poseImagesRef.current['base']] *)
Definition bitmap (poseImages : gmap string Image) (pose_ : string) : option Image :=
  match poseImages !! pose_ with
  | Some img => Some img
  | None => poseImages !! "base"
  end.

Definition renderFrame (poseImages : gmap string Image) (cam : Camera)
    (superCam : bool) (pose_ : string) (opacity : Q) : list DrawOp :=
  if Qle_bool opacity 0.01 then []
  else
    match bitmap poseImages pose_ with
    | None => []
    | Some img =>
        let moire := moireAmountRef cam in
        let flash := flashIntensityRef cam in
        ((if superCam && Qgtb moire 0.05
          then [drawImage img RedGhost (0.8 * moire * opacity);
                fillRect "#ff0000" (0.8 * moire * opacity);
                drawImage img BlueGhost (0.8 * moire * opacity);
                fillRect "#0000ff" (0.8 * moire * opacity);
                drawImage img Scanlines opacity]
          else [])
         ++ (if Qgtb (tearAmountRef cam) 0.1
             then map (fun i => drawImage img (Slice i) opacity) (seq 0%nat 8%nat)
             else [drawImage img Main opacity])
         ++ (if superCam && Qgtb flash 0.05
             then fillRect "#ffeebb" (flash * opacity)
                  :: (if Qgtb flash 0.5
                      then [drawImage img Glow ((flash - 0.5) * opacity)]
                      else [])
             else []))%list
    end.

End Step4Preview.

(** A director to run: its pools, the values of its random calls, and four
    ticks. *)
Module DirectorSample.

Import Step4Preview.

Local Open Scope Q_scope.

Definition settings : Settings :=
  {| playing := true;
     framesByEnergy := fun e =>
       match e with
       | low => ["base_0"]
       | mid => ["base_4_left"; "base_8_right"]
       | high => ["base_12"; "base_13"]
       end;
     closeupFrames := [];
     stutterChance := 50;
     superCamActive := true |}.

Definition still : Dice :=
  {| rnd_repeat := 0.5; rnd_closeup := 0; rnd_pose := 0; rnd_shakeX := 0.5;
     rnd_shakeY := 0.5; rnd_idle := 0; rnd_stutter := 0; rnd_burst := 0.5 |}.

Definition tick (time_ bass_ mids_ : Q) : Tick :=
  {| time := time_; bands := {| bass := bass_; mids := mids_; highs := 0 |};
     dice := still |}.

(** a kick at 200 ms, a kick with a snare at 1100 ms (the stutter roll opens
    burst mode until 1500 ms), a kick at 1180 ms *)
Definition ticks : list Tick :=
  [tick 200 1 0; tick 300 0.9 0; tick 1100 1 0.7; tick 1180 0.5 0].

End DirectorSample.

(** ** The superseded version of the service

    [services/gemini.ts] also exists in a simpler version, without the
    [flourish] role and without a style reference. Its slicer and mirror
    utility are the ones above; its prompt, generation unit and
    orchestration differ and are given here. *)

Module Superseded.

Definition arch : string :=
  "
    ROLE: Professional 2D Game Asset Artist.
    TASK: Generate a 4x4 SPRITE SHEET (16 distinct frames) on a seamless WHITE background.

    [VISUAL STRUCTURE DIAGRAM]
    _______________________________________________________
    |             |             |             |             |
    |   [ P1 ]    |   [ P2 ]    |   [ P3 ]    |   [ P4 ]    |  <-- ROW 1: IDLE
    |_____________|_____________|_____________|_____________|
    |             |             |             |             |
    |   [ P5 ]    |   [ P6 ]    |   [ P7 ]    |   [ P8 ]    |  <-- ROW 2: LEFT
    |_____________|_____________|_____________|_____________|
    |             |             |             |             |
    |   [ P9 ]    |   [ P10 ]   |   [ P11 ]   |   [ P12 ]   |  <-- ROW 3: RIGHT
    |_____________|_____________|_____________|_____________|
    |             |             |             |             |
    |   [ P13 ]   |   [ P14 ]   |   [ P15 ]   |   [ P16 ]   |  <-- ROW 4: ACTION
    |_____________|_____________|_____________|_____________|

    STRICT GENERATION RULES:
    1. NO GRID LINES: The lines in the diagram above are for layout reference only. The final output must be 16 characters floating on a pure white background. NO DRAWN BORDERS.
    2. SAFETY MARGIN (PADDING): The subject (shown as [ Px ]) must be centered in its invisible cell with at least 20% white space padding on all sides.
    3. NO CLIPPING: Hands, feet, and hair must NEVER touch the edge of the imaginary grid cell. Scale the character down if necessary to fit dynamic poses.
    4. CONSISTENCY: Keep the character size and proportions identical across all 16 frames.
    ".

Definition choreography (category : SubjectCategory) : string :=
  match category with
  | CHARACTER =>
      "
        CHOREOGRAPHY PLAN:
        ROW 1 (Frames 1-4): IDLE & BREATHING.
           - Front-facing. Subtle movements. 
           - Feet planted firmly.
        ROW 2 (Frames 5-8): MOVING LEFT.
           - Stepping or leaning Left. 
           - Arms countering motion. Ensure limbs stay inside the cell padding.
        ROW 3 (Frames 9-12): MOVING RIGHT.
           - Stepping or leaning Right.
           - Arms countering motion. Ensure limbs stay inside the cell padding.
        ROW 4 (Frames 13-16): HIGH ENERGY / JUMP.
           - Power pose or Jump.
           - CRITICAL: If jumping, make the character smaller to ensure they don't hit the top of the grid cell.
        "
  | TEXT =>
      "
        KINETIC TYPE PLAN:
        ROW 1: Base Legible State. Clean.
        ROW 2: Skew/Italicize Left with Motion Blur lines.
        ROW 3: Skew/Italicize Right with Motion Blur lines.
        ROW 4: Heavy Distortion / Explosion / Glitch / Fragments.
        *IMPORTANT*: Keep text centered and contained within the grid cells.
        "
  | SYMBOL =>
      "
        ANIMATION PLAN:
        ROW 1: Base State (Pulse).
        ROW 2: Rotate Left (-30deg) with trail.
        ROW 3: Rotate Right (+30deg) with trail.
        ROW 4: Activation (Glow/Burst/High Contrast).
        *IMPORTANT*: Keep the symbol small enough to rotate without clipping the grid edges.
        "
  end.

Definition style (stylePrompt motionPrompt : string) : string :=
  "
    VISUAL STYLE: " ++ stylePrompt ++ ".
    CONTEXT: " ++ motionPrompt ++ ".
    IMPORTANT: Ensure consistent character features and FLAT, CLEAR LIGHTING across all 16 frames. 
    The goal is a production-ready sprite sheet that can be sliced automatically.
    ".

Definition constructDynamicPrompt (category : SubjectCategory) (role : SheetRole)
    (stylePrompt motionPrompt : string) : string :=
  arch ++ newline ++ choreography category ++ newline ++ style stylePrompt motionPrompt.

Definition sheetRequest (role_ : SheetRole) (imageBase64 stylePrompt motionPrompt : string)
    (category : SubjectCategory) : GenerateContentRequest :=
  {| model := "gemini-2.5-flash-image";
     user_parts := [Text (constructDynamicPrompt category role_ stylePrompt motionPrompt);
                    Inline {| mimeType := "image/jpeg"; data := split_comma_1 imageBase64 |}];
     aspectRatio := "1:1" |}.

(** The [for] loop over the raw frames, which awaits each mirror before it
    goes on. *)
Fixpoint processFrames (b : Browser) (role_ : SheetRole) (category : SubjectCategory)
    (cols : nat) (rawFrames : list string) (i : nat) : Promise (list GeneratedFrame) :=
  match rawFrames with
  | [] => Resolved []
  | frameData :: rest =>
      await (processFrame b role_ category cols frameData i) (fun pushed =>
      await (processFrames b role_ category cols rest (S i)) (fun more =>
        Resolved (pushed ++ more)%list))
  end.

Definition generateSingleSheet (b : Browser) (ai : GoogleGenAI) (role_ : SheetRole)
    (imageBase64 stylePrompt motionPrompt : string) (category : SubjectCategory)
    : list GenerateContentRequest * Promise (list GeneratedFrame) :=
  let rows := 4%nat in
  let cols := 4%nat in
  let request := sheetRequest role_ imageBase64 stylePrompt motionPrompt category in
  ([request],
   try_catch
     (await (generateContent ai request) (fun response =>
        match candidates response with
        | Some (candidate :: _) =>
            let spriteSheetBase64 :=
              match content candidate with
              | Some {| parts := Some ps |} => first_image ps
              | _ => None
              end in
            if truthy spriteSheetBase64 then
              await (sliceSpriteSheet b
                       ("data:image/jpeg;base64," ++ default EmptyString spriteSheetBase64)
                       rows cols)
                (fun rawFrames => processFrames b role_ category cols rawFrames 0)
            else Rejected "No image data in response"
        | _ => Rejected "No candidate returned"
        end))
     (fun _ => Resolved [])).

Definition generateDanceFrames (b : Browser) (ai : GoogleGenAI)
    (imageBase64 stylePrompt motionPrompt : string) (useTurbo superMode : bool)
    (explicitCategory : option SubjectCategory)
    : list Event * Promise (list GeneratedFrame * SubjectCategory) :=
  let category := resolveCategory motionPrompt explicitCategory in
  let sheet role_ :=
    generateSingleSheet b ai role_ imageBase64 stylePrompt motionPrompt category in
  let promises :=
    ((base, sheet base) :: (if superMode then [(alt, sheet alt)] else []))%list in
  let t1 := flat_map (fun call => map (Issued (fst call)) (fst (snd call))) promises in
  match JS.all (map (fun call => snd (snd call)) promises) with
  | Pending => (t1, Pending)
  | Rejected e => (t1, Rejected e)
  | Resolved results =>
      ((t1 ++ [Awaited (map fst promises)])%list,
       returnFrames (concat results) category)
  end.

End Superseded.

(** ** Encoding the subject image for upload *)

Module Upload.

Local Open Scope Q_scope.

(** A [File] the user picked, known by its name. An argument that is no
    [File] at all is [None]. *)
Record File := { fileName : string }.

(** How [reader.readAsDataURL(file)] ends: [onload] with a string result,
    [onload] with a result that is no string, or [onerror]. *)
Inductive ReadResult :=
| ReadString (result : string)
| ReadOther
| ReadError.

(** The canvas of [resizeImage]: the whole image drawn [drawnWidth] by
    [drawnHeight] at the origin of a canvas of the floored size. *)
Record Scaled := {
  scaledImage : Image;
  drawnWidth : Q;
  drawnHeight : Q;
  scaledWidth : Z;
  scaledHeight : Z
}.

Record Page := {
  browser : Browser;
  readAsDataURL : File -> ReadResult;
  (** [None]: [URL.createObjectURL] throws *)
  createObjectURL : File -> option string;
  (** [false]: [drawImage] or [toDataURL] throws for this canvas *)
  paints : Scaled -> bool;
  encodeScaled : Scaled -> Q -> string
}.

Definition fileToBase64 (p : Page) (file : option File) : Promise string :=
  match file with
  | None => Rejected "TypeError"
  | Some f =>
      match readAsDataURL p f with
      | ReadString result => Resolved result
      | ReadOther => Rejected "FileReader result was not a string"
      | ReadError => Rejected "File reading failed"
      end
  end.

(** The size [resizeImage] scales an image to, before it is floored, in
    exact arithmetic. The browser computes it in double precision:
    [UploadDouble.resizedSize_double] is that computation, and the two are
    compared side by side in the properties. *)
Definition resizedSize (width_ height_ maxDim : Q) : Q * Q :=
  if Qgtb width_ height_
  then (if Qgtb width_ maxDim then (maxDim, height_ * (maxDim / width_))
        else (width_, height_))
  else (if Qgtb height_ maxDim then (width_ * (maxDim / height_), maxDim)
        else (width_, height_)).

Definition resizeCanvas (img : Image) (maxDim : Q) : Scaled :=
  let size := resizedSize (inject_Z (width img)) (inject_Z (height img)) maxDim in
  {| scaledImage := img;
     drawnWidth := fst size;
     drawnHeight := snd size;
     scaledWidth := Qfloor (fst size);
     scaledHeight := Qfloor (snd size) |}.

(** [canvas.toDataURL('image/jpeg', quality)] for the canvas of
    [resizeImage]. *)
Definition scaledToDataURL (p : Page) (c : Scaled) (quality : Q) : string :=
  if (scaledWidth c <=? 0)%Z || (scaledHeight c <=? 0)%Z then "data:,"
  else encodeScaled p c quality.

Definition resizeImage (p : Page) (file : option File) (maxDim : Q) : Promise string :=
  match file with
  | None => Rejected "Invalid file"
  | Some f =>
      match createObjectURL p f with
      | None => fileToBase64 p file
      | Some url_ =>
          match load (browser p) url_ with
          | None => fileToBase64 p file
          | Some img =>
              let canvas := resizeCanvas img maxDim in
              if negb (getContext2d (browser p)) then fileToBase64 p file
              else if paints p canvas then Resolved (scaledToDataURL p canvas 0.8)
              else fileToBase64 p file
          end
      end
  end.

Definition fileToGenericBase64 (p : Page) (file : option File) : Promise string :=
  try_catch (resizeImage p file 384) (fun _ => fileToBase64 p file).

End Upload.

(** A page to run the upload on. *)
Module UploadSample.

Import Upload.

Definition photo : File := {| fileName := "photo.jpg" |}.
Definition banner : File := {| fileName := "banner.png" |}.
Definition broken : File := {| fileName := "broken.bin" |}.

Definition objectURL (f : File) : option string := Some ("blob:" ++ fileName f).

Definition decoded (s : string) : option Image :=
  if String.eqb s "blob:photo.jpg" then Some {| src := s; width := 1920; height := 1080 |}
  else if String.eqb s "blob:banner.png" then Some {| src := s; width := 2000; height := 4 |}
  else None.

Definition page : Page :=
  {| browser := {| load := decoded; getContext2d := true; encode := Sample.stamp;
                   random := fun _ _ => 0%Q |};
     readAsDataURL := fun f =>
       if String.eqb (fileName f) "broken.bin" then ReadError
       else ReadString ("data:application/octet-stream;base64," ++ fileName f);
     createObjectURL := objectURL;
     paints := fun _ => true;
     encodeScaled := fun c _ =>
       "data:image/jpeg;base64," ++ of_nat (Z.to_nat (scaledWidth c)) ++ "x"
       ++ of_nat (Z.to_nat (scaledHeight c)) |}.

End UploadSample.

(** ** The upload in double precision *)

Module UploadDouble.

Import Upload.


(** The number a side of an image is in JavaScript. *)
Definition double (z : Z) : float := PrimFloat.of_uint63 (Uint63.of_Z z).

(** The size [resizeImage] scales an image to as the browser computes it, in
    double precision, before it is floored. *)
Definition resizedSize_double (width_ height_ maxDim : float) : float * float :=
  if (height_ <? width_)%float
  then (if (maxDim <? width_)%float then (maxDim, height_ * (maxDim / width_))%float
        else (width_, height_))
  else (if (maxDim <? height_)%float then (width_ * (maxDim / height_), maxDim)%float
        else (width_, height_)).

(** [canvas.width] and [canvas.height] as the browser sets them. *)
Definition resizeCanvas_double (img : Image) (maxDim : Z) : Z * Z :=
  let size := resizedSize_double (double (width img)) (double (height img)) (double maxDim) in
  (floor_double (fst size), floor_double (snd size)).

(** *** Checking every size up to a bound

    A side as machine integer and as double, and the tests that compare the
    computation in doubles with the one in integers for one side, and for
    two sides of which the first is not the longer one. *)
Definition side (n : nat) : int * float :=
  let i := Uint63.of_Z (Z.of_nat n) in (i, PrimFloat.of_uint63 i).

Definition sides (N : nat) : list (int * float) := map side (seq 1 N).

Definition side_ok (w : int * float) : bool :=
  Bool.eqb (384 <? snd w)%float (384 <? fst w)%uint63
  && ordinary (snd w) && (floor_uint63 (snd w) =? fst w)%uint63.

Definition scaled_ok (s l : int * float) : bool :=
  let x := (snd s * (384 / snd l))%float in
  let e := (fst s * 384 / fst l)%uint63 in
  ordinary x
  && ((floor_uint63 x =? e)%uint63
      || ((0 <? e)%uint63 && (floor_uint63 x =? e - 1)%uint63
          && ((fst s * 384) mod fst l =? 0)%uint63)).

Definition pair_ok (s l : int * float) : bool :=
  Bool.eqb (snd s <? snd l)%float (fst s <? fst l)%uint63
  && Bool.eqb (snd l <? snd s)%float (fst l <? fst s)%uint63
  && (if (384 <? fst l)%uint63 then scaled_ok s l else true).

Fixpoint checked_from (smaller todo : list (int * float)) : bool :=
  match todo with
  | [] => true
  | l :: rest =>
      forallb (fun s => pair_ok s l) (l :: smaller) && checked_from (l :: smaller) rest
  end.

Definition resize_checked (N : nat) : bool :=
  forallb side_ok (sides N) && checked_from [] (sides N).

End UploadDouble.

(** ** Pose names of a sheet *)

(** The poses [processFrame] gives to the frames it makes of cell [i], as
    the source spells them: the frame itself and, for the directional rows
    of a CHARACTER sheet, its mirror. *)
Definition cellPoses (role_ : SheetRole) (category : SubjectCategory) (i : nat)
    : list string :=
  let row := (i / 4)%nat in
  let poseName0 := role_name role_ ++ "_" ++ of_nat i in
  if is_CHARACTER category && (row =? 1)%nat
  then [poseName0 ++ "_left"; poseName0 ++ "_right_mirror"]
  else if is_CHARACTER category && (row =? 2)%nat
       then [poseName0 ++ "_right"; poseName0 ++ "_left_mirror"]
       else [poseName0].

(** The poses of a whole sheet, in the order of its frames. *)
Definition sheetPoses (role_ : SheetRole) (category : SubjectCategory) : list string :=
  concat (map (cellPoses role_ category) (seq 0 16)).

(** The rectangle of the sheet a canvas of the slicer was drawn from:
    left, top, width, height. *)
Definition sourceRect (c : Canvas) : Q * Q * Q * Q :=
  match painted c with
  | Cell _ sx sy sw sh => (sx, sy, sw, sh)
  | Mirrored img => (0, 0, inject_Z (width img), inject_Z (height img))%Q
  end.
(** ** The rest of [animate]: physics, camera and the virtual frames

    Steps 3 and 4 of the render loop of [Step4Preview], and the loop as a
    whole. [Math.sin] is a parameter of the definitions; the character canvas
    and its context are taken to be there. *)

Module Animation.

Import Step4Preview.

Local Open Scope Q_scope.

(** [Math.min(x, y)] *)
Definition min (x y : Q) : Q := if Qle_bool x y then x else y.

(** [dt], in seconds and at most a tenth of one;
    [lastFrameTimeRef.current || time] reads [time] while the ref holds 0. *)
Definition frameDelta (time_ lastFrameTime : Q) : Q :=
  min ((time_ - (if Qeq_bool lastFrameTime 0 then time_ else lastFrameTime)) / 1000) 0.1.

(** Step 3 of [animate], on the sway phase and the camera refs. *)
Definition physics (sin : Q -> Q) (s : Settings) (dt bass_ : Q) (mode : TransitionMode)
    (swayPhase : Q) (cam : Camera) : Q * Camera :=
  let lerpSpeed := 6 * dt in
  if superCamActive s then
    let swayPhase' := swayPhase + dt * 0.5 in
    let sway := sin swayPhase' * 5 in
    let energyInfluence := min 1 (bass_ * 2) in
    let targetPanX := sway * (1 - energyInfluence) in
    let targetZoom :=
      match mode with
      | FLOW => if playing s then 1.05 else 1
      | CUT => 1
      end in
    (swayPhase',
     {| camZoomRef := camZoomRef cam + (targetZoom - camZoomRef cam) * (lerpSpeed * 0.5);
        camShakeXRef := camShakeXRef cam * (1 - lerpSpeed * 2);
        camShakeYRef := camShakeYRef cam * (1 - lerpSpeed * 2);
        camPanXRef := camPanXRef cam + (targetPanX - camPanXRef cam) * lerpSpeed;
        moireAmountRef := moireAmountRef cam * 0.85;
        tearAmountRef := tearAmountRef cam * 0.8;
        flashIntensityRef := flashIntensityRef cam * 0.85 |})
  else
    (swayPhase,
     {| camZoomRef := camZoomRef cam + (1 - camZoomRef cam) * 0.1;
        camShakeXRef := camShakeXRef cam * 0.9;
        camShakeYRef := camShakeYRef cam * 0.9;
        camPanXRef := camPanXRef cam * 0.9;
        moireAmountRef := moireAmountRef cam;
        tearAmountRef := tearAmountRef cam;
        flashIntensityRef := flashIntensityRef cam |}).

(** One call of [renderFrame(pose, opacity, offsetX)]. *)
Record VirtualFrame := {
  shown : string;
  opacity : Q;
  offsetX : Q
}.

(** The virtual frame interpolation: the calls of [renderFrame] of one
    tick, in order. *)
Definition virtualFrames (now : Q) (tr : Transition) : list VirtualFrame :=
  let duration := transitionDurationRef tr in
  let progress :=
    if Qgtb duration 0 then min 1 ((now - transitionStartRef tr) / duration) else 1 in
  if Qltb progress 1 then
    match transitionModeRef tr with
    | FLOW =>
        let ease := progress * progress * (3 - 2 * progress) in
        let flowDir := match lastMoveDirectionRef tr with
                       | left => -1
                       | right => 1
                       end in
        let slideDist := 40 in
        [ {| shown := previousPoseRef tr; opacity := 1 - ease;
             offsetX := (slideDist * ease) * flowDir |};
          {| shown := targetPoseRef tr; opacity := ease;
             offsetX := (- slideDist * (1 - ease)) * flowDir |} ]
    | CUT =>
        [ {| shown := previousPoseRef tr; opacity := 1 - progress; offsetX := 0 |};
          {| shown := targetPoseRef tr; opacity := progress; offsetX := 0 |} ]
    end
  else [ {| shown := targetPoseRef tr; opacity := 1; offsetX := 0 |} ].

(** The refs the loop keeps between two frames. *)
Record Stage := {
  director : Director;
  lastFrameTimeRef : Q;
  swayPhaseRef : Q
}.

Definition stage0 : Stage :=
  {| director := director0; lastFrameTimeRef := 0; swayPhaseRef := 0 |}.

(** One call of [animate]: the refs after it and what it drew. *)
Definition animate (sin : Q -> Q) (poseImages : gmap string Image) (s : Settings)
    (t : Tick) (st : Stage) : Stage * list DrawOp :=
  let dt := frameDelta (time t) (lastFrameTimeRef st) in
  let d := brain s t (director st) in
  let moved :=
    physics sin s dt (bass (bands t)) (transitionModeRef (transition d))
      (swayPhaseRef st) (camera d) in
  ({| director := {| rhythm := rhythm d; transition := transition d;
                     camera := snd moved; brainState := brainState d |};
      lastFrameTimeRef := time t;
      swayPhaseRef := fst moved |},
   flat_map (fun f => renderFrame poseImages (snd moved) (superCamActive s)
                        (shown f) (opacity f))
     (virtualFrames (time t) (transition d))).

(** The loop over a sequence of ticks: the refs after them and the drawing
    of every tick. *)
Fixpoint play (sin : Q -> Q) (poseImages : gmap string Image) (s : Settings)
    (ticks : list Tick) (st : Stage) : Stage * list (list DrawOp) :=
  match ticks with
  | [] => (st, [])
  | t :: rest =>
      let step := animate sin poseImages s t st in
      let later := play sin poseImages s rest (fst step) in
      (fst later, snd step :: snd later)
  end.

(** The sum of the opacities of the frames of one tick. *)
Definition totalOpacity (fs : list VirtualFrame) : Q :=
  fold_right (fun f acc => opacity f + acc) 0 fs.

End Animation.


(** * Properties *)

#[local] Arguments String.append !_ _ / : simpl nomatch.
Arguments sheetRequest : simpl never.
Arguments Superseded.sheetRequest : simpl never.

(** ** Promises *)

Lemma all_resolved {A : Type} (ps : list (Promise A)) (l : list A) :
  JS.all ps = Resolved l -> ps = map Resolved l.
Proof.
  revert l. induction ps as [|p ps IH]; intros l H; simpl in H.
  - injection H as <-. reflexivity.
  - destruct p as [a|e|]; destruct (JS.all ps) as [r|e'|]; try discriminate.
    injection H as <-. simpl. f_equal. apply IH. reflexivity.
Qed.

Lemma all_map_resolved {A : Type} (l : list A) :
  JS.all (map Resolved l) = Resolved l.
Proof.
  induction l as [|a l IH]; simpl; [reflexivity|]. rewrite IH. reflexivity.
Qed.

Lemma all_not_rejected {A : Type} (ps : list (Promise A)) :
  Forall (fun p => forall e, p <> Rejected e) ps -> forall e, JS.all ps <> Rejected e.
Proof.
  induction 1 as [|p ps Hp _ IH]; intros e; simpl; [discriminate|].
  destruct p as [a|e'|]; [| exfalso; apply (Hp e'); reflexivity |];
    destruct (JS.all ps) as [r|e''|] eqn:E; try discriminate;
    exfalso; apply (IH e''); reflexivity.
Qed.

Lemma mapi_from_nth_error {A B : Type} (f : A -> nat -> B) (l : list A) (k i : nat) :
  nth_error (mapi_from k f l) i = option_map (fun x => f x (k + i)%nat) (nth_error l i).
Proof.
  revert k i. induction l as [|x l IH]; intros k [|i]; simpl; try reflexivity.
  - rewrite Nat.add_0_r. reflexivity.
  - rewrite IH. rewrite Nat.add_succ_r. reflexivity.
Qed.

(** ** The generation unit *)

Lemma generateSingleSheet_requests b ai role_ img style_ motion category ref :
  fst (generateSingleSheet b ai role_ img style_ motion category ref)
  = [sheetRequest role_ img style_ motion category ref].
Proof. reflexivity. Qed.

(** A sheet call never rejects: the [catch] turns every error into an empty
    result. *)
Lemma generateSingleSheet_never_rejects b ai role_ img style_ motion category ref e :
  snd (generateSingleSheet b ai role_ img style_ motion category ref) <> Rejected e.
Proof.
  unfold generateSingleSheet. cbn [snd]. unfold try_catch.
  match goal with |- context [match ?body with _ => _ end] => destruct body end;
    discriminate.
Qed.

(** ** Orchestration *)

Lemma appendExpansion_prefix (results : list SheetResult) (allFrames : list GeneratedFrame) :
  exists more, appendExpansion allFrames results = (allFrames ++ more)%list.
Proof.
  unfold appendExpansion. revert allFrames.
  induction results as [|res results IH]; intros allFrames; simpl.
  - exists []. rewrite app_nil_r. reflexivity.
  - destruct (0 <? length (frames res))%nat.
    + destruct (IH (allFrames ++ frames res)%list) as [more ->].
      exists (frames res ++ more)%list. rewrite <- app_assoc. reflexivity.
    + apply IH.
Qed.

Section Orchestration.

Variables (b : Browser) (ai : GoogleGenAI).
Variables (imageBase64 stylePrompt motionPrompt : string).
Variable explicitCategory : option SubjectCategory.

Let category := resolveCategory motionPrompt explicitCategory.
Let request role_ ref :=
  sheetRequest role_ imageBase64 stylePrompt motionPrompt category ref.
Let sheet role_ ref :=
  snd (generateSingleSheet b ai role_ imageBase64 stylePrompt motionPrompt category ref).
Let dance useTurbo superMode :=
  generateDanceFrames b ai imageBase64 stylePrompt motionPrompt useTurbo superMode
    explicitCategory.

Lemma dance_base_failed useTurbo superMode r :
  sheet base None = Resolved r ->
  baseSucceeded r = false ->
  dance useTurbo superMode
  = ([Issued base (request base None); Awaited [base]], Rejected "Base generation failed.").
Proof.
  intros Hbase Hfail. unfold dance, generateDanceFrames.
  fold category. unfold sheet in Hbase. rewrite Hbase.
  rewrite Hfail. reflexivity.
Qed.

Lemma dance_base_succeeded useTurbo superMode r :
  sheet base None = Resolved r ->
  baseSucceeded r = true ->
  exists rest,
    requests rest = [] /\
    fst (dance useTurbo superMode)
    = ([Issued base (request base None); Awaited [base]]
       ++ (if superMode
           then [Issued alt (request alt (Some (baseRef r)));
                 Issued flourish (request flourish (Some (baseRef r)))]
           else if useTurbo then []
           else [Issued alt (request alt (Some (baseRef r)))])
       ++ rest)%list.
Proof.
  intros Hbase Hok. unfold dance, generateDanceFrames.
  fold category. unfold sheet in Hbase. rewrite Hbase, Hok.
  unfold request.
  destruct superMode; [| destruct useTurbo]; cbn [negb length Nat.ltb Nat.leb map fst snd].
  - match goal with |- context [JS.all ?l] => destruct (JS.all l) end;
      eexists; split; try reflexivity; reflexivity.
  - exists []. split; reflexivity.
  - match goal with |- context [JS.all ?l] => destruct (JS.all l) end;
      eexists; split; try reflexivity; reflexivity.
Qed.

End Orchestration.

Lemma append_cons (c : ascii) (s t : string) :
  (String c s ++ t)%string = String c (s ++ t)%string.
Proof. reflexivity. Qed.

Lemma append_empty_r (s : string) : (s ++ EmptyString)%string = s.
Proof.
  induction s as [|c s IH]; [reflexivity | rewrite append_cons, IH; reflexivity].
Qed.

Lemma append_assoc (s1 s2 s3 : string) :
  ((s1 ++ s2) ++ s3)%string = (s1 ++ (s2 ++ s3))%string.
Proof.
  induction s1 as [|c s1 IH]; [reflexivity | rewrite !append_cons, IH; reflexivity].
Qed.

Lemma includes_comma_cons c s :
  includes (String c s) "," = Ascii.eqb c "," || includes s ",".
Proof.
  cbn [includes String.prefix]. f_equal.
  destruct (ascii_dec "," c) as [<-|Hne].
  - destruct s; reflexivity.
  - symmetry. apply Ascii.eqb_neq. congruence.
Qed.

Lemma split_aux_no_separator s acc :
  includes s "," = false -> split_aux "," acc s = [(acc ++ s)%string].
Proof.
  revert acc. induction s as [|c s IH]; intros acc H.
  - cbn [split_aux]. rewrite append_empty_r. reflexivity.
  - rewrite includes_comma_cons in H. apply orb_false_iff in H as [Hc Hs].
    cbn [split_aux]. rewrite Hc. rewrite (IH _ Hs), append_assoc. reflexivity.
Qed.

(** A payload without a comma (base64 has none) travels unchanged from the
    data URL of the base sheet into the request. *)
Lemma sheetRequest_reference role_ img style_ motion category payload :
  includes payload "," = false ->
  reference (sheetRequest role_ img style_ motion category
               (Some ("data:image/jpeg;base64," ++ payload)))
  = Some payload.
Proof.
  intros H. unfold reference, sheetRequest.
  cbn [truthy String.eqb append negb user_parts app nth_error part_data data].
  repeat (rewrite includes_comma_cons; cbn [Ascii.eqb Bool.eqb orb]).
  unfold split_comma_1, split. cbn [append split_aux Ascii.eqb Bool.eqb].
  rewrite (split_aux_no_separator _ _ H). reflexivity.
Qed.

(** C1 as the specification states it fails: in quality mode, a base sheet
    that cannot be generated leaves the call with one request, not two. *)
Lemma quality_mode_single_request_when_base_fails :
  let call := generateDanceFrames Sample.browser Sample.ai_down
                "data:image/png;base64,AAAA" "anime" "dance" false false None in
  length (requests (fst call)) = 1%nat /\ length (requests (fst call)) <> 2%nat.
Proof. vm_compute. split; [reflexivity | discriminate]. Qed.

(** C1 (amended). When the base sheet yields at least one frame and a sheet
    image, the call issues the base request, resumes behind its [await], and
    only then issues: nothing more with the turbo flag set and the super flag
    clear (1 request); the alt request with both flags clear (2 requests);
    the alt and the flourish request, one directly after the other and before
    either is awaited, with the super flag set (3 requests). The expansion
    requests are built from the data URL of the base sheet as style
    reference, and carry its payload. *)
Theorem generateDanceFrames_requests b ai img style_ motion useTurbo superMode explicit r :
  let category := resolveCategory motion explicit in
  let request role_ ref := sheetRequest role_ img style_ motion category ref in
  let trace := fst (generateDanceFrames b ai img style_ motion useTurbo superMode explicit) in
  snd (generateSingleSheet b ai base img style_ motion category None) = Resolved r ->
  frames r <> [] ->
  truthy (sheetBase64 r) = true ->
  (exists rest,
     trace = ([Issued base (request base None); Awaited [base]]
              ++ (if superMode
                  then [Issued alt (request alt (Some (baseRef r)));
                        Issued flourish (request flourish (Some (baseRef r)))]
                  else if useTurbo then []
                  else [Issued alt (request alt (Some (baseRef r)))])
              ++ rest)%list
     /\ requests rest = [])
  /\ length (requests trace) = (if superMode then 3 else if useTurbo then 1 else 2)%nat
  /\ (forall role_ payload,
        sheetBase64 r = Some payload -> includes payload "," = false ->
        reference (request role_ (Some (baseRef r))) = Some payload).
Proof.
  intros category request trace Hbase Hframes Hsheet.
  assert (Hok : baseSucceeded r = true).
  { unfold baseSucceeded. rewrite Hsheet. destruct (frames r); [congruence | reflexivity]. }
  destruct (dance_base_succeeded b ai img style_ motion explicit useTurbo superMode r Hbase Hok)
    as [rest [Hrest Htrace]].
  split; [| split].
  - exists rest. split; [exact Htrace | exact Hrest].
  - unfold trace. rewrite Htrace. unfold requests in *.
    rewrite !flat_map_app, !length_app, Hrest.
    destruct superMode, useTurbo; reflexivity.
  - intros role_ payload Hp Hc. unfold request, baseRef. rewrite Hp.
    apply sheetRequest_reference. exact Hc.
Qed.

Lemma generateDanceFrames_requests_witness :
  exists r rest,
    snd (generateSingleSheet Sample.browser Sample.ai_ok base "data:image/png;base64,AAAA"
           "anime" "dance" CHARACTER None) = Resolved r
    /\ fst (generateDanceFrames Sample.browser Sample.ai_ok "data:image/png;base64,AAAA"
              "anime" "dance" false true None)
       = ([Issued base (sheetRequest base "data:image/png;base64,AAAA" "anime" "dance"
                          CHARACTER None);
           Awaited [base];
           Issued alt (sheetRequest alt "data:image/png;base64,AAAA" "anime" "dance"
                         CHARACTER (Some (baseRef r)));
           Issued flourish (sheetRequest flourish "data:image/png;base64,AAAA" "anime"
                              "dance" CHARACTER (Some (baseRef r)))] ++ rest)%list.
Proof.
  destruct (snd (generateSingleSheet Sample.browser Sample.ai_ok base
                   "data:image/png;base64,AAAA" "anime" "dance" CHARACTER None))
    as [r| |] eqn:E; [| vm_compute in E; discriminate ..].
  assert (Hf : frames r <> []).
  { vm_compute in E. injection E as <-. discriminate. }
  assert (Hs : truthy (sheetBase64 r) = true).
  { vm_compute in E. injection E as <-. reflexivity. }
  destruct (generateDanceFrames_requests Sample.browser Sample.ai_ok
              "data:image/png;base64,AAAA" "anime" "dance" false true None r E Hf Hs)
    as [[rest [Htrace _]] _].
  exists r, rest. split; [reflexivity | exact Htrace].
Defined.

(** C2. In every mode, a base sheet that yields no frame or no sheet image
    fails the call with the base-generation error, and the base request is
    the only one that was issued. *)
Theorem base_failure_fails_the_call b ai img style_ motion useTurbo superMode explicit r :
  let category := resolveCategory motion explicit in
  let call := generateDanceFrames b ai img style_ motion useTurbo superMode explicit in
  snd (generateSingleSheet b ai base img style_ motion category None) = Resolved r ->
  frames r = [] \/ truthy (sheetBase64 r) = false ->
  snd call = Rejected "Base generation failed."
  /\ requests (fst call) = [(base, sheetRequest base img style_ motion category None)].
Proof.
  intros category call Hbase Hfail.
  assert (Hko : baseSucceeded r = false).
  { unfold baseSucceeded. destruct Hfail as [-> | ->]; [reflexivity |].
    rewrite orb_true_r. reflexivity. }
  unfold call.
  rewrite (dance_base_failed b ai img style_ motion explicit useTurbo superMode r Hbase Hko).
  split; reflexivity.
Qed.

Lemma base_failure_fails_the_call_witness :
  snd (generateDanceFrames Sample.browser Sample.ai_down "data:image/png;base64,AAAA"
         "anime" "dance" false true None)
  = Rejected "Base generation failed."
  /\ requests (fst (generateDanceFrames Sample.browser Sample.ai_down
                      "data:image/png;base64,AAAA" "anime" "dance" false true None))
     = [(base, sheetRequest base "data:image/png;base64,AAAA" "anime" "dance"
                 CHARACTER None)].
Proof.
  apply (base_failure_fails_the_call Sample.browser Sample.ai_down
           "data:image/png;base64,AAAA" "anime" "dance" false true None
           {| frames := []; sheetBase64 := None |}).
  - reflexivity.
  - left. reflexivity.
Defined.

(** ** The slicer *)

Local Open Scope Q_scope.

Lemma sliceCell_geometry img r c :
  let size := inject_Z (Z.min (width img) (height img)) in
  let cell := size / 4 in
  exists sx sy sw sh,
    sliceCell img 4 4 r c
    = {| canvas_width := Qfloor (cell * (1 - 2 * insetFactor));
         canvas_height := Qfloor (cell * (1 - 2 * insetFactor));
         painted := Cell img sx sy sw sh |}
    /\ sx == (inject_Z (width img) - size) / 2 + inject_Z (Z.of_nat c) * cell + 0.08 * cell
    /\ sy == (inject_Z (height img) - size) / 2 + inject_Z (Z.of_nat r) * cell + 0.08 * cell
    /\ sw == 0.84 * cell
    /\ sh == 0.84 * cell.
Proof.
  intros size cell. unfold sliceCell. do 4 eexists.
  split; [reflexivity |].
  change (inject_Z (Z.of_nat 4)) with 4. fold size. unfold cell, insetFactor.
  repeat split; field.
Qed.

Lemma floor_within_one_pixel (x : Q) :
  x - 1 < inject_Z (Qfloor x) /\ inject_Z (Qfloor x) <= x.
Proof.
  split; [| apply Qfloor_le].
  pose proof (Qlt_floor x) as H. rewrite inject_Z_plus in H.
  change (inject_Z 1) with 1 in H. lra.
Qed.

Lemma sliceCells_row_major img r c :
  (r < 4)%nat -> (c < 4)%nat ->
  nth_error (sliceCells img 4 4) (r * 4 + c) = Some (sliceCell img 4 4 r c).
Proof.
  intros Hr Hc.
  do 4 (destruct r as [|r]; [do 4 (destruct c as [|c]; [reflexivity |]); lia |]).
  lia.
Qed.

(** C3 as the specification states it fails: a decoded sheet is not sliced
    when the canvas gives no drawing context. *)
Lemma slice_rejected_without_context :
  Sample.picture "data:image/jpeg;base64,SHEET1024"
  = Some {| src := "data:image/jpeg;base64,SHEET1024"; width := 1024; height := 1024 |}
  /\ sliceSpriteSheet Sample.browser_without_context "data:image/jpeg;base64,SHEET1024" 4 4
     = Rejected "Canvas context failed".
Proof. split; reflexivity. Qed.

(** C3 (amended). For every decoded sheet image for which the canvas gives a
    drawing context, slicing with a 4x4 grid resolves with exactly 16
    frames; the frame at index [r * 4 + c] is the JPEG (quality 0.95) of the
    canvas that holds the cell of row [r] and column [c] of the largest
    centred square, cut with an inset of 8% of the cell on every side, and
    the canvas is floor(0.84 * (min(width, height) / 4)) pixels wide and
    high, less than one pixel below 0.84 * (min(width, height) / 4). *)
Theorem sliceSpriteSheet_grid b base64Image img :
  load b base64Image = Some img ->
  getContext2d b = true ->
  let size := inject_Z (Z.min (width img) (height img)) in
  let cell := size / 4 in
  exists frames_,
    sliceSpriteSheet b base64Image 4 4 = Resolved frames_
    /\ length frames_ = 16%nat
    /\ forall r c, (r < 4)%nat -> (c < 4)%nat ->
       exists canvas sx sy sw sh,
         nth_error frames_ (r * 4 + c) = Some (toDataURL b canvas 0.95)
         /\ painted canvas = Cell img sx sy sw sh
         /\ sx == (inject_Z (width img) - size) / 2 + inject_Z (Z.of_nat c) * cell + 0.08 * cell
         /\ sy == (inject_Z (height img) - size) / 2 + inject_Z (Z.of_nat r) * cell + 0.08 * cell
         /\ sw == 0.84 * cell
         /\ sh == 0.84 * cell
         /\ canvas_width canvas = Qfloor (0.84 * cell)
         /\ canvas_height canvas = Qfloor (0.84 * cell)
         /\ 0.84 * cell - 1 < inject_Z (canvas_width canvas) <= 0.84 * cell
         /\ 0.84 * cell - 1 < inject_Z (canvas_height canvas) <= 0.84 * cell.
Proof.
  intros Hload Hctx size cell. unfold sliceSpriteSheet. rewrite Hload, Hctx.
  eexists. split; [reflexivity |]. split; [reflexivity |].
  intros r c Hr Hc.
  destruct (sliceCell_geometry img r c) as (sx & sy & sw & sh & Hcell & Hsx & Hsy & Hsw & Hsh).
  fold size in Hcell, Hsx, Hsy, Hsw, Hsh. fold cell in Hcell, Hsx, Hsy, Hsw, Hsh.
  assert (Hfloor : Qfloor (cell * (1 - 2 * insetFactor)) = Qfloor (0.84 * cell)).
  { apply Qfloor_comp. unfold insetFactor. ring. }
  exists (sliceCell img 4 4 r c), sx, sy, sw, sh.
  split.
  { rewrite nth_error_map, (sliceCells_row_major img r c Hr Hc). reflexivity. }
  rewrite Hcell. cbn [painted canvas_width canvas_height]. rewrite Hfloor.
  pose proof (floor_within_one_pixel (0.84 * cell)) as Hpx.
  repeat split; try assumption; try reflexivity; apply Hpx.
Qed.

Lemma sliceSpriteSheet_grid_witness :
  exists frames_,
    sliceSpriteSheet Sample.browser "data:image/jpeg;base64,WIDE" 4 4 = Resolved frames_
    /\ length frames_ = 16%nat.
Proof.
  destruct (sliceSpriteSheet_grid Sample.browser "data:image/jpeg;base64,WIDE"
              {| src := "data:image/jpeg;base64,WIDE"; width := 1000; height := 600 |}
              eq_refl eq_refl) as (frames_ & Hslice & Hlen & _).
  exists frames_. split; assumption.
Defined.

Local Close Scope Q_scope.

(** ** Tagging and mirroring *)

Lemma sliceSpriteSheet_16 b base64Image rawFrames :
  sliceSpriteSheet b base64Image 4 4 = Resolved rawFrames -> length rawFrames = 16%nat.
Proof.
  unfold sliceSpriteSheet. destruct (load b base64Image); [| discriminate].
  destruct (getContext2d b); [| discriminate].
  intros H. injection H as <-. reflexivity.
Qed.

(** What a sheet call that returns a sheet image has gone through. *)
Lemma generateSingleSheet_success b ai role_ img style_ motion category ref r payload :
  snd (generateSingleSheet b ai role_ img style_ motion category ref) = Resolved r ->
  sheetBase64 r = Some payload ->
  exists rawFrames nestedFrames,
    sliceSpriteSheet b ("data:image/jpeg;base64," ++ payload) 4 4 = Resolved rawFrames
    /\ JS.all (mapi (processFrame b role_ category 4) rawFrames) = Resolved nestedFrames
    /\ frames r = concat nestedFrames.
Proof.
  unfold generateSingleSheet. cbn [snd]. unfold generateContent.
  destruct (ai _) as [response | e]; cbn [await try_catch].
  2:{ intros H. injection H as <-. discriminate. }
  destruct (candidates response) as [[| [[[[ps |]] |]] ?] |]; cbn [try_catch];
    try (intros H; injection H as <-; discriminate).
  destruct (first_image ps) as [sheet_ |]; cbn [try_catch];
    try (intros H; injection H as <-; discriminate).
  destruct (truthy (Some sheet_)); cbn [try_catch];
    try (intros H; injection H as <-; discriminate).
  destruct (sliceSpriteSheet b _ 4 4) as [rawFrames | e |] eqn:Hslice; cbn [await try_catch];
    try (intros H; injection H as <-; discriminate); try discriminate.
  destruct (JS.all _) as [nestedFrames | e |] eqn:Hall; cbn [await try_catch];
    try (intros H; injection H as <-; discriminate); try discriminate.
  intros H Hp. injection H as <-. cbn [sheetBase64] in Hp. injection Hp as ->.
  exists rawFrames, nestedFrames. repeat split; assumption.
Qed.

Ltac tagging_done :=
  cbn [url pose energy type role];
  repeat match goal with
         | |- _ /\ _ => split
         | |- _ -> _ => intro
         | |- exists _, _ => eexists
         | H : _ \/ _ |- _ => destruct H
         end;
  first [reflexivity | lia | discriminate].

Lemma processFrame_tagging b role_ category frameData i group :
  (i < 16)%nat ->
  processFrame b role_ category 4 frameData i = Resolved group ->
  let row := (i / 4)%nat in
  let name := role_name role_ ++ "_" ++ of_nat i in
  exists f rest,
    group = f :: rest
    /\ url f = frameData
    /\ role f = Some role_
    /\ (row = 0%nat -> energy f = low)
    /\ (row = 1%nat \/ row = 2%nat -> energy f = mid)
    /\ (row = 3%nat -> energy f = high)
    /\ (type f = closeup -> row = 3%nat /\ category = CHARACTER)
    /\ (if is_CHARACTER category && ((row =? 1)%nat || (row =? 2)%nat)
        then type f = body
             /\ pose f = name ++ (if (row =? 1)%nat then "_left" else "_right")
             /\ exists mirrored,
                  rest = [mirrored]
                  /\ mirrorFrame b frameData = Resolved (url mirrored)
                  /\ pose mirrored
                     = name ++ (if (row =? 1)%nat then "_right_mirror" else "_left_mirror")
                  /\ energy mirrored = energy f
                  /\ type mirrored = type f
                  /\ role mirrored = role f
        else rest = []).
Proof.
  intros Hi. unfold processFrame.
  do 16 (destruct i as [|i];
         [ destruct role_, category; cbn -[mirrorFrame Qgtb];
           try destruct (Qgtb _ _); cbn -[mirrorFrame];
           try destruct (mirrorFrame b frameData) as [mirrored | |]; cbn;
           intros H; try discriminate; injection H as <-;
           do 2 eexists; (split; [reflexivity |]); tagging_done
         |]).
  lia.
Qed.




(** The first frame of a generated sheet is the low-energy body frame of
    cell 0. *)
Lemma generated_sheet_starts_with_body b ai role_ img style_ motion category ref r payload :
  snd (generateSingleSheet b ai role_ img style_ motion category ref) = Resolved r ->
  sheetBase64 r = Some payload ->
  exists f rest, frames r = f :: rest /\ type f = body /\ energy f = low.
Proof.
  intros Hcall Hsheet.
  destruct (generateSingleSheet_success _ _ _ _ _ _ _ _ _ _ Hcall Hsheet)
    as (rawFrames & groups & Hslice & Hall & Hframes).
  pose proof (sliceSpriteSheet_16 _ _ _ Hslice) as Hlen.
  destruct rawFrames as [| frameData rawFrames]; [discriminate Hlen |].
  apply all_resolved in Hall. unfold mapi in Hall. cbn [mapi_from] in Hall.
  destruct groups as [| group groups]; [discriminate Hall |].
  cbn [map] in Hall. injection Hall as Hgroup _.
  destruct (processFrame_tagging b role_ category frameData 0 group ltac:(lia) Hgroup)
    as (f & rest & -> & _ & _ & Hlow & _ & _ & Hcloseup & _).
  exists f, (rest ++ concat groups)%list. rewrite Hframes.
  split; [reflexivity |]. split.
  - destruct (type f) eqn:Ht; [reflexivity |].
    destruct (Hcloseup eq_refl) as [Hrow _]. discriminate Hrow.
  - apply Hlow. reflexivity.
Qed.

(** ** Frame pools of the preview *)

Import Step4Preview.

Lemma push_same sorted e p : push sorted e p e <> [].
Proof.
  unfold push. destruct (decide (e = e)) as [_ | Hne]; [| congruence].
  destruct (sorted e); discriminate.
Qed.

Lemma push_keeps sorted e p e' : sorted e' <> [] -> push sorted e p e' <> [].
Proof.
  unfold push. intros H. destruct (decide (e' = e)); [| exact H].
  destruct (sorted e'); [congruence | discriminate].
Qed.

(** A pool that holds a pose keeps holding one for the rest of the
    distribution, and a low-energy body frame puts one into the low pool. *)
Lemma distribute_low (toLoad : list GeneratedFrame) (acc : Pools * list string) :
  fst acc low <> [] \/ (exists f, In f toLoad /\ type f = body /\ energy f = low) ->
  fst (fold_left
         (fun acc f =>
            match type f with
            | closeup => (fst acc, (snd acc ++ [pose f])%list)
            | body => (push (fst acc) (energy f) (pose f), snd acc)
            end) toLoad acc) low <> [].
Proof.
  revert acc. induction toLoad as [| f toLoad IH]; intros acc H; cbn [fold_left].
  - destruct H as [H | (f & [] & _)]. exact H.
  - apply IH. destruct H as [H | (f' & [<- | Hin] & Hbody & Hlow)].
    + left. destruct (type f); cbn [fst]; [apply push_keeps |]; exact H.
    + left. rewrite Hbody, Hlow. cbn [fst]. apply push_same.
    + right. exists f'. repeat split; assumption.
Qed.

Lemma length_zero_nonempty {A : Type} (l : list A) :
  (length l =? 0)%nat = false <-> l <> [].
Proof. destruct l; cbn; split; congruence. Qed.

Lemma fallbacks_fill (toLoad : list GeneratedFrame) (sorted : Pools) :
  sorted low <> [] \/ (exists f0 rest, toLoad = f0 :: rest /\ type f0 = body) ->
  let pools := fallbacks toLoad sorted in
  pools low <> [] /\ pools mid <> [] /\ pools high <> [].
Proof.
  intros H. unfold fallbacks.
  set (sorted1 := match toLoad with
                  | [] => sorted
                  | f0 :: _ =>
                      if (length (sorted low) =? 0)%nat && is_body (type f0)
                      then push sorted low (pose f0) else sorted
                  end).
  assert (H1 : sorted1 low <> []).
  { unfold sorted1. destruct H as [H | (f0 & rest & -> & Hbody)].
    - destruct toLoad as [| f0 rest]; [exact H |].
      apply length_zero_nonempty in H. rewrite H. exact (proj1 (length_zero_nonempty _) H).
    - rewrite Hbody. cbn [is_body]. rewrite andb_true_r.
      destruct (length (sorted low) =? 0)%nat eqn:E; [apply push_same |].
      apply length_zero_nonempty. exact E. }
  clearbody sorted1.
  set (sorted2 := if (length (sorted1 mid) =? 0)%nat
                  then assign sorted1 mid (sorted1 low) else sorted1).
  assert (H2 : sorted2 low <> [] /\ sorted2 mid <> []).
  { unfold sorted2. destruct (length (sorted1 mid) =? 0)%nat eqn:E.
    - unfold assign. cbn. split; exact H1.
    - split; [exact H1 | apply length_zero_nonempty; exact E]. }
  clearbody sorted2. destruct H2 as [H2l H2m].
  cbv zeta. destruct (length (sorted2 high) =? 0)%nat eqn:E.
  - unfold assign. cbn. repeat split; assumption.
  - repeat split; try assumption. apply length_zero_nonempty. exact E.
Qed.

(** C5 as the specification states it fails: a list that starts with a
    closeup and has no low-energy body frame leaves the low pool empty. *)
Lemma low_pool_empty_behind_a_closeup :
  let generatedFrames :=
    [ {| url := "u12"; pose := "base_12"; energy := high; type := closeup;
         role := Some base |};
      {| url := "u4"; pose := "base_4_left"; energy := mid; type := body;
         role := Some base |} ] in
  let toLoad := framesToLoad generatedFrames None in
  toLoad <> [] /\ fst (sortFrames toLoad) low = [].
Proof. split; [discriminate | reflexivity]. Qed.

Lemma sorted_pools_filled (toLoad : list GeneratedFrame) f0 rest :
  toLoad = f0 :: rest ->
  type f0 = body
  \/ (exists f, In f (f0 :: rest) /\ type f = body /\ energy f = low) ->
  let pools := fst (sortFrames toLoad) in
  pools low <> [] /\ pools mid <> [] /\ pools high <> [].
Proof.
  intros -> H. unfold sortFrames. cbn [fst]. apply fallbacks_fill.
  destruct H as [Hbody | Hlow].
  - right. exists f0, rest. split; [reflexivity | exact Hbody].
  - left. unfold distribute. apply distribute_low. right. exact Hlow.
Qed.

(** C5 (amended). For every non-empty frame list loaded into the preview
    whose first frame is a body frame, or which holds a low-energy body
    frame, none of the three energy pools is empty after the pools are
    sorted with the low, mid, high fallback. *)
Theorem pools_never_empty generatedFrames imagePreviewUrl f0 rest :
  framesToLoad generatedFrames imagePreviewUrl = f0 :: rest ->
  type f0 = body
  \/ (exists f, In f (f0 :: rest) /\ type f = body /\ energy f = low) ->
  let pools := fst (sortFrames (framesToLoad generatedFrames imagePreviewUrl)) in
  pools low <> [] /\ pools mid <> [] /\ pools high <> [].
Proof.
  intros HtoLoad H. exact (sorted_pools_filled _ f0 rest HtoLoad H).
Qed.

Lemma pools_never_empty_witness :
  let generatedFrames :=
    [ {| url := "u12"; pose := "base_12"; energy := high; type := body;
         role := Some base |} ] in
  let pools := fst (sortFrames (framesToLoad generatedFrames None)) in
  pools low <> [] /\ pools mid <> [] /\ pools high <> [].
Proof.
  apply (pools_never_empty _ None
           {| url := "u12"; pose := "base_12"; energy := high; type := body;
              role := Some base |} []).
  - reflexivity.
  - left. reflexivity.
Defined.

(** ** The mirror utility and the calls that wait for it *)

(** [mirrorFrame] in full: a loaded image is flipped at quality 0.8, or
    handed back untouched when there is no drawing context; an image that
    does not load leaves the promise unsettled. It never rejects. *)
Lemma mirrorFrame_outcome b dataUrl :
  mirrorFrame b dataUrl
  = match load b dataUrl with
    | Some img =>
        Resolved (if getContext2d b
                  then toDataURL b {| canvas_width := width img;
                                      canvas_height := height img;
                                      painted := Mirrored img |} 0.8%Q
                  else dataUrl)
    | None => Pending
    end.
Proof.
  unfold mirrorFrame. destruct (load b dataUrl); [| reflexivity].
  destruct (getContext2d b); reflexivity.
Qed.

(** A sheet whose shorter side is at most 4 pixels is sliced into canvases
    without pixels. *)
Lemma tiny_sheet_frames_are_empty b base64Image img :
  load b base64Image = Some img ->
  getContext2d b = true ->
  (Z.min (width img) (height img) <= 4)%Z ->
  sliceSpriteSheet b base64Image 4 4 = Resolved (repeat "data:," 16).
Proof.
  intros Hload Hctx Hsize. unfold sliceSpriteSheet. rewrite Hload, Hctx. f_equal.
  assert (Hw : forall r c,
             toDataURL b (sliceCell img 4 4 r c) 0.95%Q = "data:,").
  { intros r c. unfold toDataURL.
    replace (canvas_width (sliceCell img 4 4 r c) <=? 0)%Z with true; [reflexivity |].
    symmetry. apply Z.leb_le. unfold sliceCell. cbn [canvas_width].
    set (drawW := (inject_Z (Z.min (width img) (height img)) / inject_Z (Z.of_nat 4)
                   * (1 - 2 * insetFactor))%Q).
    assert (H : (Qfloor drawW < 1)%Z); [| lia].
    rewrite Zlt_Qlt. unfold drawW. eapply Qle_lt_trans; [apply Qfloor_le |].
    change (inject_Z (Z.of_nat 4)) with 4%Q. unfold insetFactor.
    assert (G : (inject_Z (Z.min (width img) (height img)) <= 4)%Q).
    { rewrite Zle_Qle in Hsize. exact Hsize. }
    set (x := inject_Z (Z.min (width img) (height img))) in *.
    assert (E : (x / 4 * (1 - 2 * 0.08) == x * 0.21)%Q) by field.
    rewrite E. change (inject_Z 1) with 1%Q. change (inject_Z 4) with 4%Q in G. lra. }
  unfold sliceCells. cbn [seq flat_map map app]. rewrite !Hw. reflexivity.
Qed.

(** C9, at the input on which it fails. The frames cut from a 4x4-pixel
    sheet are the string [data:,], which is no image; mirroring such a frame
    never settles, and with it the generation of a CHARACTER sheet never
    returns. *)
Theorem mirrorFrame_never_settles_on_empty_frame :
  sliceSpriteSheet Sample.browser "data:image/jpeg;base64,SHEET4" 4 4
  = Resolved (repeat "data:," 16)
  /\ load Sample.browser "data:," = None
  /\ mirrorFrame Sample.browser "data:," = Pending
  /\ snd (generateSingleSheet Sample.browser (fun _ => Sample.reply_with "SHEET4") base
            "data:image/png;base64,AAAA" "anime" "dance" CHARACTER None)
     = Pending.
Proof. repeat split; vm_compute; reflexivity. Qed.

(** Whatever the browser: a frame that does not load is never mirrored. *)
Lemma mirrorFrame_pending b dataUrl :
  load b dataUrl = None -> mirrorFrame b dataUrl = Pending.
Proof. intros H. rewrite mirrorFrame_outcome, H. reflexivity. Qed.

(** C10, at the input on which it fails. The base sheet comes back
    1024x1024 and yields its 24 frames and its sheet image; the alt sheet
    comes back 4x4; the call of quality mode never returns. *)
Theorem expansion_can_leave_the_call_unsettled :
  (exists r,
     snd (generateSingleSheet Sample.browser Sample.ai_tiny_expansion base
            "data:image/png;base64,AAAA" "anime" "dance" CHARACTER None) = Resolved r
     /\ length (frames r) = 24%nat
     /\ sheetBase64 r = Some "SHEET1024")
  /\ snd (generateDanceFrames Sample.browser Sample.ai_tiny_expansion
            "data:image/png;base64,AAAA" "anime" "dance" false false None)
     = Pending.
Proof.
  split.
  - eexists. split; [vm_compute; reflexivity |]. split; reflexivity.
  - vm_compute. reflexivity.
Qed.

(** What does hold after a successful base sheet: the call is never
    rejected, and when the expansion sheets settle it returns a list that
    starts with the frames of the base sheet. *)
Lemma base_success_is_never_rejected b ai img style_ motion useTurbo superMode explicit r :
  snd (generateSingleSheet b ai base img style_ motion
         (resolveCategory motion explicit) None) = Resolved r ->
  baseSucceeded r = true ->
  match snd (generateDanceFrames b ai img style_ motion useTurbo superMode explicit) with
  | Resolved (allFrames, category) =>
      category = resolveCategory motion explicit
      /\ exists more, allFrames = (frames r ++ more)%list
  | Rejected _ => False
  | Pending =>
      exists role_,
        (role_ = alt \/ role_ = flourish)
        /\ snd (generateSingleSheet b ai role_ img style_ motion
                  (resolveCategory motion explicit) (Some (baseRef r))) = Pending
  end.
Proof.
  intros Hbase Hok. unfold generateDanceFrames. rewrite Hbase.
  rewrite Hok. cbn [negb].
  assert (Hne : frames r <> []).
  { unfold baseSucceeded in Hok. apply negb_true_iff in Hok.
    apply orb_false_iff in Hok as [Hlen _]. apply length_zero_nonempty. exact Hlen. }
  assert (Hret : forall more,
             returnFrames (frames r ++ more)%list (resolveCategory motion explicit)
             = Resolved ((frames r ++ more)%list, resolveCategory motion explicit)).
  { intros more. unfold returnFrames.
    destruct (frames r); [congruence | reflexivity]. }
  pose proof (fun role_ e =>
                generateSingleSheet_never_rejects b ai role_ img style_ motion
                  (resolveCategory motion explicit) (Some (baseRef r)) e) as Hnr.
  destruct superMode; [| destruct useTurbo];
    cbn [negb length Nat.ltb Nat.leb map fst snd JS.all].
  - destruct (snd (generateSingleSheet b ai alt img style_ motion
                     (resolveCategory motion explicit) (Some (baseRef r))))
      as [ra | e |] eqn:Ea; [| destruct (Hnr alt e Ea) |];
      destruct (snd (generateSingleSheet b ai flourish img style_ motion
                       (resolveCategory motion explicit) (Some (baseRef r))))
        as [rf | e |] eqn:Ef; try (destruct (Hnr flourish e Ef)); cbn [snd].
    + destruct (appendExpansion_prefix [ra; rf] (frames r)) as [more ->].
      rewrite Hret. split; [reflexivity | exists more; reflexivity].
    + exists flourish. split; [right; reflexivity | exact Ef].
    + exists alt. split; [left; reflexivity | exact Ea].
    + exists alt. split; [left; reflexivity | exact Ea].
  - cbn [snd]. pose proof (Hret []) as Hret0. rewrite app_nil_r in Hret0.
    rewrite Hret0. split; [reflexivity | exists []; rewrite app_nil_r; reflexivity].
  - destruct (snd (generateSingleSheet b ai alt img style_ motion
                     (resolveCategory motion explicit) (Some (baseRef r))))
      as [ra | e |] eqn:Ea; [| destruct (Hnr alt e Ea) |]; cbn [snd].
    + destruct (appendExpansion_prefix [ra] (frames r)) as [more ->].
      rewrite Hret. split; [reflexivity | exists more; reflexivity].
    + exists alt. split; [left; reflexivity | exact Ea].
Qed.

(** Every list [generateDanceFrames] returns fills the three pools of the
    preview. *)
Lemma generated_frames_fill_the_pools b ai img style_ motion useTurbo superMode explicit
    allFrames category imagePreviewUrl :
  snd (generateDanceFrames b ai img style_ motion useTurbo superMode explicit)
  = Resolved (allFrames, category) ->
  let pools := fst (sortFrames (framesToLoad allFrames imagePreviewUrl)) in
  pools low <> [] /\ pools mid <> [] /\ pools high <> [].
Proof.
  intros Hcall.
  destruct (snd (generateSingleSheet b ai base img style_ motion
                   (resolveCategory motion explicit) None)) as [r | e |] eqn:Hbase.
  2:{ destruct (generateSingleSheet_never_rejects _ _ _ _ _ _ _ _ _ Hbase). }
  2:{ unfold generateDanceFrames in Hcall. rewrite Hbase in Hcall. discriminate. }
  destruct (baseSucceeded r) eqn:Hok.
  2:{ rewrite (dance_base_failed b ai img style_ motion explicit useTurbo superMode r
                 Hbase Hok) in Hcall.
      discriminate. }
  pose proof (base_success_is_never_rejected b ai img style_ motion useTurbo superMode
                explicit r Hbase Hok) as H.
  rewrite Hcall in H. destruct H as [_ [more ->]].
  assert (Hsheet : exists payload, sheetBase64 r = Some payload).
  { unfold baseSucceeded in Hok. apply negb_true_iff in Hok.
    apply orb_false_iff in Hok as [_ Hs]. destruct (sheetBase64 r); [eauto | discriminate]. }
  destruct Hsheet as [payload Hsheet].
  destruct (generated_sheet_starts_with_body _ _ _ _ _ _ _ _ _ _ Hbase Hsheet)
    as (f & rest & Hfr & Hbody & _).
  apply (sorted_pools_filled _ f (rest ++ more)%list).
  - rewrite Hfr. reflexivity.
  - left. exact Hbody.
Qed.

(** ** The audio engine *)

(** Both handlers that start playback create the analyser first. *)
Lemma playing_has_analyser a :
  reachable a ->
  (audioCtxRef a = true -> analyserRef a = true)
  /\ (isPlaying a = true -> analyserRef a = true).
Proof.
  induction 1 as [u | a x _ [IHctx IHplay]].
  - split; discriminate.
  - destruct x as [| granted | u]; cbn [act].
    + unfold togglePlay, initAudioContext, setIsPlaying.
      destruct (audioCtxRef a) eqn:Ectx; cbn;
        destruct (isMicActive a); cbn; try destruct (truthy (audioPreviewUrl a)); cbn;
        auto.
    + unfold toggleMic, initAudioContext.
      destruct (audioCtxRef a) eqn:Ectx; cbn;
        destruct (isMicActive a); cbn; try destruct granted; cbn; rewrite ?Ectx; auto.
    + unfold audioChanged. cbn. split; [exact IHctx | discriminate].
Qed.

Local Open Scope Q_scope.

(** C6, as the code has it. In every state the handlers can reach, the
    bands of a tick taken while playing are read from the analyser, also
    with no uploaded audio and no microphone: the analyser exists as soon as
    playback has been started, and its branch comes first. The fallback
    clock is never consulted. *)
Theorem playing_reads_the_analyser a time_ dataArray rnd :
  reachable a ->
  isPlaying a = true ->
  audioAnalysis a time_ dataArray rnd = analyserBands dataArray.
Proof.
  intros Hreach Hplay. unfold audioAnalysis.
  rewrite Hplay, (proj2 (playing_has_analyser a Hreach) Hplay). reflexivity.
Qed.

Lemma playing_reads_the_analyser_witness :
  let a := act (mounted None) TogglePlay in
  let silence := repeat 0%Z 512 in
  isPlaying a = true /\ truthy (audioPreviewUrl a) = false /\ isMicActive a = false
  /\ audioAnalysis a 0 silence 0 = analyserBands silence
  /\ bass (analyserBands silence) == 0
  /\ bass (fallbackClock 0 0) == 1.
Proof.
  intros a silence.
  split; [reflexivity |]. split; [reflexivity |]. split; [reflexivity |].
  split.
  - apply (playing_reads_the_analyser (act (mounted None) TogglePlay) 0 (repeat 0%Z 512) 0).
    + apply reachable_act. apply reachable_mounted.
    + reflexivity.
  - split; vm_compute; reflexivity.
Defined.

(** ** The choreography brain *)

Lemma Qgtb_true x y : Qgtb x y = true -> y < x.
Proof.
  unfold Qgtb. intros H. apply negb_true_iff in H.
  apply Qnot_le_lt. intros Hle. apply Qle_bool_iff in Hle. congruence.
Qed.

Lemma switches_canSwitch s t d : switches s t d <> [] -> canSwitch t d = true.
Proof.
  unfold switches, isBeatHit, isIdle.
  destruct (playing s); [| congruence].
  destruct (canSwitch t d); [reflexivity |].
  rewrite !andb_false_r. cbn. congruence.
Qed.

(** The time of the last switch after a tick: the time of the tick when it
    switched, and what it was otherwise. *)
Lemma brain_lastSwitchTime s t d :
  lastSwitchTimeRef (rhythm (brain s t d))
  = match switches s t d with
    | [] => lastSwitchTimeRef (rhythm d)
    | _ :: _ => time t
    end.
Proof.
  unfold brain, switches.
  destruct (playing s); [| reflexivity].
  destruct (isBeatHit t d); [| destruct (isIdle t d)];
    match goal with
    | |- context [if isSnare t && ?c then _ else _] => destruct (isSnare t && c)
    end;
    destruct (isBurst t d && canSwitch t d); reflexivity.
Qed.

(** The pose changes in no other tick than those that switch. *)
Lemma pose_changes_only_in_switches s t d :
  switches s t d = [] -> transition (brain s t d) = transition d.
Proof.
  unfold brain, switches.
  destruct (playing s); [| reflexivity].
  destruct (isBeatHit t d); [discriminate |].
  destruct (isIdle t d); [discriminate |].
  destruct (isBurst t d && canSwitch t d); [discriminate |].
  intros _.
  match goal with
  | |- context [if ?c then _ else _] => destruct c
  end; reflexivity.
Qed.

Lemma lock_holds_after s ticks : forall d from x j tj burst kinds,
  ascending from ticks ->
  x <= from ->
  x <= lastSwitchTimeRef (rhythm d) ->
  nth_error (switchLog s ticks d) j = Some (tj, burst, kinds) ->
  kinds <> [] ->
  x + (if burst then 60 else 150) < tj.
Proof.
  induction ticks as [| t ticks IH]; intros d from x j tj burst kinds Hasc Hfrom Hlast Hj Hk.
  - destruct j; discriminate.
  - destruct Hasc as [Ht Hasc]. destruct j as [| j]; cbn [switchLog nth_error] in Hj.
    + injection Hj as <- <- <-.
      apply switches_canSwitch, Qgtb_true in Hk. unfold poseLockTime in Hk.
      destruct (isBurst t d); lra.
    + apply (IH (brain s t d) (time t) x j tj burst kinds Hasc); try assumption.
      * lra.
      * rewrite brain_lastSwitchTime. destruct (switches s t d); lra.
Qed.

(** C7 (amended). Along every sequence of ticks with non-decreasing timestamps, from
    every state of the director: when a tick switches the pose (by a beat
    hit, by the idle fallback or by the forced cut of burst mode), every
    earlier tick that switched lies more than 150 ms before it, or more than
    60 ms when burst mode is active in the later tick. *)
Theorem pose_lock_between_switches s ticks d from i j ti bursti kindsi tj burstj kindsj :
  ascending from ticks ->
  (i < j)%nat ->
  nth_error (switchLog s ticks d) i = Some (ti, bursti, kindsi) ->
  kindsi <> [] ->
  nth_error (switchLog s ticks d) j = Some (tj, burstj, kindsj) ->
  kindsj <> [] ->
  ti + (if burstj then 60 else 150) < tj.
Proof.
  revert d from i j.
  induction ticks as [| t ticks IH]; intros d from i j Hasc Hij Hi Hki Hj Hkj.
  - destruct i; discriminate.
  - destruct Hasc as [Ht Hasc]. destruct j as [| j]; [lia |].
    cbn [switchLog nth_error] in Hj.
    destruct i as [| i]; cbn [switchLog nth_error] in Hi.
    + injection Hi as <- <- <-.
      apply (lock_holds_after s ticks (brain s t d) (time t) (time t) j tj burstj kindsj);
        try assumption.
      * lra.
      * rewrite brain_lastSwitchTime. destruct (switches s t d); [congruence | lra].
    + apply (IH (brain s t d) (time t) i j); try assumption. lia.
Qed.



Example switchLog_sample :
  switchLog DirectorSample.settings DirectorSample.ticks director0
  = [(200, false, [BeatSwitch]); (300, false, []); (1100, false, [BeatSwitch]);
     (1180, true, [BeatSwitch; BurstSwitch])].
Proof. vm_compute. reflexivity. Qed.

(** C7 as the specification states it fails. In burst mode one tick can
    switch the pose twice: the gate [canSwitch] is computed once, before the
    beat hit sets the time of the last switch, and the forced cut reads the
    same value. In the sample the tick at 1180 ms takes the pose from
    [base_12] to [base_8_right] by its beat hit and on to [base_13] by the
    forced cut, 0 ms later. *)
Lemma forced_cut_follows_a_beat_switch_at_once :
  let s := DirectorSample.settings in
  let d := run s (firstn 3 DirectorSample.ticks) director0 in
  let t := DirectorSample.tick 1180 0.5 0 in
  ascending 0 DirectorSample.ticks
  /\ nth_error DirectorSample.ticks 3 = Some t
  /\ switches s t d = [BeatSwitch; BurstSwitch]
  /\ targetPoseRef (transition d) = "base_12"
  /\ targetPoseRef (transition (beatHit s t d)) = "base_8_right"
  /\ lastSwitchTimeRef (rhythm (beatHit s t d)) = time t
  /\ targetPoseRef (transition (brain s t d)) = "base_13"
  /\ ~ (forall i ei ej,
          nth_error (switchEvents s DirectorSample.ticks director0) i = Some ei ->
          nth_error (switchEvents s DirectorSample.ticks director0) (S i) = Some ej ->
          fst (fst ei) + (if snd (fst ej) then 60 else 150) <= fst (fst ej)).
Proof.
  cbv zeta.
  split; [vm_compute; repeat split; discriminate |].
  split; [reflexivity |]. split; [vm_compute; reflexivity |].
  split; [vm_compute; reflexivity |]. split; [vm_compute; reflexivity |].
  split; [reflexivity |]. split; [vm_compute; reflexivity |].
  intros H.
  specialize (H 2%nat (1180, true, BeatSwitch) (1180, true, BurstSwitch)).
  assert (Hi : nth_error (switchEvents DirectorSample.settings DirectorSample.ticks director0) 2
               = Some (1180, true, BeatSwitch)) by (vm_compute; reflexivity).
  assert (Hj : nth_error (switchEvents DirectorSample.settings DirectorSample.ticks director0) 3
               = Some (1180, true, BurstSwitch)) by (vm_compute; reflexivity).
  specialize (H Hi Hj). cbn [fst snd] in H. lra.
Qed.

Lemma pose_lock_between_switches_witness : 1100 + 60 < 1180.
Proof.
  apply (pose_lock_between_switches DirectorSample.settings DirectorSample.ticks director0
           0 2 3 1100 false [BeatSwitch] 1180 true [BeatSwitch; BurstSwitch]).
  - vm_compute. repeat split; discriminate.
  - lia.
  - reflexivity.
  - discriminate.
  - reflexivity.
  - discriminate.
Defined.

(** ** Rendering *)

Lemma Qle_bool_false x y : Qle_bool x y = false <-> y < x.
Proof.
  split.
  - intros H. apply Qnot_le_lt. intros Hle. apply Qle_bool_iff in Hle. congruence.
  - intros H. destruct (Qle_bool x y) eqn:E; [| reflexivity].
    apply Qle_bool_iff in E. lra.
Qed.

(** The lookup of [renderFrame]: when the pose map holds no bitmap for a
    pose, rendering the pose is rendering the pose "base"; where a bitmap is
    stored under "base", every image drawn is that bitmap, and with an
    opacity above 0.01 the main pass draws it (in one piece, or in its eight
    slices). *)
Theorem renderFrame_falls_back_to_base (poseImages : gmap string Image) cam superCam
    pose_ opacity :
  poseImages !! pose_ = None ->
  renderFrame poseImages cam superCam pose_ opacity
  = renderFrame poseImages cam superCam "base" opacity
  /\ forall baseImage,
       poseImages !! "base" = Some baseImage ->
       (forall img layer alpha,
          In (drawImage img layer alpha) (renderFrame poseImages cam superCam pose_ opacity) ->
          img = baseImage)
       /\ (0.01 < opacity ->
           In (drawImage baseImage Main opacity)
              (renderFrame poseImages cam superCam pose_ opacity)
           \/ In (drawImage baseImage (Slice 0) opacity)
                 (renderFrame poseImages cam superCam pose_ opacity)).
Proof.
  intros Hmissing.
  assert (Hbitmap : bitmap poseImages pose_ = poseImages !! "base").
  { unfold bitmap. rewrite Hmissing. reflexivity. }
  assert (Hbase : bitmap poseImages "base" = poseImages !! "base").
  { unfold bitmap. destruct (poseImages !! "base"); reflexivity. }
  split.
  - unfold renderFrame. rewrite Hbitmap, Hbase. reflexivity.
  - intros baseImage Hstored. unfold renderFrame. rewrite Hbitmap, Hstored. split.
    + intros img layer alpha.
      destruct (Qle_bool opacity 0.01); [intros [] |].
      rewrite !in_app_iff.
      intros [Hin | [Hin | Hin]]; revert Hin;
        repeat match goal with
               | |- context [if ?c then _ else _] => destruct c
               end;
        cbn [In map seq]; intuition congruence.
    + intros Hvisible. apply Qle_bool_false in Hvisible. rewrite Hvisible.
      destruct (Qgtb (tearAmountRef cam) 0.1) eqn:Etear.
      * right. rewrite !in_app_iff. right. left. cbn. left. reflexivity.
      * left. rewrite !in_app_iff. right. left. cbn. left. reflexivity.
Qed.

Lemma renderFrame_falls_back_to_base_witness :
  let still := {| src := "jpeg:preview"; width := 215; height := 215 |} in
  let poseImages : gmap string Image := {[ "base" := still ]} in
  renderFrame poseImages (camera director0) true "base_4_left" 1
  = [drawImage still Main 1].
Proof.
  intros still poseImages.
  rewrite (proj1 (renderFrame_falls_back_to_base poseImages (camera director0) true
                    "base_4_left" 1 eq_refl)).
  reflexivity.
Defined.

Local Close Scope Q_scope.

(** ** The superseded version *)

(** The simpler version of the service never sends more than two requests,
    sends them before it waits for either, and sends no style reference: in
    quality mode it stops at the base sheet. *)
Lemma superseded_requests b ai img style_ motion useTurbo superMode explicit :
  let category := resolveCategory motion explicit in
  exists rest,
    requests rest = []
    /\ fst (Superseded.generateDanceFrames b ai img style_ motion useTurbo superMode explicit)
       = (Issued base (Superseded.sheetRequest base img style_ motion category)
          :: (if superMode
              then [Issued alt (Superseded.sheetRequest alt img style_ motion category)]
              else [])
          ++ rest)%list.
Proof.
  intros category. unfold Superseded.generateDanceFrames. fold category.
  destruct superMode; cbn [map fst snd flat_map app];
    match goal with |- context [JS.all ?l] => destruct (JS.all l) end;
    eexists; split; try reflexivity; reflexivity.
Qed.

(** ** Double precision *)

(** The canvas size computed in double precision, as the browser does, is
    the one computed over the rationals, for every sheet whose shorter side
    is at most 8192 pixels. *)
Lemma canvas_size_in_double_precision :
  forallb (fun size =>
             (canvasSize_double (Z.of_nat size) 4
              =? Qfloor (inject_Z (Z.of_nat size) / inject_Z (Z.of_nat 4)
                         * (1 - 2 * insetFactor)))%Z)
          (seq 0 (Z.to_nat 8193))
  = true.
Proof. vm_compute. reflexivity. Qed.

(** ** Poses of generated frames and the pose map *)

Lemma processFrame_poses b role_ category frameData i group :
  (i < 16)%nat ->
  processFrame b role_ category 4 frameData i = Resolved group ->
  Forall (fun f => pose f <> "base") group.
Proof.
  intros Hi. unfold processFrame.
  do 16 (destruct i as [|i];
         [ destruct role_, category; cbn -[mirrorFrame Qgtb];
           try destruct (Qgtb _ _); cbn -[mirrorFrame];
           try destruct (mirrorFrame b frameData) as [mirrored | |]; cbn;
           intros H; try discriminate; injection H as <-;
           repeat constructor; cbn [pose]; discriminate
         |]).
  lia.
Qed.

Lemma generateSingleSheet_failure b ai role_ img style_ motion category ref r :
  snd (generateSingleSheet b ai role_ img style_ motion category ref) = Resolved r ->
  sheetBase64 r = None ->
  frames r = [].
Proof.
  unfold generateSingleSheet. cbn [snd]. unfold generateContent.
  destruct (ai _) as [response | e]; cbn [await try_catch].
  2:{ intros H. injection H as <-. reflexivity. }
  destruct (candidates response) as [[| [[[[ps |]] |]] ?] |]; cbn [try_catch];
    try (intros H; injection H as <-; reflexivity).
  destruct (first_image ps) as [sheet_ |]; cbn [try_catch];
    try (intros H; injection H as <-; reflexivity).
  destruct (truthy (Some sheet_)); cbn [try_catch];
    try (intros H; injection H as <-; reflexivity).
  destruct (sliceSpriteSheet b _ 4 4) as [rawFrames | e |]; cbn [await try_catch];
    try (intros H; injection H as <-; reflexivity); try discriminate.
  destruct (JS.all _) as [nestedFrames | e |]; cbn [await try_catch];
    try (intros H; injection H as <-; reflexivity); try discriminate.
  intros H Hp. injection H as <-. discriminate Hp.
Qed.

Lemma generated_sheet_poses b ai role_ img style_ motion category ref r :
  snd (generateSingleSheet b ai role_ img style_ motion category ref) = Resolved r ->
  Forall (fun f => pose f <> "base") (frames r).
Proof.
  intros Hcall. destruct (sheetBase64 r) as [payload |] eqn:Hsheet.
  2:{ rewrite (generateSingleSheet_failure _ _ _ _ _ _ _ _ _ Hcall Hsheet). constructor. }
  destruct (generateSingleSheet_success _ _ _ _ _ _ _ _ _ _ Hcall Hsheet)
    as (rawFrames & groups & Hslice & Hall & ->).
  pose proof (sliceSpriteSheet_16 _ _ _ Hslice) as Hlen.
  apply all_resolved in Hall. apply Forall_concat.
  apply List.Forall_forall. intros group Hin.
  apply In_nth_error in Hin as [i Hi].
  assert (Hi' : nth_error (map Resolved groups) i = Some (Resolved group)).
  { rewrite nth_error_map, Hi. reflexivity. }
  rewrite <- Hall in Hi'. unfold mapi in Hi'. rewrite mapi_from_nth_error in Hi'.
  destruct (nth_error rawFrames i) as [frameData |] eqn:Hraw; [| discriminate].
  cbn [option_map] in Hi'. injection Hi' as Hgroup.
  apply (processFrame_poses b role_ category frameData i group); [| exact Hgroup].
  rewrite <- Hlen. apply nth_error_Some. congruence.
Qed.

Lemma appendExpansion_Forall (P : GeneratedFrame -> Prop) results :
  forall allFrames,
    Forall P allFrames ->
    Forall (fun res => Forall P (frames res)) results ->
    Forall P (appendExpansion allFrames results).
Proof.
  unfold appendExpansion. induction results as [| res results IH]; intros allFrames Ha Hr.
  - exact Ha.
  - cbn [fold_left]. inversion Hr as [| ? ? Hres Hrest]; subst.
    apply IH; [| exact Hrest].
    destruct (0 <? length (frames res))%nat; [| exact Ha].
    apply Forall_app. split; assumption.
Qed.

(** No frame that [generateDanceFrames] returns has the pose "base". *)
Lemma generated_poses_are_not_base b ai img style_ motion useTurbo superMode explicit
    allFrames category :
  snd (generateDanceFrames b ai img style_ motion useTurbo superMode explicit)
  = Resolved (allFrames, category) ->
  Forall (fun f => pose f <> "base") allFrames.
Proof.
  unfold generateDanceFrames.
  destruct (snd (generateSingleSheet b ai base img style_ motion
                   (resolveCategory motion explicit) None)) as [r | e |] eqn:Hbase;
    try discriminate.
  destruct (negb (baseSucceeded r)); [discriminate |].
  pose proof (generated_sheet_poses _ _ _ _ _ _ _ _ _ Hbase) as Hb.
  assert (Hret : forall l c,
             returnFrames l c = Resolved (allFrames, category) -> l = allFrames).
  { intros l c. unfold returnFrames. destruct (length l =? 0)%nat; [discriminate |].
    intros H. injection H as <- _. reflexivity. }
  destruct superMode; [| destruct useTurbo];
    cbn [negb length Nat.ltb Nat.leb map fst snd JS.all].
  - destruct (snd (generateSingleSheet b ai alt img style_ motion
                     (resolveCategory motion explicit) (Some (baseRef r))))
      as [ra | e |] eqn:Ea;
      destruct (snd (generateSingleSheet b ai flourish img style_ motion
                       (resolveCategory motion explicit) (Some (baseRef r))))
        as [rf | e' |] eqn:Ef; cbn [snd]; try discriminate.
    intros H. apply Hret in H as <-. apply appendExpansion_Forall; [exact Hb |].
    repeat constructor; eapply generated_sheet_poses; eassumption.
  - cbn [snd]. intros H. apply Hret in H as <-. exact Hb.
  - destruct (snd (generateSingleSheet b ai alt img style_ motion
                     (resolveCategory motion explicit) (Some (baseRef r))))
      as [ra | e |] eqn:Ea; cbn [snd]; try discriminate.
    intros H. apply Hret in H as <-. apply appendExpansion_Forall; [exact Hb |].
    repeat constructor; eapply generated_sheet_poses; eassumption.
Qed.

Lemma loadPoseImages_lookup b (toLoad : list GeneratedFrame) (p : string) :
  Forall (fun f => pose f <> p) toLoad ->
  loadPoseImages b toLoad !! p = None.
Proof.
  unfold loadPoseImages.
  assert (G : forall (m : gmap string Image),
             m !! p = None ->
             Forall (fun f => pose f <> p) toLoad ->
             fold_left
               (fun newMap f =>
                  match load b (url f) with
                  | Some img => <[pose f := img]> newMap
                  | None => newMap
                  end) toLoad m !! p = None).
  { induction toLoad as [| f toLoad IH]; intros m Hm Hall; cbn [fold_left].
    - exact Hm.
    - inversion Hall as [| ? ? Hf Hrest]; subst. apply IH; [| exact Hrest].
      destruct (load b (url f)); [| exact Hm].
      rewrite lookup_insert_ne; [exact Hm | exact Hf]. }
  apply G. apply lookup_empty.
Qed.

(** With the frames of a generation run loaded, no bitmap is stored under
    "base": a pose whose bitmap is absent is then not drawn at all. *)
Lemma missing_generated_pose_draws_nothing b ai img style_ motion useTurbo superMode
    explicit allFrames category browser cam superCam pose_ opacity :
  snd (generateDanceFrames b ai img style_ motion useTurbo superMode explicit)
  = Resolved (allFrames, category) ->
  loadPoseImages browser allFrames !! pose_ = None ->
  renderFrame (loadPoseImages browser allFrames) cam superCam pose_ opacity = [].
Proof.
  intros Hcall Hmissing. unfold renderFrame, bitmap. rewrite Hmissing.
  rewrite (loadPoseImages_lookup browser allFrames "base"
             (generated_poses_are_not_base _ _ _ _ _ _ _ _ _ _ Hcall)).
  destruct (Qle_bool opacity 0.01); reflexivity.
Qed.

(** C8. In every generation run the fallback of [renderFrame] finds
    nothing: no frame is named "base", so no bitmap is stored under "base",
    and a pose whose bitmap is absent from the pose map (its image failed to
    load) is not drawn at all; nor is the pose "base" itself, which is the
    target pose until the first switch. *)
Theorem generated_pose_without_bitmap_is_not_drawn b ai img style_ motion useTurbo
    superMode explicit allFrames category browser cam superCam pose_ opacity :
  snd (generateDanceFrames b ai img style_ motion useTurbo superMode explicit)
  = Resolved (allFrames, category) ->
  loadPoseImages browser allFrames !! pose_ = None ->
  loadPoseImages browser allFrames !! "base" = None
  /\ renderFrame (loadPoseImages browser allFrames) cam superCam pose_ opacity = []
  /\ renderFrame (loadPoseImages browser allFrames) cam superCam "base" opacity = [].
Proof.
  intros Hcall Hmissing.
  assert (Hbase : loadPoseImages browser allFrames !! "base" = None).
  { apply loadPoseImages_lookup.
    exact (generated_poses_are_not_base _ _ _ _ _ _ _ _ _ _ Hcall). }
  split; [exact Hbase |].
  split; unfold renderFrame, bitmap; rewrite ?Hmissing, Hbase;
    destruct (Qle_bool opacity 0.01); reflexivity.
Qed.

Lemma generated_pose_without_bitmap_is_not_drawn_witness :
  let preview :=
    {| load := fun u => if String.eqb u "jpeg:cell@20,276" then None else Sample.picture u;
       getContext2d := true; encode := Sample.stamp; random := fun _ _ => 0%Q |} in
  exists allFrames,
    snd (generateDanceFrames Sample.browser Sample.ai_ok "data:image/png;base64,AAAA"
           "anime" "dance" true false None) = Resolved (allFrames, CHARACTER)
    /\ In "base_4_left" (map pose allFrames)
    /\ loadPoseImages preview allFrames !! "base_4_left" = None
    /\ loadPoseImages preview allFrames !! "base_0"
       = Some {| src := "jpeg:cell@20,20"; width := 215; height := 215 |}
    /\ renderFrame (loadPoseImages preview allFrames) (camera director0) true
         "base_4_left" 1 = [].
Proof.
  intros preview.
  destruct (snd (generateDanceFrames Sample.browser Sample.ai_ok "data:image/png;base64,AAAA"
                   "anime" "dance" true false None))
    as [[allFrames category] | |] eqn:E; [| vm_compute in E; discriminate ..].
  pose proof E as E'. vm_compute in E'. injection E' as Hframes Hcategory.
  subst category.
  assert (Hmissing : loadPoseImages preview allFrames !! "base_4_left" = None).
  { rewrite <- Hframes. vm_compute. reflexivity. }
  destruct (generated_pose_without_bitmap_is_not_drawn Sample.browser Sample.ai_ok
              "data:image/png;base64,AAAA" "anime" "dance" true false None allFrames
              CHARACTER preview (camera director0) true "base_4_left" 1 E Hmissing)
    as (_ & Hdrawn & _).
  exists allFrames.
  split; [reflexivity |].
  split; [rewrite <- Hframes; vm_compute; tauto |].
  split; [exact Hmissing |].
  split; [rewrite <- Hframes; vm_compute; reflexivity | exact Hdrawn].
Defined.

(** ** Encoding the subject image *)

Import Upload.

Local Open Scope Q_scope.

Lemma Qgtb_false x y : Qgtb x y = false -> x <= y.
Proof.
  unfold Qgtb. intros H. apply negb_false_iff in H. apply Qle_bool_iff. exact H.
Qed.

(** The size before flooring, case by case. *)
Lemma resizedSize_cases w h m :
  0 <= w -> 0 <= h -> 0 <= m ->
  let size := resizedSize w h m in
  fst size <= m /\ snd size <= m
  /\ fst size <= w /\ snd size <= h
  /\ 0 <= fst size /\ 0 <= snd size
  /\ fst size * h == snd size * w.
Proof.
  intros Hw Hh Hm. unfold resizedSize.
  destruct (Qgtb w h) eqn:Ewh; [apply Qgtb_true in Ewh | apply Qgtb_false in Ewh].
  - destruct (Qgtb w m) eqn:Ewm; [apply Qgtb_true in Ewm | apply Qgtb_false in Ewm];
      cbn [fst snd].
    + assert (Hpos : 0 < w) by lra.
      assert (Hr : 0 <= m / w) by (apply Qle_shift_div_l; lra).
      assert (Hr1 : m / w <= 1) by (apply Qle_shift_div_r; lra).
      assert (E : w * (m / w) == m) by (field; lra).
      assert (Hhm : h * (m / w) <= w * (m / w)) by nra.
      repeat split; try lra; try nra; try (field; lra).
    + repeat split; lra.
  - destruct (Qgtb h m) eqn:Ehm; [apply Qgtb_true in Ehm | apply Qgtb_false in Ehm];
      cbn [fst snd].
    + assert (Hpos : 0 < h) by lra.
      assert (Hr : 0 <= m / h) by (apply Qle_shift_div_l; lra).
      assert (Hr1 : m / h <= 1) by (apply Qle_shift_div_r; lra).
      assert (E : h * (m / h) == m) by (field; lra).
      assert (Hwm : w * (m / h) <= h * (m / h)) by nra.
      repeat split; try lra; try nra; try (field; lra).
    + repeat split; lra.
Qed.

(** X1. Whatever the image (non-negative sizes) and the bound, the canvas
    [resizeImage] draws on is at most [maxDim] wide and high, and never
    larger than the image: the function only ever scales down. *)
Theorem resize_fits_the_bound img maxDim :
  (0 <= width img)%Z -> (0 <= height img)%Z -> 0 <= maxDim ->
  let c := resizeCanvas img maxDim in
  inject_Z (scaledWidth c) <= maxDim /\ inject_Z (scaledHeight c) <= maxDim
  /\ (0 <= scaledWidth c <= width img)%Z
  /\ (0 <= scaledHeight c <= height img)%Z.
Proof.
  intros Hw Hh Hm c.
  assert (Hw' : 0 <= inject_Z (width img)) by (rewrite Zle_Qle in Hw; exact Hw).
  assert (Hh' : 0 <= inject_Z (height img)) by (rewrite Zle_Qle in Hh; exact Hh).
  destruct (resizedSize_cases _ _ _ Hw' Hh' Hm) as (H1 & H2 & H3 & H4 & H5 & H6 & _).
  unfold c, resizeCanvas. cbn [scaledWidth scaledHeight].
  set (size := resizedSize (inject_Z (width img)) (inject_Z (height img)) maxDim) in *.
  pose proof (Qfloor_le (fst size)) as F1. pose proof (Qfloor_le (snd size)) as F2.
  repeat split; try lra.
  - change 0%Z with (Qfloor 0). apply Qfloor_resp_le. exact H5.
  - rewrite <- (Qfloor_Z (width img)). apply Qfloor_resp_le. exact H3.
  - change 0%Z with (Qfloor 0). apply Qfloor_resp_le. exact H6.
  - rewrite <- (Qfloor_Z (height img)). apply Qfloor_resp_le. exact H4.
Qed.

Lemma resize_fits_the_bound_witness :
  let c := resizeCanvas {| src := "blob:photo.jpg"; width := 1920; height := 1080 |} 384 in
  scaledWidth c = 384%Z /\ scaledHeight c = 216%Z
  /\ inject_Z (scaledWidth c) <= 384 /\ inject_Z (scaledHeight c) <= 384.
Proof.
  intros c. split; [reflexivity |]. split; [reflexivity |].
  destruct (resize_fits_the_bound
              {| src := "blob:photo.jpg"; width := 1920; height := 1080 |} 384)
    as (H1 & H2 & _).
  - cbn. lia.
  - cbn. lia.
  - lra.
  - split; assumption.
Defined.

(** *** The upload in double precision *)

Import UploadDouble.

Lemma digits2_size_nat p : Pos.to_nat (digits2_pos p) = Pos.size_nat p.
Proof.
  induction p as [p IH | p IH |]; cbn [digits2_pos Pos.size_nat];
    rewrite ?Pos2Nat.inj_succ, ?IH; reflexivity.
Qed.

Lemma digits2_53 p :
  (4503599627370496 <= Zpos p < 9007199254740992)%Z -> digits2_pos p = 53%positive.
Proof.
  intros [Hlo Hhi].
  assert (H53 : (Pos.size_nat p <= 53)%nat).
  { apply (Zpow_facts.Zpower2_Psize 53 p). exact Hhi. }
  assert (H52 : ~ (Pos.size_nat p <= 52)%nat).
  { intros H. apply (Zpow_facts.Zpower2_Psize 52 p) in H.
    change (2 ^ Z.of_nat 52)%Z with 4503599627370496%Z in H. lia. }
  apply Pos2Nat.inj. rewrite digits2_size_nat.
  change (Pos.to_nat 53) with 53%nat. lia.
Qed.

(** On an ordinary double the two ways to floor agree. *)
Lemma floor_double_uint63 f :
  ordinary f = true -> floor_double f = Uint63.to_Z (floor_uint63 f).
Proof.
  unfold ordinary, floor_double, floor_uint63, Prim2SF, Z.frexp.
  destruct (PrimFloat.is_nan f); [discriminate |].
  destruct (PrimFloat.is_zero f); [discriminate |].
  destruct (PrimFloat.is_infinity f); [discriminate |].
  destruct (PrimFloat.get_sign f); [discriminate |].
  destruct (PrimFloat.frshiftexp f) as [m e]. cbn [negb andb].
  intros H. apply andb_prop in H as [H He2]. apply andb_prop in H as [H He1].
  apply andb_prop in H as [Hm1 Hm2].
  apply Uint63.leb_spec in Hm1, He1. apply Uint63.ltb_spec in Hm2, He2.
  change (Uint63.to_Z 4503599627370496) with 4503599627370496%Z in Hm1.
  change (Uint63.to_Z 9007199254740992) with 9007199254740992%Z in Hm2.
  change (Uint63.to_Z 1100) with 1100%Z in He1.
  change (Uint63.to_Z 2154) with 2154%Z in He2.
  unfold shr_fexp, shr_record_of_loc.
  destruct (Uint63.to_Z (PrimFloat.normfr_mantissa m)) as [| p | p] eqn:Emant; try lia.
  cbn [Zdigits2]. rewrite (digits2_53 p) by lia.
  unfold fexp, SpecFloat.emin, FloatOps.prec, FloatOps.emax, FloatOps.shift.
  set (se := Uint63.to_Z e) in *.
  replace (Z.max (53 + (se - 2101 - 53) - 53) (3 - 1024 - 53) - (se - 2101 - 53))%Z
    with 0%Z by lia.
  cbn [shr shr_m].
  destruct (e <=? 2101)%uint63 eqn:Ele.
  - apply Uint63.leb_spec in Ele. change (Uint63.to_Z 2101) with 2101%Z in Ele. fold se in Ele.
    destruct (0 <=? se - 2101 - 53)%Z eqn:E0; [apply Z.leb_le in E0; lia |].
    rewrite Z.shiftr_div_pow2 by lia.
    change (Uint63.to_Z 0) with 0%Z.
    apply Z.div_small. split; [lia |].
    assert (2 ^ 53 <= 2 ^ (- (se - 2101 - 53)))%Z by (apply Z.pow_le_mono_r; lia).
    change (2 ^ 53)%Z with 9007199254740992%Z in *. lia.
  - assert (Hgt : (2101 < se)%Z).
    { destruct (Z_lt_le_dec 2101 se) as [? | Hle]; [assumption |].
      assert (Hc : (e <=? 2101)%uint63 = true) by (apply Uint63.leb_spec; exact Hle).
      congruence. }
    destruct (0 <=? se - 2101 - 53)%Z eqn:E0; [apply Z.leb_le in E0; lia |].
    rewrite Z.shiftr_div_pow2 by lia.
    rewrite Uint63.lsr_spec, Uint63.sub_spec, Emant.
    change (Uint63.to_Z 2154) with 2154%Z. fold se.
    rewrite Z.mod_small.
    + f_equal. f_equal. lia.
    + change wB with 9223372036854775808%Z. lia.
Qed.

(** Machine integers and integers, for the sizes that occur. *)
Lemma to_Z_of_Z a : (0 <= a < 9223372036854775808)%Z -> Uint63.to_Z (Uint63.of_Z a) = a.
Proof.
  intros H. rewrite Uint63.of_Z_spec. apply Z.mod_small.
  change wB with 9223372036854775808%Z. exact H.
Qed.

Lemma uint63_ltb a b :
  (0 <= a < 9223372036854775808)%Z -> (0 <= b < 9223372036854775808)%Z ->
  (Uint63.of_Z a <? Uint63.of_Z b)%uint63 = (a <? b)%Z.
Proof.
  intros Ha Hb. destruct (a <? b)%Z eqn:E.
  - apply Uint63.ltb_spec. rewrite !to_Z_of_Z by assumption. apply Z.ltb_lt. exact E.
  - destruct (Uint63.of_Z a <? Uint63.of_Z b)%uint63 eqn:E'; [| reflexivity].
    apply Uint63.ltb_spec in E'. rewrite !to_Z_of_Z in E' by assumption.
    apply Z.ltb_ge in E. lia.
Qed.

Lemma uint63_share s l :
  (0 <= s <= 4096)%Z -> (0 < l <= 4096)%Z ->
  Uint63.to_Z (Uint63.of_Z s * 384 / Uint63.of_Z l) = (s * 384 / l)%Z
  /\ Uint63.to_Z ((Uint63.of_Z s * 384) mod Uint63.of_Z l) = ((s * 384) mod l)%Z.
Proof.
  intros Hs Hl.
  assert (Hmul : Uint63.to_Z (Uint63.of_Z s * 384) = (s * 384)%Z).
  { rewrite Uint63.mul_spec, to_Z_of_Z by lia.
    change (Uint63.to_Z 384) with 384%Z. apply Z.mod_small.
    change wB with 9223372036854775808%Z. lia. }
  split.
  - rewrite Uint63.div_spec, Hmul, to_Z_of_Z by lia. reflexivity.
  - rewrite Uint63.mod_spec, Hmul, to_Z_of_Z by lia. reflexivity.
Qed.

(** *** What the check gives *)

Lemma checked_from_pairs : forall todo smaller,
  checked_from smaller todo = true ->
  forall pre l post, todo = (pre ++ l :: post)%list ->
  forall s, In s (l :: pre) \/ In s smaller -> pair_ok s l = true.
Proof.
  induction todo as [| x todo IH]; intros smaller Hc pre l post Heq s Hs.
  - destruct pre; discriminate.
  - cbn [checked_from] in Hc. apply andb_prop in Hc as [Hhead Hrest].
    destruct pre as [| y pre]; cbn [app] in Heq; injection Heq as -> ->.
    + rewrite forallb_forall in Hhead. apply Hhead.
      destruct Hs as [[<- | []] | Hs]; [left; reflexivity | right; exact Hs].
    + apply (IH (y :: smaller) Hrest pre l post eq_refl).
      destruct Hs as [[<- | [<- | Hs]] | Hs].
      * left. left. reflexivity.
      * right. left. reflexivity.
      * left. right. exact Hs.
      * right. right. exact Hs.
Qed.

Lemma checked_sides N a b :
  resize_checked N = true ->
  (1 <= a)%nat -> (a <= b)%nat -> (b <= N)%nat ->
  side_ok (side a) = true /\ side_ok (side b) = true /\ pair_ok (side a) (side b) = true.
Proof.
  unfold resize_checked, sides. intros H Ha Hab Hb.
  apply andb_prop in H as [Hside Hpairs].
  rewrite forallb_forall in Hside.
  assert (Hin : forall n, (1 <= n <= N)%nat -> In (side n) (map side (seq 1 N))).
  { intros n Hn. apply in_map. apply in_seq. lia. }
  split; [apply Hside, Hin; lia |]. split; [apply Hside, Hin; lia |].
  apply (checked_from_pairs _ [] Hpairs (map side (seq 1 (b - 1))) (side b)
           (map side (seq (S b) (N - b)))).
  - replace N with ((b - 1) + S (N - b))%nat at 1 by lia.
    rewrite seq_app, map_app. replace (1 + (b - 1))%nat with b by lia. reflexivity.
  - left. destruct (Nat.eq_dec a b) as [-> | Hne]; [left; reflexivity |].
    right. apply in_map. apply in_seq. lia.
Qed.

Lemma resize_checked_4096 : resize_checked 4096 = true.
Proof. vm_compute. reflexivity. Qed.


Lemma Qgtb_inject_Z a b : Qgtb (inject_Z a) (inject_Z b) = (b <? a)%Z.
Proof.
  unfold Qgtb. destruct (b <? a)%Z eqn:E.
  - apply negb_true_iff. apply Qle_bool_false. rewrite <- Zlt_Qlt. apply Z.ltb_lt. exact E.
  - apply negb_false_iff. apply Qle_bool_iff. rewrite <- Zle_Qle. apply Z.ltb_ge. exact E.
Qed.

(** The share of the shorter side in exact arithmetic. *)
Lemma Qfloor_share s l :
  (0 < l)%Z ->
  Qfloor (inject_Z s * (384 / inject_Z l)) = (s * 384 / l)%Z
  /\ (((s * 384) mod l)%Z = 0%Z ->
      inject_Z s * (384 / inject_Z l) == inject_Z (s * 384 / l)).
Proof.
  intros Hl. destruct l as [| p | p]; try lia.
  assert (E : inject_Z s * (384 / inject_Z (Z.pos p)) == (s * 384) # p).
  { unfold Qeq, Qdiv, Qmult, Qinv, inject_Z. cbn [Qnum Qden]. lia. }
  split.
  - rewrite (Qfloor_comp _ _ E). reflexivity.
  - intros Hmod. rewrite E. unfold Qeq, inject_Z. cbn [Qnum Qden].
    apply Z.div_exact in Hmod; lia.
Qed.

Lemma side_of_size a :
  (0 <= a)%Z -> side (Z.to_nat a) = (Uint63.of_Z a, double a).
Proof. intros Ha. unfold side, double. rewrite Z2Nat.id by exact Ha. reflexivity. Qed.

(** What the check says about two sides of an image. *)
Lemma checked_pair s l :
  (1 <= s)%Z -> (s <= l)%Z -> (l <= 4096)%Z ->
  (double s <? double l)%float = (s <? l)%Z
  /\ (double l <? double s)%float = false
  /\ (384 <? double s)%float = (384 <? s)%Z
  /\ (384 <? double l)%float = (384 <? l)%Z
  /\ floor_double (double s) = s
  /\ floor_double (double l) = l
  /\ ((384 < l)%Z ->
      floor_double (double s * (384 / double l))%float = (s * 384 / l)%Z
      \/ (floor_double (double s * (384 / double l))%float = (s * 384 / l - 1)%Z
          /\ ((s * 384) mod l)%Z = 0%Z)).
Proof.
  intros Hs Hsl Hl.
  destruct (checked_sides 4096 (Z.to_nat s) (Z.to_nat l) resize_checked_4096)
    as (Hss & Hsl' & Hpair); try lia.
  rewrite !side_of_size in * by lia.
  assert (Hside : forall a, (1 <= a <= 4096)%Z ->
            side_ok (Uint63.of_Z a, double a) = true ->
            (384 <? double a)%float = (384 <? a)%Z /\ floor_double (double a) = a).
  { intros a Ha H. unfold side_ok in H. cbn [fst snd] in H.
    apply andb_prop in H as [H Hfloor]. apply andb_prop in H as [Hcmp Hord].
    apply Bool.eqb_prop in Hcmp. split.
    - rewrite Hcmp. apply (uint63_ltb 384 a); lia.
    - rewrite (floor_double_uint63 _ Hord).
      apply Uint63.eqb_spec in Hfloor. rewrite Hfloor. apply to_Z_of_Z. lia. }
  destruct (Hside s ltac:(lia) Hss) as [Hs384 Hsfloor].
  destruct (Hside l ltac:(lia) Hsl') as [Hl384 Hlfloor].
  unfold pair_ok in Hpair. cbn [fst snd] in Hpair.
  apply andb_prop in Hpair as [Hpair Hscaled]. apply andb_prop in Hpair as [Hlt Hgt].
  apply Bool.eqb_prop in Hlt, Hgt.
  rewrite uint63_ltb in Hlt, Hgt by lia.
  split; [exact Hlt |]. split; [rewrite Hgt; apply Z.ltb_ge; lia |].
  split; [exact Hs384 |]. split; [exact Hl384 |]. split; [exact Hsfloor |].
  split; [exact Hlfloor |].
  intros H384.
  change (384 <? Uint63.of_Z l)%uint63 with (Uint63.of_Z 384 <? Uint63.of_Z l)%uint63
    in Hscaled.
  rewrite (uint63_ltb 384 l) in Hscaled by lia.
  apply Z.ltb_lt in H384. rewrite H384 in Hscaled.
  unfold scaled_ok in Hscaled. cbn [fst snd] in Hscaled.
  apply andb_prop in Hscaled as [Hord Hfloor].
  rewrite (floor_double_uint63 _ Hord).
  destruct (uint63_share s l ltac:(lia) ltac:(lia)) as [Hdiv Hmod].
  apply orb_prop in Hfloor as [Hfloor | Hfloor].
  - left. apply Uint63.eqb_spec in Hfloor. rewrite Hfloor. exact Hdiv.
  - right. apply andb_prop in Hfloor as [Hfloor Hm]. apply andb_prop in Hfloor as [Hpos Hfloor].
    apply Uint63.eqb_spec in Hfloor, Hm. apply Uint63.ltb_spec in Hpos.
    change (Uint63.to_Z 0) with 0%Z in Hpos. rewrite Hdiv in Hpos.
    split.
    + rewrite Hfloor, Uint63.sub_spec, Hdiv. change (Uint63.to_Z 1) with 1%Z.
      apply Z.mod_small. change wB with 9223372036854775808%Z.
      assert (s * 384 / l <= s * 384)%Z by (apply Z.div_le_upper_bound; nia).
      lia.
    + rewrite <- Hmod, Hm. reflexivity.
Qed.

(** X2. [resizeImage] in double precision, as the browser computes it, for
    the bound 384 it is called with and every image of at most 4096 by 4096
    pixels: each side of the canvas is the side exact arithmetic gives, or
    one pixel less, and one pixel less only where the exact share is a whole
    number that the two roundings of [side * (384 / longer)] fall short of
    (588 by 588 becomes 383 by 384). The longer side of an image that
    exceeds the bound becomes exactly 384, and an image that fits keeps its
    size. *)
Theorem resize_in_double_precision img :
  (0 < width img <= 4096)%Z -> (0 < height img <= 4096)%Z ->
  let exact := resizeCanvas img 384 in
  let real := resizeCanvas_double img 384 in
  (fst real = scaledWidth exact
   \/ (fst real = (scaledWidth exact - 1)%Z
       /\ drawnWidth exact == inject_Z (scaledWidth exact)))
  /\ (snd real = scaledHeight exact
      \/ (snd real = (scaledHeight exact - 1)%Z
          /\ drawnHeight exact == inject_Z (scaledHeight exact)))
  /\ ((width img <= 384)%Z -> (height img <= 384)%Z -> real = (width img, height img))
  /\ ((height img < width img)%Z -> (384 < width img)%Z -> fst real = 384%Z)
  /\ ((width img <= height img)%Z -> (384 < height img)%Z -> snd real = 384%Z).
Proof.
  intros Hw Hh exact real. unfold exact, real, resizeCanvas, resizeCanvas_double.
  cbn [scaledWidth scaledHeight drawnWidth drawnHeight].
  unfold resizedSize, resizedSize_double.
  change (double 384) with 384%float.
  assert (Hbound : forall a, Qgtb (inject_Z a) 384 = (384 <? a)%Z)
    by (intros a; apply (Qgtb_inject_Z a 384)).
  rewrite !Hbound, !Qgtb_inject_Z.
  change (Qfloor 384) with 384%Z.
  set (w := width img) in *. set (h := height img) in *.
  assert (F384 : floor_double 384%float = 384%Z) by (vm_compute; reflexivity).
  destruct (h <? w)%Z eqn:Ehw.
  - apply Z.ltb_lt in Ehw.
    destruct (checked_pair h w) as (Hlt & _ & _ & H384 & Hfh & Hfw & Hscaled); try lia.
    rewrite Hlt, H384. replace (h <? w)%Z with true by (symmetry; apply Z.ltb_lt; lia).
    destruct (384 <? w)%Z eqn:Ew; cbn [fst snd].
    + apply Z.ltb_lt in Ew. rewrite F384.
      destruct (Qfloor_share h w ltac:(lia)) as [Hfloor Hwhole].
      change (Qfloor 384) with 384%Z. rewrite Hfloor.
      split; [left; reflexivity |].
      split; [destruct (Hscaled Ew) as [-> | [-> Hmod]];
              [left; reflexivity | right; split; [reflexivity | apply Hwhole, Hmod]] |].
      split; [lia |]. split; [reflexivity | lia].
    + apply Z.ltb_ge in Ew. rewrite Hfh, Hfw, !Qfloor_Z.
      split; [left; reflexivity |]. split; [left; reflexivity |].
      split; [reflexivity |]. split; lia.
  - apply Z.ltb_ge in Ehw.
    destruct (checked_pair w h) as (_ & Hgt & _ & H384 & Hfw & Hfh & Hscaled); try lia.
    rewrite Hgt, H384.
    destruct (384 <? h)%Z eqn:Eh; cbn [fst snd].
    + apply Z.ltb_lt in Eh. rewrite F384.
      destruct (Qfloor_share w h ltac:(lia)) as [Hfloor Hwhole].
      change (Qfloor 384) with 384%Z. rewrite Hfloor.
      split; [destruct (Hscaled Eh) as [-> | [-> Hmod]];
              [left; reflexivity | right; split; [reflexivity | apply Hwhole, Hmod]] |].
      split; [left; reflexivity |].
      split; [lia |]. split; [lia | reflexivity].
    + apply Z.ltb_ge in Eh. rewrite Hfh, Hfw, !Qfloor_Z.
      split; [left; reflexivity |]. split; [left; reflexivity |].
      split; [reflexivity |]. split; lia.
Qed.

Lemma resize_in_double_precision_witness :
  let img := {| src := "blob:square.png"; width := 588; height := 588 |} in
  resizeCanvas_double img 384 = (383%Z, 384%Z)
  /\ scaledWidth (resizeCanvas img 384) = 384%Z
  /\ drawnWidth (resizeCanvas img 384) == 384
  /\ resizeCanvas_double {| src := "blob:wide.png"; width := 1408; height := 792 |} 384
     = (384%Z, 215%Z)
  /\ resizeCanvas_double {| src := "blob:photo.jpg"; width := 1920; height := 1080 |} 384
     = (384%Z, 216%Z).
Proof.
  pose proof (resize_in_double_precision
                {| src := "blob:square.png"; width := 588; height := 588 |}) as H.
  cbv zeta in *. cbn [width height] in H.
  destruct H as (Hwidth & _); [lia | lia |].
  split; [vm_compute; reflexivity |]. split; [reflexivity |].
  split; [| split; vm_compute; reflexivity].
  destruct Hwidth as [Hsame | [_ Hwhole]].
  - vm_compute in Hsame. discriminate Hsame.
  - exact Hwhole.
Defined.

(** X3. An image more than [maxDim] times as wide as it is high is scaled
    to a canvas without height: [resizeImage] resolves with the empty data
    URL, [fileToGenericBase64] hands it on, and the request built from it
    carries an empty subject image. *)
Theorem thin_image_is_uploaded_empty p f url_ img role_ style_ motion category ref :
  createObjectURL p f = Some url_ ->
  load (browser p) url_ = Some img ->
  getContext2d (browser p) = true ->
  paints p (resizeCanvas img 384) = true ->
  (0 < height img)%Z ->
  (height img * 384 < width img)%Z ->
  fileToGenericBase64 p (Some f) = Resolved "data:,"
  /\ nth_error (user_parts (sheetRequest role_ "data:," style_ motion category ref)) 1
     = Some (Inline {| mimeType := "image/jpeg"; data := Some EmptyString |}).
Proof.
  intros Hurl Hload Hctx Hpaints Hh Hthin. split; [| reflexivity].
  unfold fileToGenericBase64, resizeImage. rewrite Hurl, Hload, Hctx, Hpaints.
  cbn [negb try_catch]. f_equal. unfold scaledToDataURL.
  assert (Hzero : scaledHeight (resizeCanvas img 384) = 0%Z).
  { unfold resizeCanvas, resizedSize. cbn [scaledHeight].
    assert (Hw : inject_Z (height img) * 384 < inject_Z (width img)).
    { rewrite Zlt_Qlt, inject_Z_mult in Hthin. exact Hthin. }
    assert (Hh' : 1 <= inject_Z (height img)).
    { assert (H1 : (1 <= height img)%Z) by lia. rewrite Zle_Qle in H1. exact H1. }
    replace (Qgtb (inject_Z (width img)) (inject_Z (height img))) with true.
    2:{ symmetry. unfold Qgtb. apply negb_true_iff.
        destruct (Qle_bool _ _) eqn:E; [| reflexivity]. apply Qle_bool_iff in E. lra. }
    replace (Qgtb (inject_Z (width img)) 384) with true.
    2:{ symmetry. unfold Qgtb. apply negb_true_iff.
        destruct (Qle_bool _ _) eqn:E; [| reflexivity]. apply Qle_bool_iff in E. lra. }
    cbn [snd].
    assert (Hpos : 0 < inject_Z (width img)) by lra.
    assert (Hlt : inject_Z (height img) * (384 / inject_Z (width img)) < 1).
    { assert (E : inject_Z (height img) * (384 / inject_Z (width img))
                  == inject_Z (height img) * 384 / inject_Z (width img)) by (field; lra).
      assert (Hq : inject_Z (height img) * 384 / inject_Z (width img) < 1)
        by (apply Qlt_shift_div_r; lra).
      lra. }
    assert (Hge : 0 <= inject_Z (height img) * (384 / inject_Z (width img))).
    { apply Qmult_le_0_compat; [lra |]. apply Qle_shift_div_l; lra. }
    pose proof (Qfloor_le (inject_Z (height img) * (384 / inject_Z (width img)))) as F1.
    pose proof (Qfloor_resp_le _ _ Hge) as F2. change (Qfloor 0) with 0%Z in F2.
    assert (F3 : (Qfloor (inject_Z (height img) * (384 / inject_Z (width img))) < 1)%Z).
    { rewrite Zlt_Qlt. change (inject_Z 1) with 1. lra. }
    lia. }
  rewrite Hzero. rewrite orb_true_r. reflexivity.
Qed.

Lemma thin_image_is_uploaded_empty_witness :
  fileToGenericBase64 UploadSample.page (Some UploadSample.banner) = Resolved "data:,".
Proof.
  apply (thin_image_is_uploaded_empty UploadSample.page UploadSample.banner
           "blob:banner.png" {| src := "blob:banner.png"; width := 2000; height := 4 |}
           base "anime" "dance" CHARACTER None);
    try reflexivity; cbn; lia.
Defined.


Local Close Scope Q_scope.

(** ** More on the generation unit *)

Lemma processFrame_cell b role_ category frameData i group :
  (i < 16)%nat ->
  processFrame b role_ category 4 frameData i = Resolved group ->
  map pose group = cellPoses role_ category i
  /\ Forall (fun f => role f = Some role_) group
  /\ Forall (fun f => type f = closeup -> category = CHARACTER /\ energy f = high) group.
Proof.
  intros Hi. unfold processFrame.
  do 16 (destruct i as [|i];
         [ destruct role_, category; cbn -[mirrorFrame Qgtb];
           try destruct (Qgtb _ _); cbn -[mirrorFrame];
           try destruct (mirrorFrame b frameData) as [mirrored | |]; cbn;
           intros H; try discriminate; injection H as <-;
           (split; [reflexivity |]);
           split; repeat constructor; cbn; intros; first [discriminate | split; reflexivity]
         |]).
  lia.
Qed.

(** The groups of a sheet that was generated, each the result of
    [processFrame] on its cell. *)
Lemma generateSingleSheet_groups b ai role_ img style_ motion category ref r payload :
  snd (generateSingleSheet b ai role_ img style_ motion category ref) = Resolved r ->
  sheetBase64 r = Some payload ->
  exists groups,
    frames r = concat groups
    /\ length groups = 16%nat
    /\ forall i group, nth_error groups i = Some group ->
       exists frameData, processFrame b role_ category 4 frameData i = Resolved group.
Proof.
  intros Hcall Hsheet.
  destruct (generateSingleSheet_success _ _ _ _ _ _ _ _ _ _ Hcall Hsheet)
    as (rawFrames & groups & Hslice & Hall & Hframes).
  pose proof (sliceSpriteSheet_16 _ _ _ Hslice) as Hlen.
  apply all_resolved in Hall.
  assert (Hglen : length groups = length rawFrames).
  { apply (f_equal (@length _)) in Hall. rewrite length_map in Hall.
    rewrite <- Hall. unfold mapi.
    assert (G : forall k (l : list string),
               length (mapi_from k (processFrame b role_ category 4) l) = length l).
    { intros k l. revert k. induction l as [|x l IH]; intros k; simpl; [reflexivity|].
      rewrite IH. reflexivity. }
    apply G. }
  exists groups. split; [exact Hframes |]. split; [lia |].
  intros i group Hi.
  assert (Hi' : nth_error (map Resolved groups) i = Some (Resolved group)).
  { rewrite nth_error_map, Hi. reflexivity. }
  rewrite <- Hall in Hi'. unfold mapi in Hi'. rewrite mapi_from_nth_error in Hi'.
  destruct (nth_error rawFrames i) as [frameData |]; [| discriminate].
  cbn [option_map] in Hi'. injection Hi' as Hgroup. exists frameData. exact Hgroup.
Qed.

Lemma generated_sheet_cells b ai role_ img style_ motion category ref r payload :
  snd (generateSingleSheet b ai role_ img style_ motion category ref) = Resolved r ->
  sheetBase64 r = Some payload ->
  map pose (frames r) = sheetPoses role_ category
  /\ Forall (fun f => role f = Some role_) (frames r)
  /\ Forall (fun f => type f = closeup -> category = CHARACTER /\ energy f = high)
            (frames r).
Proof.
  intros Hcall Hsheet.
  destruct (generateSingleSheet_groups _ _ _ _ _ _ _ _ _ _ Hcall Hsheet)
    as (groups & -> & Hlen & Hgroups).
  assert (Hcell : forall i group, nth_error groups i = Some group ->
            map pose group = cellPoses role_ category i
            /\ Forall (fun f => role f = Some role_) group
            /\ Forall (fun f => type f = closeup ->
                                category = CHARACTER /\ energy f = high) group).
  { intros i group Hi. destruct (Hgroups i group Hi) as [frameData Hp].
    apply (processFrame_cell b role_ category frameData i group); [| exact Hp].
    rewrite <- Hlen. apply nth_error_Some. congruence. }
  split; [| split].
  - unfold sheetPoses. rewrite concat_map. f_equal.
    apply nth_error_ext. intros i. rewrite !nth_error_map, nth_error_seq.
    destruct (nth_error groups i) as [group |] eqn:Hi.
    + assert (Hlt : (i < 16)%nat) by (rewrite <- Hlen; apply nth_error_Some; congruence).
      apply Nat.ltb_lt in Hlt. rewrite Hlt. cbn [option_map Nat.add]. f_equal.
      apply (Hcell i group Hi).
    + apply nth_error_None in Hi. rewrite Hlen in Hi.
      apply Nat.ltb_ge in Hi. rewrite Hi. reflexivity.
  - apply Forall_concat. apply List.Forall_forall. intros group Hin.
    apply In_nth_error in Hin as [i Hi]. apply (Hcell i group Hi).
  - apply Forall_concat. apply List.Forall_forall. intros group Hin.
    apply In_nth_error in Hin as [i Hi]. apply (Hcell i group Hi).
Qed.

Lemma sheetPoses_NoDup role_ category : List.NoDup (sheetPoses role_ category).
Proof.
  destruct role_, category; apply NoDup_ListNoDup; apply (bool_decide_unpack _); vm_compute; exact I.
Qed.

Lemma sheetPoses_length role_ category :
  length (sheetPoses role_ category) = (if is_CHARACTER category then 24 else 16)%nat.
Proof. destruct role_, category; reflexivity. Qed.


(** X6. A sheet that was generated has 24 frames for CHARACTER (16 cells and
    the 8 mirrors) and 16 for TEXT and SYMBOL; no two of its frames share a
    pose; every frame carries the role of the sheet; and a closeup is a
    high-energy frame of a CHARACTER sheet. *)
Theorem generated_sheet_census b ai role_ img style_ motion category ref r payload :
  snd (generateSingleSheet b ai role_ img style_ motion category ref) = Resolved r ->
  sheetBase64 r = Some payload ->
  length (frames r) = (if is_CHARACTER category then 24 else 16)%nat
  /\ List.NoDup (map pose (frames r))
  /\ Forall (fun f => role f = Some role_) (frames r)
  /\ Forall (fun f => type f = closeup -> category = CHARACTER /\ energy f = high)
            (frames r).
Proof.
  intros Hcall Hsheet.
  destruct (generated_sheet_cells _ _ _ _ _ _ _ _ _ _ Hcall Hsheet) as (Hposes & Hrole & Hclose).
  split; [| split; [| split]]; try assumption.
  - rewrite <- (length_map pose), Hposes. apply sheetPoses_length.
  - rewrite Hposes. apply sheetPoses_NoDup.
Qed.

Lemma generated_sheet_census_witness :
  exists r,
    snd (generateSingleSheet Sample.browser Sample.ai_ok alt "data:image/png;base64,AAAA"
           "anime" "dance" TEXT None) = Resolved r
    /\ length (frames r) = 16%nat.
Proof.
  destruct (snd (generateSingleSheet Sample.browser Sample.ai_ok alt
                   "data:image/png;base64,AAAA" "anime" "dance" TEXT None))
    as [r | |] eqn:E; [| vm_compute in E; discriminate ..].
  assert (Hs : sheetBase64 r = Some "SHEET1024").
  { vm_compute in E. injection E as <-. reflexivity. }
  destruct (generated_sheet_census Sample.browser Sample.ai_ok alt
              "data:image/png;base64,AAAA" "anime" "dance" TEXT None r "SHEET1024" E Hs)
    as (Hlen & _).
  exists r. split; [reflexivity | exact Hlen].
Defined.

(** ** More on the orchestration *)

Lemma appendExpansion_concat (results : list SheetResult) :
  forall allFrames,
    appendExpansion allFrames results = (allFrames ++ concat (map frames results))%list.
Proof.
  unfold appendExpansion. induction results as [| res results IH]; intros allFrames.
  - cbn. rewrite app_nil_r. reflexivity.
  - cbn [fold_left map concat]. rewrite IH.
    destruct (frames res) as [| f fs] eqn:E; cbn [length Nat.ltb Nat.leb].
    + reflexivity.
    + rewrite <- app_assoc. reflexivity.
Qed.

(** What a call that returns has gone through, by mode. *)
Lemma dance_resolved b ai img style_ motion useTurbo superMode explicit allFrames category :
  snd (generateDanceFrames b ai img style_ motion useTurbo superMode explicit)
  = Resolved (allFrames, category) ->
  let sheet role_ ref :=
    snd (generateSingleSheet b ai role_ img style_ motion
           (resolveCategory motion explicit) ref) in
  category = resolveCategory motion explicit
  /\ exists rb,
       sheet base None = Resolved rb
       /\ baseSucceeded rb = true
       /\ exists expansion,
            allFrames = (frames rb ++ concat (map frames expansion))%list
            /\ map Resolved expansion
               = (if superMode
                  then [sheet alt (Some (baseRef rb)); sheet flourish (Some (baseRef rb))]
                  else if useTurbo then []
                  else [sheet alt (Some (baseRef rb))]).
Proof.
  intros Hcall sheet. unfold generateDanceFrames in Hcall. fold (sheet base None) in Hcall.
  destruct (sheet base None) as [rb | e |] eqn:Hbase; try discriminate.
  destruct (baseSucceeded rb) eqn:Hok; [| discriminate]. cbn [negb] in Hcall.
  assert (Hret : forall l c,
             returnFrames l c = Resolved (allFrames, category) ->
             l = allFrames /\ c = category).
  { intros l c. unfold returnFrames. destruct (length l =? 0)%nat; [discriminate |].
    intros H. injection H as <- <-. split; reflexivity. }
  destruct superMode; [| destruct useTurbo];
    cbn [negb length Nat.ltb Nat.leb map fst snd JS.all] in Hcall.
  - fold (sheet alt (Some (baseRef rb))) in Hcall.
    fold (sheet flourish (Some (baseRef rb))) in Hcall.
    destruct (sheet alt (Some (baseRef rb))) as [ra | e |] eqn:Ha;
      destruct (sheet flourish (Some (baseRef rb))) as [rf | e' |] eqn:Hf;
      cbn [snd] in Hcall; try discriminate.
    apply Hret in Hcall as [<- <-]. split; [reflexivity |].
    exists rb. split; [first [exact Hbase | reflexivity] |].
    split; [first [exact Hok | reflexivity] |]. exists [ra; rf].
    split; [apply appendExpansion_concat |].
    first [reflexivity | rewrite ?Ha, ?Hf; reflexivity].
  - cbn [snd] in Hcall. apply Hret in Hcall as [<- <-]. split; [reflexivity |].
    exists rb. split; [first [exact Hbase | reflexivity] |].
    split; [first [exact Hok | reflexivity] |]. exists [].
    split; [cbn; rewrite app_nil_r; reflexivity | reflexivity].
  - fold (sheet alt (Some (baseRef rb))) in Hcall.
    destruct (sheet alt (Some (baseRef rb))) as [ra | e |] eqn:Ha; cbn [snd] in Hcall;
      try discriminate.
    apply Hret in Hcall as [<- <-]. split; [reflexivity |].
    exists rb. split; [first [exact Hbase | reflexivity] |].
    split; [first [exact Hok | reflexivity] |]. exists [ra].
    split; [apply appendExpansion_concat |].
    first [reflexivity | rewrite ?Ha, ?Hf; reflexivity].
Qed.

(** X7. The frames [generateDanceFrames] returns are the frames of the base
    sheet followed by those of the alt sheet and then of the flourish sheet,
    as far as the mode asks for them; a sheet that failed adds nothing; and
    the category returned is the one resolved from the arguments. *)
Theorem dance_frames_in_sheet_order b ai img style_ motion useTurbo superMode explicit
    allFrames category :
  snd (generateDanceFrames b ai img style_ motion useTurbo superMode explicit)
  = Resolved (allFrames, category) ->
  let sheet role_ ref :=
    snd (generateSingleSheet b ai role_ img style_ motion
           (resolveCategory motion explicit) ref) in
  category = resolveCategory motion explicit
  /\ exists rb,
       sheet base None = Resolved rb
       /\ frames rb <> []
       /\ exists expansion,
            allFrames = (frames rb ++ concat (map frames expansion))%list
            /\ map Resolved expansion
               = (if superMode
                  then [sheet alt (Some (baseRef rb)); sheet flourish (Some (baseRef rb))]
                  else if useTurbo then []
                  else [sheet alt (Some (baseRef rb))]).
Proof.
  intros Hcall sheet.
  pose proof (dance_resolved _ _ _ _ _ _ _ _ _ _ Hcall) as H. cbv zeta in H.
  destruct H as (Hcat & rb & Hbase & Hok & Hexp).
  split; [exact Hcat |]. exists rb. split; [exact Hbase |]. split; [| exact Hexp].
  unfold baseSucceeded in Hok. apply negb_true_iff in Hok.
  apply orb_false_iff in Hok as [Hlen _]. apply length_zero_nonempty. exact Hlen.
Qed.

Lemma dance_frames_in_sheet_order_witness :
  exists allFrames,
    snd (generateDanceFrames Sample.browser Sample.ai_ok "data:image/png;base64,AAAA"
           "anime" "a spinning logo" false false None)
    = Resolved (allFrames, SYMBOL)
    /\ length allFrames = 32%nat.
Proof.
  destruct (snd (generateDanceFrames Sample.browser Sample.ai_ok
                   "data:image/png;base64,AAAA" "anime" "a spinning logo" false false None))
    as [[allFrames category] | |] eqn:E; [| vm_compute in E; discriminate ..].
  pose proof (dance_frames_in_sheet_order _ _ _ _ _ _ _ _ _ _ E) as H.
  cbv zeta in H. destruct H as (Hcat & _).
  exists allFrames. split.
  - rewrite Hcat. reflexivity.
  - vm_compute in E. injection E as <- _. reflexivity.
Defined.

(** X8. [generateDanceFrames] is rejected for one reason only: the base
    sheet came back without frames or without sheet image. The error of the
    last statement, "Generation produced no valid frames.", is never
    raised. *)
Theorem dance_is_rejected_for_the_base_only b ai img style_ motion useTurbo superMode
    explicit e :
  snd (generateDanceFrames b ai img style_ motion useTurbo superMode explicit) = Rejected e ->
  e = "Base generation failed."
  /\ exists rb,
       snd (generateSingleSheet b ai base img style_ motion
              (resolveCategory motion explicit) None) = Resolved rb
       /\ baseSucceeded rb = false.
Proof.
  intros Hcall.
  destruct (snd (generateSingleSheet b ai base img style_ motion
                   (resolveCategory motion explicit) None)) as [rb | e' |] eqn:Hbase.
  - destruct (baseSucceeded rb) eqn:Hok.
    + pose proof (base_success_is_never_rejected b ai img style_ motion useTurbo superMode
                    explicit rb Hbase Hok) as H. rewrite Hcall in H. destruct H.
    + rewrite (dance_base_failed b ai img style_ motion explicit useTurbo superMode rb
                 Hbase Hok) in Hcall. cbn [snd] in Hcall. injection Hcall as <-.
      split; [reflexivity |]. exists rb.
      split; [first [exact Hbase | reflexivity] | first [exact Hok | reflexivity]].
  - destruct (generateSingleSheet_never_rejects _ _ _ _ _ _ _ _ _ Hbase).
  - unfold generateDanceFrames in Hcall. rewrite Hbase in Hcall. discriminate.
Qed.

Lemma dance_is_rejected_for_the_base_only_witness :
  "Base generation failed." = "Base generation failed."
  /\ exists rb,
       snd (generateSingleSheet Sample.browser Sample.ai_down base
              "data:image/png;base64,AAAA" "anime" "dance" CHARACTER None) = Resolved rb
       /\ baseSucceeded rb = false.
Proof.
  apply (dance_is_rejected_for_the_base_only Sample.browser Sample.ai_down
           "data:image/png;base64,AAAA" "anime" "dance" true false None).
  reflexivity.
Defined.

Lemma sheet_poses_or_none b ai role_ img style_ motion category ref r :
  snd (generateSingleSheet b ai role_ img style_ motion category ref) = Resolved r ->
  map pose (frames r) = [] \/ map pose (frames r) = sheetPoses role_ category.
Proof.
  intros Hcall. destruct (sheetBase64 r) as [payload |] eqn:Hsheet.
  - right. apply (generated_sheet_cells _ _ _ _ _ _ _ _ _ _ Hcall Hsheet).
  - left. rewrite (generateSingleSheet_failure _ _ _ _ _ _ _ _ _ Hcall Hsheet). reflexivity.
Qed.

(** X9. No two frames that [generateDanceFrames] returns share a pose, in
    any mode and category: every frame has a key of its own in the pose map
    of the preview. *)
Theorem dance_poses_are_distinct b ai img style_ motion useTurbo superMode explicit
    allFrames category :
  snd (generateDanceFrames b ai img style_ motion useTurbo superMode explicit)
  = Resolved (allFrames, category) ->
  List.NoDup (map pose allFrames).
Proof.
  intros Hcall.
  pose proof (dance_resolved _ _ _ _ _ _ _ _ _ _ Hcall) as H. cbv zeta in H.
  destruct H as (-> & rb & Hbase & Hok & expansion & -> & Hexp).
  rewrite map_app, concat_map, map_map.
  destruct (sheet_poses_or_none _ _ _ _ _ _ _ _ _ Hbase) as [Hb | Hb].
  { unfold baseSucceeded in Hok. apply negb_true_iff in Hok.
    apply orb_false_iff in Hok as [Hlen _].
    destruct (frames rb); [discriminate Hlen | discriminate Hb]. }
  rewrite Hb.
  destruct superMode; [| destruct useTurbo].
  - destruct expansion as [| ra [| rf [|]]]; try discriminate Hexp.
    cbn [map] in Hexp. injection Hexp as Ha Hf. symmetry in Ha, Hf.
    cbn [map concat].
    destruct (sheet_poses_or_none _ _ _ _ _ _ _ _ _ Ha) as [-> | ->];
      destruct (sheet_poses_or_none _ _ _ _ _ _ _ _ _ Hf) as [-> | ->];
      destruct (resolveCategory motion explicit);
      apply NoDup_ListNoDup; apply (bool_decide_unpack _); vm_compute; exact I.
  - destruct expansion; [| discriminate Hexp]. cbn [map concat].
    destruct (resolveCategory motion explicit);
      apply NoDup_ListNoDup; apply (bool_decide_unpack _); vm_compute; exact I.
  - destruct expansion as [| ra [|]]; try discriminate Hexp.
    cbn [map] in Hexp. injection Hexp as Ha. symmetry in Ha.
    cbn [map concat].
    destruct (sheet_poses_or_none _ _ _ _ _ _ _ _ _ Ha) as [-> | ->];
      destruct (resolveCategory motion explicit);
      apply NoDup_ListNoDup; apply (bool_decide_unpack _); vm_compute; exact I.
Qed.

Lemma dance_poses_are_distinct_witness :
  exists allFrames,
    snd (generateDanceFrames Sample.browser Sample.ai_ok "data:image/png;base64,AAAA"
           "anime" "dance" false true None)
    = Resolved (allFrames, CHARACTER)
    /\ List.NoDup (map pose allFrames).
Proof.
  destruct (snd (generateDanceFrames Sample.browser Sample.ai_ok
                   "data:image/png;base64,AAAA" "anime" "dance" false true None))
    as [[allFrames category] | |] eqn:E; [| vm_compute in E; discriminate ..].
  pose proof (dance_poses_are_distinct _ _ _ _ _ _ _ _ _ _ E) as Hnodup.
  exists allFrames. split; [| exact Hnodup].
  vm_compute in E. injection E as <- <-. reflexivity.
Defined.

(** ** The pose map *)

Lemma loadPoseImages_skip b (l : list GeneratedFrame) (p : string) :
  forall m : gmap string Image,
    Forall (fun f => pose f <> p) l ->
    fold_left
      (fun newMap f =>
         match load b (url f) with
         | Some img => <[pose f := img]> newMap
         | None => newMap
         end) l m !! p = m !! p.
Proof.
  induction l as [| g l IH]; intros m Hall; cbn [fold_left]; [reflexivity |].
  inversion Hall as [| ? ? Hg Hrest]; subst. rewrite (IH _ Hrest).
  destruct (load b (url g)); [| reflexivity]. apply lookup_insert_ne. exact Hg.
Qed.

Lemma loadPoseImages_member b (l : list GeneratedFrame) :
  forall (m : gmap string Image) f,
    List.NoDup (map pose l) ->
    In f l ->
    fold_left
      (fun newMap f =>
         match load b (url f) with
         | Some img => <[pose f := img]> newMap
         | None => newMap
         end) l m !! pose f
    = match load b (url f) with
      | Some img => Some img
      | None => m !! pose f
      end.
Proof.
  induction l as [| g l IH]; intros m f Hnd Hin; [destruct Hin |].
  cbn [map] in Hnd. inversion Hnd as [| ? ? Hfresh Hnd']; subst.
  cbn [fold_left]. destruct Hin as [<- | Hin].
  - rewrite loadPoseImages_skip.
    + destruct (load b (url g)); [apply lookup_insert_eq | reflexivity].
    + apply List.Forall_forall. intros f Hf Heq. apply Hfresh. rewrite <- Heq.
      apply in_map. exact Hf.
  - rewrite (IH _ f Hnd' Hin).
    destruct (load b (url f)); [reflexivity |].
    destruct (load b (url g)); [| reflexivity].
    apply lookup_insert_ne. intros Heq. apply Hfresh. rewrite Heq. apply in_map. exact Hin.
Qed.

(** X10. When no two frames share a pose (as in every list that
    [generateDanceFrames] returns), the pose map holds under the pose of each
    frame exactly what loading its url gave, and nothing under any other
    key; the order in which the images report does not change the map. *)
Theorem pose_map_of_distinct_poses b (toLoad : list GeneratedFrame) :
  List.NoDup (map pose toLoad) ->
  (forall f, In f toLoad -> loadPoseImages b toLoad !! pose f = load b (url f))
  /\ (forall p, ~ In p (map pose toLoad) -> loadPoseImages b toLoad !! p = None)
  /\ (forall reported, Permutation toLoad reported ->
        loadPoseImages b reported = loadPoseImages b toLoad).
Proof.
  intros Hnd.
  assert (Hmember : forall l f, List.NoDup (map pose l) -> In f l ->
            loadPoseImages b l !! pose f = load b (url f)).
  { intros l f Hl Hin. unfold loadPoseImages. rewrite (loadPoseImages_member b l ∅ f Hl Hin).
    destruct (load b (url f)); [reflexivity | apply lookup_empty]. }
  assert (Hother : forall l p, ~ In p (map pose l) -> loadPoseImages b l !! p = None).
  { intros l p Hp. apply loadPoseImages_lookup. apply List.Forall_forall.
    intros f Hf Heq. apply Hp. rewrite <- Heq. apply in_map. exact Hf. }
  split; [| split].
  - intros f Hin. apply Hmember; assumption.
  - intros p Hp. apply Hother. exact Hp.
  - intros reported Hperm. apply map_eq. intros p.
    assert (Hnd' : List.NoDup (map pose reported)).
    { eapply Permutation_NoDup; [apply Permutation_map; exact Hperm | exact Hnd]. }
    destruct (in_dec string_dec p (map pose toLoad)) as [Hin | Hout].
    + apply in_map_iff in Hin as (f & <- & Hf).
      rewrite (Hmember toLoad f Hnd Hf).
      apply Hmember; [exact Hnd' |]. eapply Permutation_in; eassumption.
    + rewrite (Hother toLoad p Hout). apply Hother. intros Hin. apply Hout.
      eapply Permutation_in; [apply Permutation_map, Permutation_sym; exact Hperm | exact Hin].
Qed.

Lemma pose_map_of_distinct_poses_witness :
  let f0 := {| url := "jpeg:a"; pose := "base_0"; energy := low; type := body;
               role := Some base |} in
  let f1 := {| url := "lost"; pose := "base_1"; energy := low; type := body;
               role := Some base |} in
  loadPoseImages Sample.browser [f1; f0] = loadPoseImages Sample.browser [f0; f1]
  /\ loadPoseImages Sample.browser [f0; f1] !! "base_1" = None.
Proof.
  intros f0 f1.
  destruct (pose_map_of_distinct_poses Sample.browser [f0; f1]) as (Hmember & _ & Horder).
  - apply NoDup_ListNoDup. apply (bool_decide_unpack _). vm_compute. exact I.
  - split.
    + apply Horder. apply perm_swap.
    + apply (Hmember f1). right. left. reflexivity.
Defined.

(** ** What a request carries *)

Lemma split_aux_first_segment s t acc :
  includes s "," = false ->
  split_aux "," acc (s ++ String "," t) = (acc ++ s)%string :: split_aux "," EmptyString t.
Proof.
  revert acc. induction s as [| c s IH]; intros acc H.
  - cbn. rewrite append_empty_r. reflexivity.
  - rewrite includes_comma_cons in H. apply orb_false_iff in H as [Hc Hs].
    rewrite append_cons. cbn [split_aux]. rewrite Hc. rewrite (IH _ Hs), append_assoc.
    reflexivity.
Qed.

Lemma split_aux_no_comma s acc :
  includes s "," = false -> split_aux "," acc s = [(acc ++ s)%string].
Proof.
  revert acc. induction s as [| c s IH]; intros acc H.
  - cbn. rewrite append_empty_r. reflexivity.
  - rewrite includes_comma_cons in H. apply orb_false_iff in H as [Hc Hs].
    cbn [split_aux]. rewrite Hc. rewrite (IH _ Hs), append_assoc. reflexivity.
Qed.

(** X11. The subject image reaches the request as the part of its data URL
    behind the comma: a data URL with a comma-free header and payload is sent
    as its payload, and an image given without a header (no comma at all) is
    sent with no data. *)
Theorem subject_payload role_ style_ motion category ref :
  (forall header payload,
     includes header "," = false -> includes payload "," = false ->
     nth_error (user_parts (sheetRequest role_ (header ++ "," ++ payload) style_ motion
                              category ref)) 1
     = Some (Inline {| mimeType := "image/jpeg"; data := Some payload |}))
  /\ (forall bare,
        includes bare "," = false ->
        nth_error (user_parts (sheetRequest role_ bare style_ motion category ref)) 1
        = Some (Inline {| mimeType := "image/jpeg"; data := None |})).
Proof.
  split.
  - intros header payload Hh Hp. unfold sheetRequest. cbn [user_parts app nth_error].
    do 3 f_equal. unfold split_comma_1, split.
    change (header ++ "," ++ payload)%string with (header ++ String "," payload)%string.
    rewrite (split_aux_first_segment _ _ _ Hh), (split_aux_no_comma _ _ Hp). reflexivity.
  - intros bare Hb. unfold sheetRequest. cbn [user_parts app nth_error].
    do 3 f_equal. unfold split_comma_1, split.
    rewrite (split_aux_no_comma _ _ Hb). reflexivity.
Qed.

(** X12. The style reference: a reference without a comma is sent as it
    is, as the third part of the request; the empty string counts as no
    reference (two parts, the prompt without the consistency instruction). *)
Theorem reference_payload role_ img style_ motion category :
  (forall ref,
     includes ref "," = false -> ref <> EmptyString ->
     let q := sheetRequest role_ img style_ motion category (Some ref) in
     reference q = Some ref /\ length (user_parts q) = 3%nat)
  /\ sheetRequest role_ img style_ motion category (Some EmptyString)
     = sheetRequest role_ img style_ motion category None
  /\ length (user_parts (sheetRequest role_ img style_ motion category None)) = 2%nat.
Proof.
  split; [| split; reflexivity].
  intros ref Hc Hne q. unfold q, reference, sheetRequest.
  assert (Ht : truthy (Some ref) = true).
  { cbn [truthy]. destruct ref; [congruence | reflexivity]. }
  rewrite Ht, Hc. split; reflexivity.
Qed.

(** ** More on the slicer *)

Local Open Scope Q_scope.

Lemma sliceCell_rect img rows cols r c :
  sourceRect (sliceCell img rows cols r c)
  = (let size := inject_Z (Z.min (width img) (height img)) in
     ((inject_Z (width img) - size) / 2
      + inject_Z (Z.of_nat c) * (size / inject_Z (Z.of_nat cols))
      + size / inject_Z (Z.of_nat cols) * insetFactor,
      (inject_Z (height img) - size) / 2
      + inject_Z (Z.of_nat r) * (size / inject_Z (Z.of_nat rows))
      + size / inject_Z (Z.of_nat rows) * insetFactor,
      size / inject_Z (Z.of_nat cols) * (1 - 2 * insetFactor),
      size / inject_Z (Z.of_nat rows) * (1 - 2 * insetFactor))).
Proof. reflexivity. Qed.

(** One axis of the grid: cell [i] of [n], cut from a square of side [size]
    that starts at [(full - size) / 2]. *)
Lemma cell_axis (full size : Q) (n i : nat) :
  0 <= size -> size <= full -> (i < n)%nat ->
  let cell := size / inject_Z (Z.of_nat n) in
  let start := (full - size) / 2 + inject_Z (Z.of_nat i) * cell + cell * insetFactor in
  let extent := cell * (1 - 2 * insetFactor) in
  0 <= start /\ 0 <= extent /\ start + extent <= full
  /\ start + extent
     <= (full - size) / 2 + inject_Z (Z.of_nat (S i)) * cell + cell * insetFactor.
Proof.
  intros Hsize Hfull Hi cell start extent.
  assert (Hn : 0 < inject_Z (Z.of_nat n)).
  { change 0 with (inject_Z 0). rewrite <- Zlt_Qlt. lia. }
  assert (Hi0 : 0 <= inject_Z (Z.of_nat i)).
  { change 0 with (inject_Z 0). rewrite <- Zle_Qle. lia. }
  assert (Hi1 : inject_Z (Z.of_nat i) + 1 <= inject_Z (Z.of_nat n)).
  { change 1 with (inject_Z 1). rewrite <- inject_Z_plus, <- Zle_Qle. lia. }
  assert (HS : inject_Z (Z.of_nat (S i)) == inject_Z (Z.of_nat i) + 1).
  { rewrite Nat2Z.inj_succ. unfold Z.succ. rewrite inject_Z_plus. reflexivity. }
  assert (Hcell : 0 <= cell) by (apply Qle_shift_div_l; lra).
  assert (Hwhole : cell * inject_Z (Z.of_nat n) == size) by (unfold cell; field; lra).
  unfold start, extent, insetFactor.
  assert (Hic : 0 <= inject_Z (Z.of_nat i) * cell) by (apply Qmult_le_0_compat; assumption).
  assert (Hup : inject_Z (Z.of_nat i) * cell + cell <= size).
  { assert (H1 : (inject_Z (Z.of_nat i) + 1) * cell <= inject_Z (Z.of_nat n) * cell).
    { apply Qmult_le_compat_r; assumption. }
    lra. }
  assert (Hoff : (full - size) / 2 * 2 == full - size) by field.
  revert Hoff. generalize ((full - size) / 2). intros off Hoff.
  revert HS. generalize (inject_Z (Z.of_nat (S i))). intros si HS.
  assert (Hs : si * cell == inject_Z (Z.of_nat i) * cell + cell).
  { rewrite HS. ring. }
  repeat split; lra.
Qed.

(** X13. Every cell the slicer cuts lies inside the sheet, for any grid and
    any sheet: its source rectangle starts at a non-negative offset and ends
    within the width and the height of the image; and it ends before the
    next cell of its row, and of its column, begins. *)
Theorem cells_lie_inside_the_sheet img rows cols r c :
  (0 <= width img)%Z -> (0 <= height img)%Z -> (r < rows)%nat -> (c < cols)%nat ->
  let '(sx, sy, sw, sh) := sourceRect (sliceCell img rows cols r c) in
  let '(sx', _, _, _) := sourceRect (sliceCell img rows cols r (S c)) in
  let '(_, sy', _, _) := sourceRect (sliceCell img rows cols (S r) c) in
  (0 <= sx /\ 0 <= sw /\ sx + sw <= inject_Z (width img))
  /\ (0 <= sy /\ 0 <= sh /\ sy + sh <= inject_Z (height img))
  /\ sx + sw <= sx'
  /\ sy + sh <= sy'.
Proof.
  intros Hw Hh Hr Hc. rewrite !sliceCell_rect. cbv zeta.
  set (size := inject_Z (Z.min (width img) (height img))).
  assert (Hsize : 0 <= size).
  { unfold size. change 0 with (inject_Z 0). rewrite <- Zle_Qle. lia. }
  assert (Hsw : size <= inject_Z (width img)).
  { unfold size. rewrite <- Zle_Qle. lia. }
  assert (Hsh : size <= inject_Z (height img)).
  { unfold size. rewrite <- Zle_Qle. lia. }
  pose proof (cell_axis (inject_Z (width img)) size cols c Hsize Hsw Hc) as Hx.
  pose proof (cell_axis (inject_Z (height img)) size rows r Hsize Hsh Hr) as Hy.
  cbv zeta in Hx, Hy.
  destruct Hx as (Hx1 & Hx2 & Hx3 & Hx4). destruct Hy as (Hy1 & Hy2 & Hy3 & Hy4).
  repeat split; assumption.
Qed.

Lemma cells_lie_inside_the_sheet_witness :
  let img := {| src := "data:image/jpeg;base64,WIDE"; width := 1000; height := 600 |} in
  let '(sx, sy, sw, sh) := sourceRect (sliceCell img 4 4 3 3) in
  sx + sw <= 1000 /\ sy + sh <= 600.
Proof.
  pose proof (cells_lie_inside_the_sheet
                {| src := "data:image/jpeg;base64,WIDE"; width := 1000; height := 600 |}
                4 4 3 3) as H.
  cbn [width height] in H. rewrite !sliceCell_rect in *. cbv zeta in *.
  destruct H as ((_ & _ & Hx) & (_ & _ & Hy) & _); try lia.
  split; assumption.
Defined.

Lemma sliceCells_length img rows cols :
  length (sliceCells img rows cols) = (rows * cols)%nat.
Proof.
  unfold sliceCells.
  assert (G : forall (f : nat -> nat -> Canvas) l,
             length (flat_map (fun r => map (f r) (seq 0%nat cols)) l)
             = (length l * cols)%nat).
  { intros f l. induction l as [| r l IH]; [reflexivity |].
    cbn [flat_map length]. rewrite length_app, length_map, length_seq, IH. reflexivity. }
  rewrite (G (fun r c => sliceCell img rows cols r c)), length_seq. reflexivity.
Qed.

(** X14. For any grid, a sheet that decodes is sliced into exactly
    rows * cols frames when a drawing context is there (none for an empty
    grid), and the slice is rejected when the sheet does not decode or the
    context is missing. *)
Theorem sliceSpriteSheet_outcomes b base64Image rows cols :
  match sliceSpriteSheet b base64Image rows cols with
  | Resolved frames_ =>
      length frames_ = (rows * cols)%nat
      /\ getContext2d b = true
      /\ exists img, load b base64Image = Some img
  | Rejected e =>
      (e = "error" /\ load b base64Image = None)
      \/ (e = "Canvas context failed" /\ getContext2d b = false)
  | Pending => False
  end.
Proof.
  unfold sliceSpriteSheet. destruct (load b base64Image) as [img |].
  - destruct (getContext2d b).
    + rewrite length_map, sliceCells_length. repeat split. exists img. reflexivity.
    + right. split; reflexivity.
  - left. split; reflexivity.
Qed.

Local Close Scope Q_scope.

(** ** More on the superseded version *)

Lemma processFrame_never_rejects b role_ category cols frameData i e :
  processFrame b role_ category cols frameData i <> Rejected e.
Proof.
  unfold processFrame.
  match goal with
  | |- context [if ?c then _ else _] => destruct c
  end; [| discriminate].
  rewrite mirrorFrame_outcome. destruct (load b frameData); cbn [await]; discriminate.
Qed.

(** X15. The loop of the superseded version, which awaits every mirror
    before it goes on to the next frame, ends as the [Promise.all] over the
    same frames does in the current version: with the same frames in the same
    order, or never. *)
Theorem superseded_loop_is_the_parallel_map b role_ category cols rawFrames i :
  Superseded.processFrames b role_ category cols rawFrames i
  = await (JS.all (mapi_from i (processFrame b role_ category cols) rawFrames))
      (fun nestedFrames => Resolved (concat nestedFrames)).
Proof.
  revert i. induction rawFrames as [| frameData rawFrames IH]; intros i.
  - reflexivity.
  - cbn [Superseded.processFrames mapi_from JS.all]. rewrite IH.
    pose proof (processFrame_never_rejects b role_ category cols frameData i) as Hnr.
    destruct (processFrame b role_ category cols frameData i) as [pushed | e |];
      [| destruct (Hnr e eq_refl) |].
    + cbn [await].
      destruct (JS.all (mapi_from (S i) (processFrame b role_ category cols) rawFrames));
        reflexivity.
    + cbn [await].
      destruct (JS.all (mapi_from (S i) (processFrame b role_ category cols) rawFrames))
        as [rest | e |] eqn:E; try reflexivity.
      exfalso. revert E. apply all_not_rejected.
      apply List.Forall_forall. intros p Hin e0 ->.
      apply In_nth_error in Hin as [k Hk]. rewrite mapi_from_nth_error in Hk.
      destruct (nth_error rawFrames k); [| discriminate].
      cbn [option_map] in Hk. injection Hk as Hk.
      exact (processFrame_never_rejects _ _ _ _ _ _ _ Hk).
Qed.

Lemma superseded_sheet_never_rejects b ai role_ img style_ motion category e :
  snd (Superseded.generateSingleSheet b ai role_ img style_ motion category) <> Rejected e.
Proof.
  unfold Superseded.generateSingleSheet. cbn [snd]. unfold try_catch.
  match goal with |- context [match ?body with _ => _ end] => destruct body end;
    discriminate.
Qed.

(** X16. The superseded [generateDanceFrames] sends one request without
    the super flag and two with it, all before it waits, none with a style
    reference; base and alt request are the same request; and the call is
    rejected for one reason only: no sheet gave a frame. *)
Theorem superseded_orchestration b ai img style_ motion useTurbo superMode explicit :
  let category := resolveCategory motion explicit in
  let call := Superseded.generateDanceFrames b ai img style_ motion useTurbo superMode
                explicit in
  let sheet role_ :=
    snd (Superseded.generateSingleSheet b ai role_ img style_ motion category) in
  length (requests (fst call)) = (if superMode then 2 else 1)%nat
  /\ Forall (fun q => reference (snd q) = None) (requests (fst call))
  /\ Superseded.sheetRequest alt img style_ motion category
     = Superseded.sheetRequest base img style_ motion category
  /\ match snd call with
     | Resolved (allFrames, category') =>
         category' = category /\ allFrames <> []
         /\ exists fb, sheet base = Resolved fb
            /\ if superMode
               then exists fa, sheet alt = Resolved fa /\ allFrames = (fb ++ fa)%list
               else allFrames = fb
     | Rejected e =>
         e = "Generation produced no valid frames."
         /\ sheet base = Resolved []
         /\ (superMode = true -> sheet alt = Resolved [])
     | Pending => sheet base = Pending \/ (superMode = true /\ sheet alt = Pending)
     end.
Proof.
  intros category call sheet.
  pose proof (superseded_sheet_never_rejects b ai base img style_ motion category) as Hb.
  pose proof (superseded_sheet_never_rejects b ai alt img style_ motion category) as Ha.
  assert (Qb : fst (Superseded.generateSingleSheet b ai base img style_ motion category)
               = [Superseded.sheetRequest base img style_ motion category])
    by reflexivity.
  assert (Qa : fst (Superseded.generateSingleSheet b ai alt img style_ motion category)
               = [Superseded.sheetRequest alt img style_ motion category])
    by reflexivity.
  assert (R : reference (Superseded.sheetRequest base img style_ motion category) = None)
    by reflexivity.
  assert (Same : Superseded.sheetRequest alt img style_ motion category
                 = Superseded.sheetRequest base img style_ motion category)
    by reflexivity.
  subst call sheet. unfold Superseded.generateDanceFrames. cbv zeta beta.
  fold category.
  destruct (Superseded.generateSingleSheet b ai base img style_ motion category)
    as [qb pb].
  destruct (Superseded.generateSingleSheet b ai alt img style_ motion category)
    as [qa pa].
  cbn [fst snd] in *. subst qb qa. rewrite Same in *.
  generalize dependent (Superseded.sheetRequest base img style_ motion category).
  intros q R.
  split; [| split; [| split]].
  - destruct superMode; cbn [map fst snd flat_map app JS.all];
      destruct pb; try destruct pa; reflexivity.
  - destruct superMode; cbn [map fst snd flat_map app JS.all];
      destruct pb; try destruct pa; cbn; repeat constructor; exact R.
  - reflexivity.
  - destruct superMode; cbn [map fst snd JS.all].
    + destruct pb as [fb | e |]; [| destruct (Hb e eq_refl) |];
        destruct pa as [fa | e |]; try (destruct (Ha e eq_refl)); cbn [snd].
      * unfold returnFrames. cbn [concat]. rewrite app_nil_r.
        destruct (fb ++ fa)%list eqn:E; cbn [length Nat.eqb].
        -- apply app_eq_nil in E as [-> ->]. repeat split; reflexivity.
        -- rewrite <- E. split; [reflexivity |]. split; [rewrite E; discriminate |].
           exists fb. split; [reflexivity |]. exists fa. split; reflexivity.
      * right. split; reflexivity.
      * left. reflexivity.
      * left. reflexivity.
    + destruct pb as [fb | e |]; [| destruct (Hb e eq_refl) |]; cbn [snd].
      * unfold returnFrames. cbn [concat]. rewrite app_nil_r.
        destruct fb eqn:E; cbn [length Nat.eqb].
        -- repeat split; first [reflexivity | discriminate].
        -- split; [reflexivity |]. split; [discriminate |].
           eexists. split; reflexivity.
      * left. reflexivity.
Qed.

(** ** The render loop *)

Import Animation.

Local Open Scope Q_scope.

Lemma Qgtb_le x y : x <= y -> Qgtb x y = false.
Proof.
  intros H. unfold Qgtb. apply negb_false_iff. apply Qle_bool_iff. exact H.
Qed.

Lemma Qltb_true x y : Qltb x y = true -> x < y.
Proof. unfold Qltb. intros H. apply negb_true_iff in H. apply Qle_bool_false. exact H. Qed.

Lemma Qltb_false x y : Qltb x y = false -> y <= x.
Proof. unfold Qltb. intros H. apply negb_false_iff in H. apply Qle_bool_iff. exact H. Qed.

Lemma min_cases x y : (x <= y /\ min x y = x) \/ (y < x /\ min x y = y).
Proof.
  unfold min. destruct (Qle_bool x y) eqn:E.
  - left. split; [apply Qle_bool_iff; exact E | reflexivity].
  - right. split; [apply Qle_bool_false; exact E | reflexivity].
Qed.

(** *** The choreography does not depend on the camera *)

(** Two directors that differ in their camera only. *)
Lemma beatHit_same s t d d' :
  rhythm d = rhythm d' -> transition d = transition d' -> brainState d = brainState d' ->
  rhythm (beatHit s t d) = rhythm (beatHit s t d')
  /\ transition (beatHit s t d) = transition (beatHit s t d')
  /\ brainState (beatHit s t d) = brainState (beatHit s t d').
Proof.
  destruct d, d'. cbn [rhythm transition brainState]. intros -> -> ->.
  repeat split; reflexivity.
Qed.

Lemma idleFallback_same s t d d' :
  rhythm d = rhythm d' -> transition d = transition d' -> brainState d = brainState d' ->
  rhythm (idleFallback s t d) = rhythm (idleFallback s t d')
  /\ transition (idleFallback s t d) = transition (idleFallback s t d')
  /\ brainState (idleFallback s t d) = brainState (idleFallback s t d').
Proof.
  destruct d, d'. cbn [rhythm transition brainState]. intros -> -> ->.
  repeat split; reflexivity.
Qed.

Lemma snare_same s t d d' :
  rhythm d = rhythm d' -> transition d = transition d' -> brainState d = brainState d' ->
  rhythm (snare s t d) = rhythm (snare s t d')
  /\ transition (snare s t d) = transition (snare s t d')
  /\ brainState (snare s t d) = brainState (snare s t d').
Proof.
  destruct d, d'. cbn [rhythm transition brainState]. intros -> -> ->.
  repeat split; reflexivity.
Qed.

Lemma burstCut_same s t d d' :
  rhythm d = rhythm d' -> transition d = transition d' -> brainState d = brainState d' ->
  rhythm (burstCut s t d) = rhythm (burstCut s t d')
  /\ transition (burstCut s t d) = transition (burstCut s t d')
  /\ brainState (burstCut s t d) = brainState (burstCut s t d').
Proof.
  destruct d, d'. cbn [rhythm transition brainState]. intros -> -> ->.
  repeat split; reflexivity.
Qed.

Lemma brain_same s t d d' :
  rhythm d = rhythm d' -> transition d = transition d' -> brainState d = brainState d' ->
  rhythm (brain s t d) = rhythm (brain s t d')
  /\ transition (brain s t d) = transition (brain s t d')
  /\ brainState (brain s t d) = brainState (brain s t d').
Proof.
  intros Hr Ht Hb. unfold brain.
  destruct (playing s); [| repeat split; assumption].
  assert (Gb : isBeatHit t d = isBeatHit t d')
    by (unfold isBeatHit, canSwitch, poseLockTime, isBurst; rewrite Hr; reflexivity).
  assert (Gi : isIdle t d = isIdle t d')
    by (unfold isIdle, canSwitch, poseLockTime, isBurst; rewrite Hr; reflexivity).
  assert (Gu : isBurst t d = isBurst t d') by (unfold isBurst; rewrite Hr; reflexivity).
  assert (Gc : canSwitch t d = canSwitch t d')
    by (unfold canSwitch, poseLockTime, isBurst; rewrite Hr; reflexivity).
  rewrite <- Gb, <- Gi, <- Gu, <- Gc.
  set (d1 := if isBeatHit t d then beatHit s t d
             else if isIdle t d then idleFallback s t d else d).
  set (d1' := if isBeatHit t d then beatHit s t d'
              else if isIdle t d then idleFallback s t d' else d').
  assert (H1 : rhythm d1 = rhythm d1' /\ transition d1 = transition d1'
               /\ brainState d1 = brainState d1').
  { unfold d1, d1'. destruct (isBeatHit t d); [apply beatHit_same; assumption |].
    destruct (isIdle t d); [apply idleFallback_same; assumption |].
    repeat split; assumption. }
  destruct H1 as (Hr1 & Ht1 & Hb1). rewrite <- Hr1.
  set (d2 := if isSnare t && Qgtb (time t - lastSnareTimeRef (rhythm d1)) 800
             then snare s t d1 else d1).
  set (d2' := if isSnare t && Qgtb (time t - lastSnareTimeRef (rhythm d1)) 800
              then snare s t d1' else d1').
  assert (H2 : rhythm d2 = rhythm d2' /\ transition d2 = transition d2'
               /\ brainState d2 = brainState d2').
  { unfold d2, d2'.
    destruct (isSnare t && Qgtb (time t - lastSnareTimeRef (rhythm d1)) 800);
      [apply snare_same; assumption | repeat split; assumption]. }
  destruct H2 as (Hr2 & Ht2 & Hb2).
  destruct (isBurst t d && canSwitch t d);
    [apply burstCut_same; assumption | repeat split; assumption].
Qed.

Lemma play_same sin imgs s ticks : forall st d,
  rhythm (director st) = rhythm d -> transition (director st) = transition d ->
  brainState (director st) = brainState d ->
  let after := director (fst (play sin imgs s ticks st)) in
  rhythm after = rhythm (run s ticks d)
  /\ transition after = transition (run s ticks d)
  /\ brainState after = brainState (run s ticks d).
Proof.
  induction ticks as [| t ticks IH]; intros st d Hr Ht Hb; cbn [play run fold_left fst].
  - repeat split; assumption.
  - destruct (brain_same s t (director st) d Hr Ht Hb) as (Hr' & Ht' & Hb').
    apply IH; cbn [animate fst director rhythm transition brainState]; assumption.
Qed.

(** X17. The physics and camera step never reaches into the choreography:
    the rhythm refs, the transition refs and the brain state after any
    number of frames of the whole loop are those the choreography step alone
    computes from the same ticks. *)
Theorem physics_leaves_the_choreography sin imgs s ticks :
  let after := director (fst (play sin imgs s ticks stage0)) in
  rhythm after = rhythm (run s ticks director0)
  /\ transition after = transition (run s ticks director0)
  /\ brainState after = brainState (run s ticks director0).
Proof. apply play_same; reflexivity. Qed.

(** *** The tear effect *)

Lemma brain_tear s t d :
  tearAmountRef (camera (brain s t d)) = tearAmountRef (camera d).
Proof.
  unfold brain. destruct (playing s); [| reflexivity].
  set (d1 := if isBeatHit t d then beatHit s t d
             else if isIdle t d then idleFallback s t d else d).
  assert (H1 : tearAmountRef (camera d1) = tearAmountRef (camera d)).
  { unfold d1. destruct (isBeatHit t d).
    - unfold beatHit. cbn [camera]. destruct (superCamActive s); reflexivity.
    - destruct (isIdle t d); reflexivity. }
  set (d2 := if isSnare t && Qgtb (time t - lastSnareTimeRef (rhythm d1)) 800
             then snare s t d1 else d1).
  assert (H2 : tearAmountRef (camera d2) = tearAmountRef (camera d)).
  { unfold d2.
    destruct (isSnare t && Qgtb (time t - lastSnareTimeRef (rhythm d1)) 800);
      [exact H1 | exact H1]. }
  destruct (isBurst t d && canSwitch t d); exact H2.
Qed.

Lemma physics_tear sin s dt bass_ mode phase cam :
  tearAmountRef cam == 0 ->
  tearAmountRef (snd (physics sin s dt bass_ mode phase cam)) == 0.
Proof.
  intros H. unfold physics. destruct (superCamActive s); cbn [snd tearAmountRef].
  - rewrite H. reflexivity.
  - exact H.
Qed.

Lemma renderFrame_without_tear imgs cam superCam pose_ opacity_ :
  tearAmountRef cam == 0 ->
  forall img i alpha,
    ~ In (drawImage img (Slice i) alpha) (renderFrame imgs cam superCam pose_ opacity_).
Proof.
  intros H img i alpha. unfold renderFrame.
  destruct (Qle_bool opacity_ 0.01); [intros [] |].
  destruct (bitmap imgs pose_) as [img0 |]; [| intros []].
  rewrite (Qgtb_le (tearAmountRef cam) 0.1) by (rewrite H; lra).
  rewrite !in_app_iff. intros [Hin | [Hin | Hin]].
  - destruct (superCam && Qgtb (moireAmountRef cam) 0.05); cbn in Hin;
      intuition discriminate.
  - cbn in Hin. intuition discriminate.
  - destruct (superCam && Qgtb (flashIntensityRef cam) 0.05); [| destruct Hin].
    destruct (Qgtb (flashIntensityRef cam) 0.5); cbn in Hin; intuition discriminate.
Qed.

Lemma play_without_tear sin imgs s ticks : forall st,
  tearAmountRef (camera (director st)) == 0 ->
  let after := play sin imgs s ticks st in
  tearAmountRef (camera (director (fst after))) == 0
  /\ Forall (fun ops => forall img i alpha, ~ In (drawImage img (Slice i) alpha) ops)
       (snd after).
Proof.
  induction ticks as [| t ticks IH]; intros st H; cbn [play fst snd].
  - split; [exact H | constructor].
  - assert (H' : tearAmountRef
                   (snd (physics sin s (frameDelta (time t) (lastFrameTimeRef st))
                           (bass (bands t))
                           (transitionModeRef (transition (brain s t (director st))))
                           (swayPhaseRef st) (camera (brain s t (director st))))) == 0).
    { apply physics_tear. rewrite brain_tear. exact H. }
    destruct (IH (fst (animate sin imgs s t st)) H') as [IH1 IH2].
    split; [exact IH1 |]. constructor; [| exact IH2].
    intros img i alpha. unfold animate. cbn [snd]. rewrite in_flat_map.
    intros [f [_ Hin]]. revert Hin. apply renderFrame_without_tear. exact H'.
Qed.

(** X18. The tear effect is dead: whatever the ticks, the settings and the
    loaded images, the tear amount stays at zero from the first frame on, and
    no frame the loop draws contains a slice of the sheared image. *)
Theorem tear_is_never_drawn sin imgs s ticks :
  let after := play sin imgs s ticks stage0 in
  tearAmountRef (camera (director (fst after))) == 0
  /\ Forall (fun ops => forall img i alpha, ~ In (drawImage img (Slice i) alpha) ops)
       (snd after).
Proof. apply play_without_tear. reflexivity. Qed.

(** *** The camera *)

Lemma lerp_within (x target k lo hi : Q) :
  lo <= x <= hi -> lo <= target <= hi -> 0 <= k <= 1 ->
  lo <= x + (target - x) * k <= hi.
Proof.
  intros [Hx1 Hx2] [Ht1 Ht2] [Hk1 Hk2].
  assert (A : 0 <= (x - lo) * (1 - k)) by (apply Qmult_le_0_compat; lra).
  assert (B : 0 <= (target - lo) * k) by (apply Qmult_le_0_compat; lra).
  assert (C : 0 <= (hi - x) * (1 - k)) by (apply Qmult_le_0_compat; lra).
  assert (D : 0 <= (hi - target) * k) by (apply Qmult_le_0_compat; lra).
  split; nra.
Qed.

Lemma scale_within (x b f : Q) :
  - b <= x <= b -> -1 <= f <= 1 -> - b <= x * f <= b.
Proof.
  intros [Hx1 Hx2] [Hf1 Hf2].
  assert (A : 0 <= (b - x) * (1 + f)) by (apply Qmult_le_0_compat; lra).
  assert (B : 0 <= (b + x) * (1 - f)) by (apply Qmult_le_0_compat; lra).
  assert (C : 0 <= (b - x) * (1 - f)) by (apply Qmult_le_0_compat; lra).
  assert (D : 0 <= (b + x) * (1 + f)) by (apply Qmult_le_0_compat; lra).
  split; nra.
Qed.

Lemma frameDelta_range now last : last <= now -> 0 <= frameDelta now last <= 0.1.
Proof.
  intros H. unfold frameDelta.
  destruct (Qeq_bool last 0).
  - assert (E : (now - now) / 1000 == 0) by field.
    destruct (min_cases ((now - now) / 1000) 0.1) as [[_ ->] | [_ ->]]; lra.
  - assert (E : (now - last) / 1000 * 1000 == now - last) by field.
    destruct (min_cases ((now - last) / 1000) 0.1) as [[? ->] | [? ->]]; lra.
Qed.

(** The ranges the camera refs are kept in. *)
Lemma brain_camera s t d :
  0 <= rnd_shakeX (dice t) <= 1 -> 0 <= rnd_shakeY (dice t) <= 1 ->
  let ok cam :=
    (1 <= camZoomRef cam <= 1.15)
    /\ (- 7.5 <= camShakeXRef cam <= 7.5)
    /\ (- 7.5 <= camShakeYRef cam <= 7.5)
    /\ (0 <= moireAmountRef cam <= 1.2)
    /\ (0 <= flashIntensityRef cam <= 0.8) in
  ok (camera d) -> ok (camera (brain s t d)).
Proof.
  intros Hx Hy ok H. unfold brain. destruct (playing s); [| exact H].
  set (d1 := if isBeatHit t d then beatHit s t d
             else if isIdle t d then idleFallback s t d else d).
  assert (H1 : ok (camera d1)).
  { unfold d1. destruct (isBeatHit t d); [| destruct (isIdle t d); exact H].
    unfold beatHit. cbn [camera]. destruct (superCamActive s); [| exact H].
    destruct H as (Hz & Hsx & Hsy & Hm & Hf).
    unfold ok.
    match goal with
    | |- context [transitionModeRef ?tr] => destruct (transitionModeRef tr)
    end;
      destruct (Qgtb (bass (bands t)) 0.8);
      cbn [camZoomRef camShakeXRef camShakeYRef moireAmountRef flashIntensityRef];
      repeat split; lra. }
  set (d2 := if isSnare t && Qgtb (time t - lastSnareTimeRef (rhythm d1)) 800
             then snare s t d1 else d1).
  assert (H2 : ok (camera d2)).
  { unfold d2.
    destruct (isSnare t && Qgtb (time t - lastSnareTimeRef (rhythm d1)) 800);
      [| exact H1].
    destruct H1 as (Hz & Hsx & Hsy & Hm & Hf). unfold ok, snare.
    cbn [camera camZoomRef camShakeXRef camShakeYRef moireAmountRef flashIntensityRef].
    repeat split; lra. }
  destruct (isBurst t d && canSwitch t d); exact H2.
Qed.

Lemma physics_camera sin s dt bass_ mode phase cam :
  0 <= dt <= 0.1 ->
  let ok cam :=
    (1 <= camZoomRef cam <= 1.15)
    /\ (- 7.5 <= camShakeXRef cam <= 7.5)
    /\ (- 7.5 <= camShakeYRef cam <= 7.5)
    /\ (0 <= moireAmountRef cam <= 1.2)
    /\ (0 <= flashIntensityRef cam <= 0.8) in
  ok cam -> ok (snd (physics sin s dt bass_ mode phase cam)).
Proof.
  intros Hdt ok (Hz & Hsx & Hsy & Hm & Hf). unfold physics, ok.
  destruct (superCamActive s);
    cbn [snd camZoomRef camShakeXRef camShakeYRef moireAmountRef flashIntensityRef].
  - split; [| split; [| split; [| split]]].
    + apply lerp_within; [exact Hz | | lra].
      destruct mode; [| destruct (playing s)]; lra.
    + apply (scale_within (camShakeXRef cam) 7.5); [exact Hsx | lra].
    + apply (scale_within (camShakeYRef cam) 7.5); [exact Hsy | lra].
    + lra.
    + lra.
  - split; [| split; [| split; [| split]]].
    + apply lerp_within; [exact Hz | lra | lra].
    + lra.
    + lra.
    + exact Hm.
    + exact Hf.
Qed.

Lemma play_camera sin imgs s ticks : forall st,
  ascending (lastFrameTimeRef st) ticks ->
  Forall (fun t => 0 <= rnd_shakeX (dice t) <= 1 /\ 0 <= rnd_shakeY (dice t) <= 1) ticks ->
  let ok cam :=
    (1 <= camZoomRef cam <= 1.15)
    /\ (- 7.5 <= camShakeXRef cam <= 7.5)
    /\ (- 7.5 <= camShakeYRef cam <= 7.5)
    /\ (0 <= moireAmountRef cam <= 1.2)
    /\ (0 <= flashIntensityRef cam <= 0.8) in
  ok (camera (director st)) ->
  ok (camera (director (fst (play sin imgs s ticks st)))).
Proof.
  induction ticks as [| t ticks IH]; intros st Hasc Hdice ok H; cbn [play fst].
  - exact H.
  - destruct Hasc as [Hle Hasc]. inversion Hdice as [| ? ? [Hx Hy] Hrest]; subst.
    apply IH; [exact Hasc | exact Hrest |].
    unfold animate. cbn [fst director camera].
    apply physics_camera; [apply frameDelta_range; exact Hle |].
    apply brain_camera; assumption.
Qed.

(** X19. The camera stays in range. When the frame timestamps do not
    decrease and [Math.random()] gives values between 0 and 1, then after any
    number of frames the zoom is between 1 and 1.15, each shake offset is
    within 7.5 pixels, the split amount between 0 and 1.2 and the flash
    between 0 and 0.8, with and without the super camera. *)
Theorem camera_stays_in_range sin imgs s ticks :
  ascending 0 ticks ->
  Forall (fun t => 0 <= rnd_shakeX (dice t) <= 1 /\ 0 <= rnd_shakeY (dice t) <= 1) ticks ->
  let cam := camera (director (fst (play sin imgs s ticks stage0))) in
  (1 <= camZoomRef cam <= 1.15)
  /\ (- 7.5 <= camShakeXRef cam <= 7.5)
  /\ (- 7.5 <= camShakeYRef cam <= 7.5)
  /\ (0 <= moireAmountRef cam <= 1.2)
  /\ (0 <= flashIntensityRef cam <= 0.8).
Proof.
  intros Hasc Hdice.
  apply (play_camera sin imgs s ticks stage0); [exact Hasc | exact Hdice |].
  cbn. repeat split; lra.
Qed.

Lemma camera_stays_in_range_witness :
  let cam := camera (director (fst (play (fun _ => 0) ∅ DirectorSample.settings
                                      DirectorSample.ticks stage0))) in
  1 <= camZoomRef cam <= 1.15 /\ 0 <= moireAmountRef cam <= 1.2.
Proof.
  pose proof (camera_stays_in_range (fun _ => 0) ∅ DirectorSample.settings
                DirectorSample.ticks) as H.
  cbv zeta in *.
  destruct H as (Hz & _ & _ & Hm & _).
  - cbn. repeat split; lra.
  - repeat constructor; cbn; lra.
  - split; assumption.
Defined.

(** *** The virtual frames *)

Lemma ease_range p : 0 <= p <= 1 -> 0 <= p * p * (3 - 2 * p) <= 1.
Proof.
  intros [H0 H1].
  assert (A : 0 <= p * p) by (apply Qmult_le_0_compat; lra).
  assert (B : 0 <= p * p * (3 - 2 * p)) by (apply Qmult_le_0_compat; lra).
  assert (C : 0 <= (1 - p) * (1 - p)) by (apply Qmult_le_0_compat; lra).
  assert (D : 0 <= (1 - p) * (1 - p) * (1 + 2 * p)) by (apply Qmult_le_0_compat; lra).
  assert (E : 1 - p * p * (3 - 2 * p) == (1 - p) * (1 - p) * (1 + 2 * p)) by ring.
  split; [exact B | lra].
Qed.

Lemma progress_range now tr :
  transitionStartRef tr <= now ->
  0 < transitionDurationRef tr ->
  0 <= min 1 ((now - transitionStartRef tr) / transitionDurationRef tr) <= 1.
Proof.
  intros Hs Hd.
  assert (Hq : 0 <= (now - transitionStartRef tr) / transitionDurationRef tr).
  { apply Qle_shift_div_l; [exact Hd | lra]. }
  destruct (min_cases 1 ((now - transitionStartRef tr) / transitionDurationRef tr))
    as [[? ->] | [? ->]]; lra.
Qed.

(** X20. What one tick shows of a transition that has started: one or two
    frames whose opacities are between 0 and 1 and add up to 1, the last of
    them the target pose, none moved sideways by more than 40 pixels; and
    once the duration has passed the target pose alone, at full opacity and
    not moved. *)
Theorem virtual_frames_blend now tr :
  transitionStartRef tr <= now ->
  let fs := virtualFrames now tr in
  totalOpacity fs == 1
  /\ Forall (fun f => 0 <= opacity f <= 1 /\ - 40 <= offsetX f <= 40) fs
  /\ list.last (map shown fs) = Some (targetPoseRef tr)
  /\ (transitionStartRef tr + transitionDurationRef tr <= now ->
      fs = [ {| shown := targetPoseRef tr; opacity := 1; offsetX := 0 |} ]).
Proof.
  intros Hs fs. unfold fs, virtualFrames.
  destruct (Qgtb (transitionDurationRef tr) 0) eqn:Ed.
  - apply Qgtb_true in Ed.
    pose proof (progress_range now tr Hs Ed) as Hp.
    set (p := min 1 ((now - transitionStartRef tr) / transitionDurationRef tr)) in *.
    destruct (Qltb p 1) eqn:Ep.
    + apply Qltb_true in Ep.
      assert (Hnot : ~ transitionStartRef tr + transitionDurationRef tr <= now).
      { intros Hdone.
        assert (1 <= (now - transitionStartRef tr) / transitionDurationRef tr)
          by (apply Qle_shift_div_l; [exact Ed | lra]).
        unfold p in Ep.
        destruct (min_cases 1 ((now - transitionStartRef tr) / transitionDurationRef tr))
          as [[? E] | [? E]]; rewrite E in Ep; lra. }
      destruct (transitionModeRef tr).
      * split; [unfold totalOpacity; cbn [fold_right opacity]; ring |].
        split; [repeat constructor; cbn [opacity offsetX]; lra |].
        split; [reflexivity | intros Hdone; destruct (Hnot Hdone)].
      * pose proof (ease_range p Hp) as He.
        set (ease := p * p * (3 - 2 * p)) in *.
        split; [unfold totalOpacity; cbn [fold_right opacity]; ring |].
        split; [| split; [reflexivity | intros Hdone; destruct (Hnot Hdone)]].
        destruct (lastMoveDirectionRef tr); repeat constructor;
          cbn [opacity offsetX]; lra.
    + split; [unfold totalOpacity; cbn [fold_right opacity]; ring |].
      split; [repeat constructor; cbn [opacity offsetX]; lra |].
      split; reflexivity.
  - change (Qltb 1 1) with false. cbv iota.
    split; [unfold totalOpacity; cbn [fold_right opacity]; ring |].
    split; [repeat constructor; cbn [opacity offsetX]; lra |].
    split; reflexivity.
Qed.

Lemma virtual_frames_blend_witness :
  let tr := {| targetPoseRef := "base_4_left"; previousPoseRef := "base_0";
               transitionStartRef := 1000; transitionDurationRef := 800;
               transitionModeRef := FLOW; lastMoveDirectionRef := left |} in
  1000 <= 1400
  /\ totalOpacity (virtualFrames 1400 tr) == 1
  /\ map shown (virtualFrames 1400 tr) = ["base_0"; "base_4_left"].
Proof.
  cbv zeta. split; [lra |]. split; [| reflexivity].
  apply (virtual_frames_blend 1400
           {| targetPoseRef := "base_4_left"; previousPoseRef := "base_0";
              transitionStartRef := 1000; transitionDurationRef := 800;
              transitionModeRef := FLOW; lastMoveDirectionRef := left |}).
  cbn. lra.
Defined.

Lemma brain_cut s t d :
  let ok tr :=
    transitionModeRef tr = CUT ->
    transitionDurationRef tr = 0 \/ previousPoseRef tr = targetPoseRef tr in
  ok (transition d) -> ok (transition (brain s t d)).
Proof.
  intros ok H. unfold brain. destruct (playing s); [| exact H].
  set (d1 := if isBeatHit t d then beatHit s t d
             else if isIdle t d then idleFallback s t d else d).
  assert (H1 : ok (transition d1)).
  { unfold d1. destruct (isBeatHit t d).
    - unfold beatHit. cbn [transition].
      match goal with
      | |- ok (if ?c then _ else _) => destruct c
      end; [| exact H].
      unfold ok. cbn [transitionModeRef transitionDurationRef].
      destruct (Qgtb (bass (bands t)) 0.8 || ((beatCounterRef (rhythm d) + 1) mod 4 <? 2)%Z);
        [left; reflexivity | discriminate].
    - destruct (isIdle t d); [| exact H].
      unfold idleFallback. cbn [transition].
      match goal with
      | |- ok (if ?c then _ else _) => destruct c
      end; [discriminate | exact H]. }
  set (d2 := if isSnare t && Qgtb (time t - lastSnareTimeRef (rhythm d1)) 800
             then snare s t d1 else d1).
  assert (H2 : ok (transition d2)).
  { unfold d2.
    destruct (isSnare t && Qgtb (time t - lastSnareTimeRef (rhythm d1)) 800); exact H1. }
  destruct (isBurst t d && canSwitch t d); [| exact H2].
  unfold burstCut. cbn [transition].
  match goal with
  | |- ok (if ?c then _ else _) => destruct c
  end; [| exact H2].
  intros _. left. reflexivity.
Qed.

Lemma run_cut s ticks : forall d,
  (transitionModeRef (transition d) = CUT ->
   transitionDurationRef (transition d) = 0
   \/ previousPoseRef (transition d) = targetPoseRef (transition d)) ->
  transitionModeRef (transition (run s ticks d)) = CUT ->
  transitionDurationRef (transition (run s ticks d)) = 0
  \/ previousPoseRef (transition (run s ticks d)) = targetPoseRef (transition (run s ticks d)).
Proof.
  induction ticks as [| t ticks IH]; intros d H; cbn [run fold_left].
  - exact H.
  - apply (IH (brain s t d)). apply brain_cut. exact H.
Qed.

(** X21. A cut never blends two poses. After any number of frames of the
    loop, while the transition mode is [CUT] every frame a tick shows is the
    target pose: the cross-fade written for the cut mode only ever fades the
    base pose into itself, during the first 100 ms. *)
Theorem cut_never_blends_two_poses sin imgs s ticks now :
  let tr := transition (director (fst (play sin imgs s ticks stage0))) in
  transitionModeRef tr = CUT ->
  Forall (fun f => shown f = targetPoseRef tr) (virtualFrames now tr).
Proof.
  intros tr Hcut.
  pose proof (play_same sin imgs s ticks stage0 director0 eq_refl eq_refl eq_refl)
    as Hsame.
  cbv zeta in Hsame. destruct Hsame as (_ & Ht & _).
  fold tr in Ht.
  assert (H : transitionDurationRef tr = 0 \/ previousPoseRef tr = targetPoseRef tr).
  { rewrite Ht. apply run_cut; [intros _; right; reflexivity |].
    rewrite <- Ht. exact Hcut. }
  unfold virtualFrames. rewrite Hcut.
  destruct H as [H | H].
  - rewrite H. change (Qgtb 0 0) with false. change (Qltb 1 1) with false.
    repeat constructor.
  - rewrite H.
    match goal with
    | |- context [if ?c then _ else _] => destruct c
    end; repeat constructor.
Qed.

Lemma cut_never_blends_two_poses_witness :
  let tr := transition (director (fst (play (fun _ => 0) ∅ DirectorSample.settings
                                         [DirectorSample.tick 200 1 0] stage0))) in
  transitionModeRef tr = CUT
  /\ Forall (fun f => shown f = targetPoseRef tr) (virtualFrames 250 tr).
Proof.
  cbv zeta. split; [reflexivity |].
  apply (cut_never_blends_two_poses (fun _ => 0) ∅ DirectorSample.settings
           [DirectorSample.tick 200 1 0] 250).
  reflexivity.
Defined.

(** *** The poses the director shows *)

Lemma nonempty_length (l : list string) : nonempty l = true -> (0 < length l)%nat.
Proof. unfold nonempty. intros H. apply Nat.ltb_lt. exact H. Qed.

Lemma pick_In pool rnd :
  nonempty pool = true -> 0 <= rnd < 1 -> In (pick pool rnd) pool.
Proof.
  intros Hne [H0 H1]. apply nonempty_length in Hne. unfold pick.
  apply nth_In.
  set (n := Z.of_nat (length pool)).
  assert (Hn : 0 < inject_Z n).
  { change 0 with (inject_Z 0). rewrite <- Zlt_Qlt. unfold n. lia. }
  assert (Hlt : rnd * inject_Z n < inject_Z n) by nra.
  assert (Hfl : (Qfloor (rnd * inject_Z n) < n)%Z).
  { rewrite Zlt_Qlt. pose proof (Qfloor_le (rnd * inject_Z n)). lra. }
  subst n. lia.
Qed.

(** The poses the pools and the close-up list hold, and the initial pose. *)
Lemma brain_poses s t d :
  0 <= rnd_pose (dice t) < 1 -> 0 <= rnd_idle (dice t) < 1 ->
  0 <= rnd_burst (dice t) < 1 ->
  let known p :=
    p = "base" \/ In p (closeupFrames s) \/ exists e, In p (framesByEnergy s e) in
  let ok tr := known (targetPoseRef tr) /\ known (previousPoseRef tr) in
  ok (transition d) -> ok (transition (brain s t d)).
Proof.
  intros Hp Hi Hb known ok H. unfold brain. destruct (playing s); [| exact H].
  set (d1 := if isBeatHit t d then beatHit s t d
             else if isIdle t d then idleFallback s t d else d).
  assert (H1 : ok (transition d1)).
  { unfold d1. destruct (isBeatHit t d).
    - unfold beatHit. cbn [transition].
      match goal with
      | |- context [pick ?fp _] => set (finalPool := fp)
      end.
      destruct (nonempty finalPool) eqn:Ene; [| exact H].
      cbn [andb].
      destruct (negb (String.eqb (targetPoseRef (transition d))
                        (pick finalPool (rnd_pose (dice t))))); [| exact H].
      split; cbn [targetPoseRef previousPoseRef]; [| exact (proj1 H)].
      pose proof (pick_In finalPool (rnd_pose (dice t)) Ene Hp) as Hin.
      revert Hin. generalize (pick finalPool (rnd_pose (dice t))). intros p Hin.
      assert (Hpool : forall pool, In p (if nonempty (List.filter
                 (fun p0 => includes (toLowerCase p0)
                    (direction_name
                       (if Qltb (rnd_repeat (dice t)) 0.3
                        then lastMoveDirectionRef (transition d)
                        else match lastMoveDirectionRef (transition d) with
                             | left => right
                             | right => left
                             end))) pool)
               then List.filter
                 (fun p0 => includes (toLowerCase p0)
                    (direction_name
                       (if Qltb (rnd_repeat (dice t)) 0.3
                        then lastMoveDirectionRef (transition d)
                        else match lastMoveDirectionRef (transition d) with
                             | left => right
                             | right => left
                             end))) pool
               else pool) -> In p pool).
      { intros pool.
        match goal with
        | |- In p (if ?c then _ else _) -> _ => destruct c
        end; [| intros Hf; exact Hf].
        intros Hf. apply List.filter_In in Hf. exact (proj1 Hf). }
      unfold finalPool in Hin. apply Hpool in Hin.
      destruct ((Qgtb (mids (bands t)) 0.6 || Qgtb (highs (bands t)) 0.6)
                && nonempty (closeupFrames s) && Qgtb (rnd_closeup (dice t)) 0.5).
      + right. left. exact Hin.
      + right. right.
        destruct (Qgtb (bass (bands t)) 0.8).
        * destruct (nonempty (framesByEnergy s high)); eexists; exact Hin.
        * destruct (nonempty (framesByEnergy s mid)); eexists; exact Hin.
    - destruct (isIdle t d); [| exact H].
      unfold idleFallback. cbn [transition].
      destruct (nonempty (framesByEnergy s low)) eqn:Ene; [| exact H].
      cbn [andb].
      destruct (negb (String.eqb (targetPoseRef (transition d))
                        (pick (framesByEnergy s low) (rnd_idle (dice t))))); [| exact H].
      split; cbn [targetPoseRef previousPoseRef]; [| exact (proj1 H)].
      right. right. exists low. apply pick_In; assumption. }
  set (d2 := if isSnare t && Qgtb (time t - lastSnareTimeRef (rhythm d1)) 800
             then snare s t d1 else d1).
  assert (H2 : ok (transition d2)).
  { unfold d2.
    destruct (isSnare t && Qgtb (time t - lastSnareTimeRef (rhythm d1)) 800); exact H1. }
  destruct (isBurst t d && canSwitch t d); [| exact H2].
  unfold burstCut. cbn [transition].
  destruct (nonempty (framesByEnergy s high)) eqn:Eh.
  - rewrite Eh. assert (Hin := pick_In _ _ Eh Hb).
    split; cbn [targetPoseRef previousPoseRef]; right; right; exists high; exact Hin.
  - destruct (nonempty (framesByEnergy s mid)) eqn:Em; [| exact H2].
    assert (Hin := pick_In _ _ Em Hb).
    split; cbn [targetPoseRef previousPoseRef]; right; right; exists mid; exact Hin.
Qed.

Lemma run_poses s ticks : forall d,
  Forall (fun t => 0 <= rnd_pose (dice t) < 1 /\ 0 <= rnd_idle (dice t) < 1
                   /\ 0 <= rnd_burst (dice t) < 1) ticks ->
  let known p :=
    p = "base" \/ In p (closeupFrames s) \/ exists e, In p (framesByEnergy s e) in
  let ok tr := known (targetPoseRef tr) /\ known (previousPoseRef tr) in
  ok (transition d) -> ok (transition (run s ticks d)).
Proof.
  induction ticks as [| t ticks IH]; intros d Hdice known ok H; cbn [run fold_left].
  - exact H.
  - inversion Hdice as [| ? ? (Hp & Hi & Hb) Hrest]; subst.
    apply (IH (brain s t d) Hrest). apply brain_poses; assumption.
Qed.

(** X22. The director only ever shows poses it was given. When
    [Math.random()] gives values in [0, 1), then after any number of frames
    the target pose and the previous pose are each the initial "base", a pose
    of the close-up list or a pose of one of the three energy pools: the
    "undefined" an index outside a pool would give is never shown. *)
Theorem director_shows_known_poses sin imgs s ticks :
  Forall (fun t => 0 <= rnd_pose (dice t) < 1 /\ 0 <= rnd_idle (dice t) < 1
                   /\ 0 <= rnd_burst (dice t) < 1) ticks ->
  let tr := transition (director (fst (play sin imgs s ticks stage0))) in
  let known p :=
    p = "base" \/ In p (closeupFrames s) \/ exists e, In p (framesByEnergy s e) in
  known (targetPoseRef tr) /\ known (previousPoseRef tr).
Proof.
  intros Hdice tr known.
  pose proof (play_same sin imgs s ticks stage0 director0 eq_refl eq_refl eq_refl)
    as Hsame.
  cbv zeta in Hsame. destruct Hsame as (_ & Ht & _).
  fold tr in Ht. rewrite Ht.
  apply (run_poses s ticks director0 Hdice).
  split; left; reflexivity.
Qed.

Lemma director_shows_known_poses_witness :
  let tr := transition (director (fst (play (fun _ => 0) ∅ DirectorSample.settings
                                         DirectorSample.ticks stage0))) in
  let known p :=
    p = "base" \/ In p (closeupFrames DirectorSample.settings)
    \/ exists e, In p (framesByEnergy DirectorSample.settings e) in
  known (targetPoseRef tr) /\ known (previousPoseRef tr).
Proof.
  apply (director_shows_known_poses (fun _ => 0) ∅ DirectorSample.settings
           DirectorSample.ticks).
  repeat constructor; cbn; lra.
Defined.

(** *** Burst mode *)

Lemma brain_burst s t d :
  burstModeUntilRef (rhythm d) <= lastSnareTimeRef (rhythm d) + 400 ->
  burstModeUntilRef (rhythm (brain s t d))
  <= lastSnareTimeRef (rhythm (brain s t d)) + 400.
Proof.
  intros H. unfold brain. destruct (playing s); [| exact H].
  set (d1 := if isBeatHit t d then beatHit s t d
             else if isIdle t d then idleFallback s t d else d).
  assert (H1 : burstModeUntilRef (rhythm d1) <= lastSnareTimeRef (rhythm d1) + 400).
  { unfold d1. destruct (isBeatHit t d); [exact H |].
    destruct (isIdle t d); exact H. }
  set (d2 := if isSnare t && Qgtb (time t - lastSnareTimeRef (rhythm d1)) 800
             then snare s t d1 else d1).
  assert (H2 : burstModeUntilRef (rhythm d2) <= lastSnareTimeRef (rhythm d2) + 400).
  { unfold d2. destruct (isSnare t); cbn [andb]; [| exact H1].
    destruct (Qgtb (time t - lastSnareTimeRef (rhythm d1)) 800) eqn:E; [| exact H1].
    apply Qgtb_true in E. unfold snare.
    cbn [rhythm burstModeUntilRef lastSnareTimeRef].
    destruct (Qltb (rnd_stutter (dice t) * 100) (stutterChance s)); lra. }
  destruct (isBurst t d && canSwitch t d); exact H2.
Qed.

Lemma run_burst s ticks : forall d,
  burstModeUntilRef (rhythm d) <= lastSnareTimeRef (rhythm d) + 400 ->
  burstModeUntilRef (rhythm (run s ticks d))
  <= lastSnareTimeRef (rhythm (run s ticks d)) + 400.
Proof.
  induction ticks as [| t ticks IH]; intros d H; cbn [run fold_left].
  - exact H.
  - apply IH. apply brain_burst. exact H.
Qed.

(** X23. Burst mode is short. After any number of frames, a tick that
    finds burst mode active comes less than 400 ms after the time the snare
    logic last fired, whatever the stutter setting and the random values. *)
Theorem burst_follows_a_snare sin imgs s ticks t :
  let d := director (fst (play sin imgs s ticks stage0)) in
  isBurst t d = true ->
  time t < lastSnareTimeRef (rhythm d) + 400.
Proof.
  intros d Hb. apply Qltb_true in Hb.
  pose proof (play_same sin imgs s ticks stage0 director0 eq_refl eq_refl eq_refl)
    as Hsame.
  cbv zeta in Hsame. destruct Hsame as (Hr & _ & _).
  fold d in Hr. rewrite Hr in *.
  pose proof (run_burst s ticks director0) as H.
  cbn [director0 rhythm burstModeUntilRef lastSnareTimeRef] in H.
  specialize (H ltac:(lra)). lra.
Qed.

Lemma burst_follows_a_snare_witness :
  let d := director (fst (play (fun _ => 0) ∅ DirectorSample.settings
                            (firstn 3 DirectorSample.ticks) stage0)) in
  isBurst (DirectorSample.tick 1180 0.5 0) d = true
  /\ 1180 < lastSnareTimeRef (rhythm d) + 400.
Proof.
  cbv zeta. split; [reflexivity |].
  apply (burst_follows_a_snare (fun _ => 0) ∅ DirectorSample.settings
           (firstn 3 DirectorSample.ticks) (DirectorSample.tick 1180 0.5 0)).
  reflexivity.
Defined.

(** *** The bands *)

Lemma sum_from (l : list Z) : forall a,
  Forall (fun b => (0 <= b <= 255)%Z) l ->
  (a <= fold_left Z.add l a <= a + 255 * Z.of_nat (length l))%Z.
Proof.
  induction l as [| b l IH]; intros a H; cbn [fold_left length].
  - lia.
  - inversion H as [| ? ? Hb Hl]; subst. specialize (IH (a + b)%Z Hl). lia.
Qed.

Lemma slice_band from to (dataArray : list Z) :
  Forall (fun b => (0 <= b <= 255)%Z) dataArray ->
  (0 <= sum (slice from to dataArray) <= 255 * Z.of_nat (to - from))%Z.
Proof.
  intros H. unfold sum, slice.
  assert (Hs : Forall (fun b => (0 <= b <= 255)%Z) (firstn (to - from) (skipn from dataArray))).
  { apply Forall_take. apply Forall_drop. exact H. }
  pose proof (sum_from _ 0%Z Hs) as Hsum.
  pose proof (firstn_le_length (to - from) (skipn from dataArray)) as Hlen.
  nia.
Qed.

(** X24. The bands read from the analyser are fractions of full scale:
    for byte data, whatever its length, bass, mid and high are each between
    0 and 1. *)
Theorem analyser_bands_in_range dataArray :
  Forall (fun b => (0 <= b <= 255)%Z) dataArray ->
  let b := analyserBands dataArray in
  0 <= bass b <= 1 /\ 0 <= mids b <= 1 /\ 0 <= highs b <= 1.
Proof.
  intros H b. unfold b, analyserBands. cbn [bass mids highs].
  pose proof (slice_band 0 8 dataArray H) as Hb.
  pose proof (slice_band 15 60 dataArray H) as Hm.
  pose proof (slice_band 100 200 dataArray H) as Hh.
  change (Z.of_nat (8 - 0)) with 8%Z in Hb.
  change (Z.of_nat (60 - 15)) with 45%Z in Hm.
  change (Z.of_nat (200 - 100)) with 100%Z in Hh.
  revert Hb Hm Hh.
  generalize (sum (slice 0 8 dataArray)) (sum (slice 15 60 dataArray))
    (sum (slice 100 200 dataArray)).
  intros x y z [Hx1 Hx2] [Hy1 Hy2] [Hz1 Hz2].
  rewrite Zle_Qle in Hx1, Hx2, Hy1, Hy2, Hz1, Hz2.
  change (inject_Z 0) with 0 in *.
  change (inject_Z (255 * 8)) with 2040 in Hx2.
  change (inject_Z (255 * 45)) with 11475 in Hy2.
  change (inject_Z (255 * 100)) with 25500 in Hz2.
  revert Hx1 Hx2 Hy1 Hy2 Hz1 Hz2.
  generalize (inject_Z x) (inject_Z y) (inject_Z z). clear.
  intros x y z Hx1 Hx2 Hy1 Hy2 Hz1 Hz2.
  assert (Ex : x / 8 / 255 * 2040 == x) by field.
  assert (Ey : y / 45 / 255 * 11475 == y) by field.
  assert (Ez : z / 100 / 255 * 25500 == z) by field.
  revert Ex Ey Ez.
  generalize (x / 8 / 255) (y / 45 / 255) (z / 100 / 255).
  intros; repeat split; lra.
Qed.

Lemma analyser_bands_in_range_witness :
  let b := analyserBands (repeat 255%Z 512) in
  0 <= bass b <= 1 /\ 0 <= mids b <= 1 /\ 0 <= highs b <= 1.
Proof.
  apply (analyser_bands_in_range (repeat 255%Z 512)).
  apply List.Forall_forall. intros x Hx. apply repeat_spec in Hx. subst x. lia.
Defined.

Lemma Qmod_range x y : 0 < y -> 0 <= Qmod x y / y < 1.
Proof.
  intros Hy. unfold Qmod.
  pose proof (Qfloor_le (x / y)) as Hle. pose proof (Qlt_floor (x / y)) as Hlt.
  rewrite inject_Z_plus in Hlt. change (inject_Z 1) with 1 in Hlt.
  revert Hle Hlt. generalize (inject_Z (Qfloor (x / y))). intros f Hle Hlt.
  assert (E : (x - y * f) / y == x / y - f) by (field; lra).
  rewrite E. split; lra.
Qed.

Lemma max_0_range x : x <= 1 -> 0 <= max 0 x <= 1.
Proof.
  intros H. unfold max. destruct (Qle_bool 0 x) eqn:E.
  - apply Qle_bool_iff in E. lra.
  - lra.
Qed.

Lemma cube_range m : 0 <= m <= 1 -> 0 <= Qpower m 3 <= 1.
Proof.
  intros [H0 H1].
  assert (E : Qpower m 3 == m * m * m) by (cbn; ring).
  assert (A : 0 <= m * m) by (apply Qmult_le_0_compat; assumption).
  assert (B : 0 <= m * m * m) by (apply Qmult_le_0_compat; assumption).
  assert (C : 0 <= m * (1 - m)) by (apply Qmult_le_0_compat; lra).
  assert (D : 0 <= m * m * (1 - m)) by (apply Qmult_le_0_compat; lra).
  rewrite E. split; nra.
Qed.

(** X25. The fallback clock is gentle. Whatever the time, and for a
    random value in [0, 1), its bass is between 0 and 1, its mid is 0 or 0.6
    and its high is below 0.1; so a tick with these bands never passes the
    snare test, which asks for a mid above 0.6, nor the test that lets a beat
    choose a close-up. *)
Theorem fallback_clock_never_snares time_ rnd dice_ :
  0 <= rnd < 1 ->
  let b := fallbackClock time_ rnd in
  (0 <= bass b <= 1)
  /\ (mids b = 0 \/ mids b = 0.6)
  /\ (0 <= highs b < 0.1)
  /\ isSnare {| time := time_; bands := b; dice := dice_ |} = false
  /\ Qgtb (mids b) 0.6 || Qgtb (highs b) 0.6 = false.
Proof.
  intros Hr b. unfold b, fallbackClock, isSnare. cbn [bass mids highs bands].
  assert (Hd : 0 < 60 / 124) by reflexivity.
  pose proof (Qmod_range (time_ / 1000) (60 / 124) Hd) as Hpos.
  revert Hpos. generalize (Qmod (time_ / 1000) (60 / 124) / (60 / 124)).
  intros beatPos Hpos.
  split; [apply cube_range; apply max_0_range; lra |].
  assert (Hm : forall c : bool,
             ((if c then 0.6 else 0) = 0 \/ (if c then 0.6 else 0) = 0.6)
             /\ Qgtb (if c then 0.6 else 0) 0.6 = false)
    by (intros [|]; split; auto).
  match goal with
  | |- context [if ?c then 0.6 else 0] => destruct (Hm c) as [Hm1 Hm2]
  end.
  split; [exact Hm1 |]. split; [lra |]. split; [exact Hm2 |].
  rewrite Hm2. apply Qgtb_le. lra.
Qed.

Lemma fallback_clock_never_snares_witness :
  let b := fallbackClock 1000 0.5 in
  isSnare {| time := 1000; bands := b; dice := DirectorSample.still |} = false
  /\ 0 <= bass b <= 1.
Proof.
  pose proof (fallback_clock_never_snares 1000 0.5 DirectorSample.still) as H.
  cbv zeta in *.
  destruct H as (Hb & _ & _ & Hs & _); [lra |].
  split; assumption.
Defined.

(** *** The audio engine *)

(** X26. The audio refs follow the state the component shows. In every
    state the play button, the microphone button and a change of soundtrack
    can lead to: a microphone stream is held exactly while the microphone is
    shown active; an audio element exists only for a soundtrack that is set,
    and only with an audio context; and context and analyser exist
    together. *)
Theorem audio_refs_follow_the_state a :
  reachable a ->
  micStreamRef a = isMicActive a
  /\ (audioRef a = true -> truthy (audioPreviewUrl a) = true /\ audioCtxRef a = true)
  /\ analyserRef a = audioCtxRef a.
Proof.
  induction 1 as [u | a x _ (IHmic & IHaudio & IHctx)].
  - cbn. repeat split; discriminate.
  - destruct a as [playing_ mic url_ ctx analyser audio stream].
    cbn [micStreamRef isMicActive audioRef audioPreviewUrl audioCtxRef analyserRef] in *.
    subst stream analyser.
    destruct x as [| granted | u]; cbn [act].
    + unfold togglePlay, initAudioContext, setIsPlaying.
      destruct ctx;
        cbn [audioCtxRef isMicActive audioPreviewUrl isPlaying analyserRef audioRef
             micStreamRef];
        destruct mic;
        cbn [audioCtxRef isMicActive audioPreviewUrl isPlaying analyserRef audioRef
             micStreamRef];
        try destruct (truthy url_) eqn:Et;
        cbn [audioCtxRef isMicActive audioPreviewUrl isPlaying analyserRef audioRef
             micStreamRef];
        (split; [reflexivity |]; split; [| reflexivity]; intros Ha;
         try (destruct (IHaudio Ha) as [Hu Hc]);
         split; first [assumption | reflexivity | congruence]).
    + unfold toggleMic, initAudioContext.
      destruct ctx;
        cbn [audioCtxRef isMicActive audioPreviewUrl isPlaying analyserRef audioRef
             micStreamRef];
        destruct mic;
        cbn [audioCtxRef isMicActive audioPreviewUrl isPlaying analyserRef audioRef
             micStreamRef];
        try destruct granted;
        cbn [audioCtxRef isMicActive audioPreviewUrl isPlaying analyserRef audioRef
             micStreamRef];
        (split; [reflexivity |]; split; [| reflexivity]; intros Ha;
         try (destruct (IHaudio Ha) as [Hu Hc]);
         split; first [assumption | reflexivity | congruence]).
    + cbn [audioChanged micStreamRef isMicActive audioRef audioPreviewUrl audioCtxRef
           analyserRef].
      repeat split; discriminate.
Qed.

Lemma audio_refs_follow_the_state_witness :
  let a := act (act (mounted (Some "blob:track")) TogglePlay) (ToggleMic true) in
  micStreamRef a = true /\ isMicActive a = true /\ analyserRef a = audioCtxRef a.
Proof.
  pose proof (audio_refs_follow_the_state
                (act (act (mounted (Some "blob:track")) TogglePlay) (ToggleMic true))) as H.
  cbv zeta.
  destruct H as (Hmic & _ & Hctx).
  - apply reachable_act. apply reachable_act. apply reachable_mounted.
  - split; [rewrite Hmic; reflexivity |]. split; [reflexivity | exact Hctx].
Defined.

(** *** The frame pools *)

Lemma distribute_from (toLoad : list GeneratedFrame) : forall acc : Pools * list string,
  let after :=
    fold_left
      (fun acc f =>
         match type f with
         | closeup => (fst acc, (snd acc ++ [pose f])%list)
         | body => (push (fst acc) (energy f) (pose f), snd acc)
         end) toLoad acc in
  (forall e,
     fst after e
     = (fst acc e
        ++ map pose (List.filter (fun f => is_body (type f) && bool_decide (energy f = e))
                       toLoad))%list)
  /\ snd after
     = (snd acc ++ map pose (List.filter (fun f => negb (is_body (type f))) toLoad))%list.
Proof.
  induction toLoad as [| f toLoad IH]; intros acc; cbn [fold_left List.filter map].
  - split; [intros e |]; rewrite app_nil_r; reflexivity.
  - destruct (IH (match type f with
                  | closeup => (fst acc, (snd acc ++ [pose f])%list)
                  | body => (push (fst acc) (energy f) (pose f), snd acc)
                  end)) as [IH1 IH2].
    split.
    + intros e. rewrite IH1. destruct (type f); cbn [fst is_body andb].
      * unfold push. destruct (decide (e = energy f)) as [-> | Hne].
        -- rewrite bool_decide_eq_true_2 by reflexivity. cbn [map].
           rewrite <- app_assoc. reflexivity.
        -- rewrite bool_decide_eq_false_2 by congruence. reflexivity.
      * reflexivity.
    + rewrite IH2. destruct (type f); cbn [snd is_body negb map].
      * reflexivity.
      * rewrite <- app_assoc. reflexivity.
Qed.

(** X27. Sorting loses no frame and keeps the order. The close-up list
    is the poses of the close-up frames, in the order of the frames; and an
    energy pool that gets a body frame of its own energy holds exactly the
    poses of the body frames of that energy, in the order of the frames: the
    fallbacks only fill pools that would be empty. *)
Theorem sorting_keeps_every_frame toLoad :
  let bodies e :=
    map pose (List.filter (fun f => is_body (type f) && bool_decide (energy f = e)) toLoad) in
  snd (sortFrames toLoad)
  = map pose (List.filter (fun f => negb (is_body (type f))) toLoad)
  /\ forall e, bodies e <> [] -> fst (sortFrames toLoad) e = bodies e.
Proof.
  intros bodies. unfold sortFrames, distribute. cbn [fst snd].
  destruct (distribute_from toLoad (noPools, [])) as [H1 H2].
  cbn [fst snd noPools app] in H1, H2. cbv zeta in H1, H2.
  split; [exact H2 |].
  intros e He. fold (bodies e) in *.
  set (sorted := fst (fold_left _ toLoad (noPools, []))) in *.
  assert (Hs : forall e', sorted e' = bodies e') by (intros e'; apply H1).
  unfold fallbacks.
  set (sorted1 := match toLoad with
                  | [] => sorted
                  | f0 :: _ =>
                      if (length (sorted low) =? 0)%nat && is_body (type f0)
                      then push sorted low (pose f0) else sorted
                  end).
  assert (S1 : sorted1 e = bodies e).
  { unfold sorted1. destruct toLoad as [| f0 rest]; [apply Hs |].
    destruct (length (sorted low) =? 0)%nat eqn:El; cbn [andb]; [| apply Hs].
    destruct (is_body (type f0)); [| apply Hs].
    unfold push. destruct (decide (e = low)) as [-> | _]; [| apply Hs].
    apply Nat.eqb_eq in El. rewrite Hs in El.
    destruct (bodies low); [congruence | discriminate]. }
  set (sorted2 := if (length (sorted1 mid) =? 0)%nat
                  then assign sorted1 mid (sorted1 low) else sorted1).
  assert (S2 : sorted2 e = bodies e).
  { unfold sorted2. destruct (length (sorted1 mid) =? 0)%nat eqn:El; [| exact S1].
    unfold assign. destruct (decide (e = mid)) as [-> | _]; [| exact S1].
    apply Nat.eqb_eq in El. rewrite S1 in El.
    destruct (bodies mid); [congruence | discriminate]. }
  destruct (length (sorted2 high) =? 0)%nat eqn:El; [| exact S2].
  unfold assign. destruct (decide (e = high)) as [-> | _]; [| exact S2].
  apply Nat.eqb_eq in El. rewrite S2 in El.
  destruct (bodies high); [congruence | discriminate].
Qed.
